(** * zarr.convenience: the copy engine, the log writer, the lazy loader

    A shallow embedding of [src/zarr/convenience.py]: [copy_store],
    [copy] / [_copy] / [copy_all], [_LogWriter], [LazyLoader], [load],
    [open] and [save] / [save_array] / [save_group].

    Python objects that the code mutates (dicts, flat stores, files) live in
    an explicit [World]; a raising call leaves its side effects in place, so
    every computation returns the new state together with an [outcome]. *)

From Stdlib Require Import ZArith Ascii String List DecimalString DecimalNat.
From stdpp Require Import base option list gmap strings sorting fin_maps.

(** ** Python strings *)

Module PyStr.

(** [s.startswith(p)] *)
Fixpoint startswith (s p : string) {struct p} : bool :=
  match p with
  | EmptyString => true
  | String c p' =>
      match s with
      | EmptyString => false
      | String d s' => if Ascii.eqb c d then startswith s' p' else false
      end
  end.

(** [s[n:]] *)
Fixpoint slice_from (n : nat) (s : string) : string :=
  match n with
  | O => s
  | S n' => match s with EmptyString => EmptyString | String _ s' => slice_from n' s' end
  end.

(** [s.split(sep)] for a one-character separator: never the empty list. *)
Fixpoint split (sep : ascii) (s : string) : list string :=
  match s with
  | EmptyString => [EmptyString]
  | String c s' =>
      if Ascii.eqb c sep then EmptyString :: split sep s'
      else match split sep s' with
           | [] => [String c EmptyString]
           | x :: r => String c x :: r
           end
  end.

(** [l[-1]] on a list of strings ([IndexError] cannot arise after [split]). *)
Definition last_item (l : list string) : string := List.last l EmptyString.

(** [not s] for a string. *)
Definition is_empty (s : string) : bool :=
  match s with EmptyString => true | _ => false end.

(** ['{} -> {}'.format(a, b)] *)
Definition arrow (a b : string) : string := a +:+ " -> " +:+ b.

End PyStr.

(** ** Python values, exceptions, the world *)

(** Values that travel through keyword arguments, attributes and array
    metadata.  [PyObj] is an opaque object (a codec, a dtype, a buffer). *)
Inductive pyval :=
| PyNone
| PyBool (b : bool)
| PyInt (n : Z)
| PyStr (s : string)
| PyTuple (l : list Z)
| PyObj (tag : string).

Inductive exn :=
| TypeError (msg : string)
| AttributeError (name : string)
| KeyError (key : string)
| ValueError (msg : string)
| OSError (path : string)
| ReError (pattern : string)
| ConflictAtDestination (path : string)
| UserError (tag : string).

(** The message of the [TypeError] raised by [_copy] when no name can be
    derived. *)
Definition no_name_msg : string :=
  "source has no name, please provide the `name` parameter to indicate a name to copy to".

Definition InvalidName : exn := TypeError no_name_msg.

Definition bad_log_msg : string :=
  "log must be a callable function, file path or file-like object".

Inductive event :=
| EvOpen (path : string) (fd : nat)
| EvWrite (fd : nat) (text : string)
| EvFlush (fd : nat)
| EvClose (fd : nat)
| EvCall (msg : string).

(** A user-supplied log callable: it sees what has happened so far and the
    message, and may raise an exception of its own ([Some tag]). *)
Definition callable := list event → string → option string.

Record World := mkWorld {
  w_dicts : gmap nat (gmap string pyval);          (* dict objects, by identity *)
  w_stores : gmap nat (gmap string (list Byte.byte)); (* flat stores, by identity *)
  w_fds : gset nat;                                (* file objects that exist *)
  w_readonly : gset string;                        (* paths [io.open(_, 'w')] refuses *)
  w_events : list event                            (* file and callback events, oldest first *)
}.

Definition set_dicts (f : gmap nat (gmap string pyval) → gmap nat (gmap string pyval))
    (w : World) : World :=
  mkWorld (f (w_dicts w)) (w_stores w) (w_fds w) (w_readonly w) (w_events w).

Definition set_stores
    (f : gmap nat (gmap string (list Byte.byte)) → gmap nat (gmap string (list Byte.byte)))
    (w : World) : World :=
  mkWorld (w_dicts w) (f (w_stores w)) (w_fds w) (w_readonly w) (w_events w).

Definition add_fd (fd : nat) (w : World) : World :=
  mkWorld (w_dicts w) (w_stores w) ({[fd]} ∪ w_fds w) (w_readonly w) (w_events w).

Definition emit (e : event) (w : World) : World :=
  mkWorld (w_dicts w) (w_stores w) (w_fds w) (w_readonly w) (w_events w ++ [e]).

(** ** Computations: state passing with exceptions *)

Inductive outcome (A : Type) :=
| Return (a : A)
| Raise (e : exn).
Arguments Return {A} a.
Arguments Raise {A} e.

(** A computation over the world and a second component [D] (the
    destination group a node copy writes into; [unit] when there is none). *)
Definition Run (D A : Type) : Type := World * D → (World * D) * outcome A.

Definition run_ret {D A} (a : A) : Run D A := λ s, (s, Return a).

Definition run_bind {D A B} (m : Run D A) (k : A → Run D B) : Run D B :=
  λ s, match m s with
       | (s', Return a) => k a s'
       | (s', Raise e) => (s', Raise e)
       end.

Definition raise {D A} (e : exn) : Run D A := λ s, (s, Raise e).

#[global] Instance run_mret {D} : MRet (Run D) := λ A, @run_ret D A.
#[global] Instance run_mbind {D} : MBind (Run D) := λ A B k m, @run_bind D A B m k.

(** [try: m finally: f] where [f] cannot raise. *)
Definition finally {D A} (m : Run D A) (f : World → World) : Run D A :=
  λ s, match m s with (w', d', r) => ((f w', d'), r) end.

Definition get_world {D} : Run D World := λ s, (s, Return (fst s)).
Definition modify_world {D} (f : World → World) : Run D unit :=
  λ s, ((f (fst s), snd s), Return tt).
Definition get_dest {D} : Run D D := λ s, (s, Return (snd s)).
Definition modify_dest {D} (f : D → D) : Run D unit :=
  λ s, ((fst s, f (snd s)), Return tt).

(** ** Files *)

(** [io.open(path, mode='w')]: a new file object, or [OSError]. *)
Definition io_open {D} (path : string) : Run D nat :=
  w ← get_world;
  if decide (path ∈ w_readonly w) then raise (OSError path)
  else
    let fd := fresh (w_fds w) in
    modify_world (λ w, emit (EvOpen path fd) (add_fd fd w));;
    mret fd.

Definition io_write {D} (fd : nat) (text : string) : Run D unit :=
  modify_world (emit (EvWrite fd text)).
Definition io_flush {D} (fd : nat) : Run D unit :=
  modify_world (emit (EvFlush fd)).
Definition io_close (fd : nat) (w : World) : World := emit (EvClose fd) w.

(** Calling the user's callable with one positional argument. *)
Definition call_user {D} (f : callable) (msg : string) : Run D unit :=
  w ← get_world;
  modify_world (emit (EvCall msg));;
  match f (w_events w) msg with
  | Some tag => raise (UserError tag)
  | None => mret tt
  end.

(** ** [_LogWriter] *)

(** What the caller passes as [log]. *)
Inductive log_arg :=
| LogNone
| LogCallable (f : callable)
| LogPath (path : string)
| LogObject (fd : nat) (has_write has_flush : bool).

Record _LogWriter := mkLogWriter {
  log_func : option callable;
  log_file : option (nat * bool);   (* the file object and [hasattr(_, 'flush')] *)
  needs_closing : bool
}.

(** [_LogWriter.__init__] *)
Definition _LogWriter_init {D} (log : log_arg) : Run D _LogWriter :=
  match log with
  | LogNone => mret (mkLogWriter None None false)
  | LogCallable f => mret (mkLogWriter (Some f) None false)
  | LogPath path =>
      fd ← io_open path;
      mret (mkLogWriter None (Some (fd, true)) true)
  | LogObject fd has_write has_flush =>
      if has_write then mret (mkLogWriter None (Some (fd, has_flush)) false)
      else raise (TypeError bad_log_msg)
  end.

(** [_LogWriter.__exit__]: returns [None], so an exception of the body
    propagates after it. *)
Definition _LogWriter_exit (lw : _LogWriter) (w : World) : World :=
  match log_file lw with
  | Some (fd, _) => if needs_closing lw then io_close fd w else w
  | None => w
  end.

(** [_LogWriter.__call__] with one positional argument. *)
Definition _LogWriter_call {D} (lw : _LogWriter) (msg : string) : Run D unit :=
  match log_file lw with
  | Some (fd, has_flush) =>
      io_write fd (msg +:+ String "010"%char EmptyString);;
      if has_flush then io_flush fd else mret tt
  | None =>
      match log_func lw with
      | Some f => call_user f msg
      | None => mret tt
      end
  end.

(** [with _LogWriter(log) as log: body] *)
Definition with_LogWriter {D A} (log : log_arg) (body : _LogWriter → Run D A) : Run D A :=
  lw ← _LogWriter_init log;
  finally (body lw) (_LogWriter_exit lw).

(** ** The [re] module and [zarr.util.normalize_storage_path]

    Neither is code of this file: the regular-expression engine is an
    interface with two operations, and the path normaliser is a function
    that may raise. *)
Class ReModule := {
  re_prog : Type;
  re_compile : string → Z → option re_prog;     (* [None]: [re.error] *)
  re_search : re_prog → string → bool           (* [prog.search(key)] is truthy *)
}.

(** ** [copy_store] *)

(** The [excludes] / [includes] argument: [None], one string, or a sequence. *)
Inductive patterns_arg :=
| PatNone
| PatStr (p : string)
| PatSeq (ps : list string).

Definition patterns_list (a : patterns_arg) : list string :=
  match a with
  | PatNone => []
  | PatStr p => [p]
  | PatSeq ps => ps
  end.

(** [[re.compile(e, flags) for e in patterns]] *)
Fixpoint compile_all `{ReModule} (ps : list string) (flags : Z) : outcome (list re_prog) :=
  match ps with
  | [] => Return []
  | p :: ps' =>
      match re_compile p flags with
      | None => Raise (ReError p)
      | Some prog =>
          match compile_all ps' flags with
          | Return progs => Return (prog :: progs)
          | Raise e => Raise e
          end
      end
  end.

(** An outcome that was computed without touching the state. *)
Definition lift_outcome {D A} (o : outcome A) : Run D A := λ s, (s, o).

(** [for prog in progs: if prog.search(key): <flag>; break] *)
Fixpoint any_search `{ReModule} (progs : list re_prog) (key : string) : bool :=
  match progs with
  | [] => false
  | prog :: progs' => if re_search prog key then true else any_search progs' key
  end.

(** The value of [exclude] when the loop body reaches [if exclude: continue]. *)
Definition exclude_key `{ReModule} (excludes includes : list re_prog) (key : string) : bool :=
  let exclude := any_search excludes key in
  if exclude then
    if any_search includes key then false else true
  else false.

(** [sorted(source.keys())] *)
Definition sorted_keys (s : gmap string (list Byte.byte)) : list string :=
  merge_sort String.le (elements (dom s)).

Definition store_keys {D} (source : nat) : Run D (list string) :=
  w ← get_world;
  match w_stores w !! source with
  | Some s => mret (sorted_keys s)
  | None => raise (TypeError "source is not a store")
  end.

(** [source[key]] *)
Definition store_get {D} (source : nat) (key : string) : Run D (list Byte.byte) :=
  w ← get_world;
  match w_stores w !! source with
  | Some s =>
      match s !! key with
      | Some v => mret v
      | None => raise (KeyError key)
      end
  | None => raise (TypeError "source is not a store")
  end.

(** [dest[key] = value] *)
Definition store_set {D} (dest : nat) (key : string) (v : list Byte.byte) : Run D unit :=
  w ← get_world;
  match w_stores w !! dest with
  | Some d => modify_world (set_stores (<[dest := <[key := v]> d]>))
  | None => raise (TypeError "dest is not a store")
  end.

(** The destination key of a source key, [None] when the loop skips it. *)
Definition dest_key_of `{ReModule} (source_path dest_path : string)
    (excludes includes : list re_prog) (source_key : string) : option string :=
  if PyStr.startswith source_key source_path then
    if exclude_key excludes includes source_key then None
    else
      let key_suffix := PyStr.slice_from (String.length source_path) source_key in
      Some (dest_path +:+ key_suffix)
  else None.

(** The body of [for source_key in sorted(source.keys())]. *)
Fixpoint copy_keys `{ReModule} {D} (log : _LogWriter) (source dest : nat)
    (source_path dest_path : string) (excludes includes : list re_prog)
    (keys : list string) : Run D unit :=
  match keys with
  | [] => mret tt
  | source_key :: keys' =>
      match dest_key_of source_path dest_path excludes includes source_key with
      | Some dest_key =>
          _LogWriter_call log (PyStr.arrow source_key dest_key);;
          v ← store_get source source_key;
          store_set dest dest_key v;;
          copy_keys log source dest source_path dest_path excludes includes keys'
      | None =>
          copy_keys log source dest source_path dest_path excludes includes keys'
      end
  end.

Section CopyStore.
Context `{ReModule}.
Variable normalize_storage_path : string → outcome string.

(** [if path: path = path + '/'] *)
Definition with_sep (path : string) : string :=
  if PyStr.is_empty path then path else path +:+ "/".

Definition copy_store (source dest : nat) (source_path dest_path : string)
    (excludes includes : patterns_arg) (flags : Z) (log : log_arg) : Run unit unit :=
  source_path ← lift_outcome (normalize_storage_path source_path);
  dest_path ← lift_outcome (normalize_storage_path dest_path);
  let source_path := with_sep source_path in
  let dest_path := with_sep dest_path in
  excludes ← lift_outcome (compile_all (patterns_list excludes) flags);
  includes ← lift_outcome (compile_all (patterns_list includes) flags);
  with_LogWriter log (λ log,
    keys ← store_keys source;
    copy_keys log source dest source_path dest_path excludes includes keys).

End CopyStore.

(** ** Dict objects *)

Definition not_a_mapping_msg : string := "argument after ** must be a mapping".

(** A new dict object holding [items]. *)
Definition dict_new {D} (items : gmap string pyval) : Run D nat :=
  w ← get_world;
  let l := fresh (dom (w_dicts w)) in
  modify_world (set_dicts (<[l := items]>));;
  mret l.

(** The items of the dict object [l]. *)
Definition dict_items {D} (l : nat) : Run D (gmap string pyval) :=
  w ← get_world;
  match w_dicts w !! l with
  | Some items => mret items
  | None => raise (TypeError not_a_mapping_msg)
  end.

Definition multiple_values_msg : string := "got multiple values for keyword argument".

(** Some parameter of the callee is also a key of the unpacked dict. *)
Definition collides (params : list string) (items : gmap string pyval) : bool :=
  existsb (λ p, bool_decide (is_Some (items !! p))) params.

(** A call that unpacks the dict [d] into keyword arguments, to a callee
    whose own parameters are [params]: a key that names one of them is a
    [TypeError] at the call. *)
Definition unpacked {D} (params : list string) (l : nat) : Run D (gmap string pyval) :=
  items ← dict_items l;
  if collides params items then raise (TypeError multiple_values_msg)
  else mret items.

(** The same call, seen from a callee that collects the remaining keywords
    in a dict of its own: a new object with the items of [d]. *)
Definition kwargs_of {D} (params : list string) (l : nat) : Run D nat :=
  items ← unpacked params l;
  dict_new items.

(** [d.copy()] *)
Definition dict_copy {D} (l : nat) : Run D nat :=
  items ← dict_items l;
  dict_new items.

(** [d.setdefault(k, v)], for its effect. *)
Definition dict_setdefault {D} (l : nat) (k : string) (v : pyval) : Run D unit :=
  items ← dict_items l;
  match items !! k with
  | Some _ => mret tt
  | None => modify_world (set_dicts (<[l := <[k := v]> items]>))
  end.

(** ** Source nodes *)

(** What [_copy] reads of an array or dataset.  A zarr array carries
    [compressor]; an h5py dataset carries [compression],
    [compression_opts] and [shuffle]. *)
Record ArrayInfo := mkArrayInfo {
  a_name : string;
  a_module : string;
  a_shape : pyval;
  a_dtype : pyval;
  a_chunks : pyval;
  a_compressor : pyval;
  a_compression : pyval;
  a_compression_opts : pyval;
  a_shuffle : pyval;
  a_attrs : gmap string pyval;
  a_data : pyval
}.

(** A source node has a [shape] (array) or not (group); a group's children
    are its items in key order. *)
#[local] Unset Elimination Schemes.
Inductive node :=
| SrcArray (a : ArrayInfo)
| SrcGroup (name module : string) (attrs : gmap string pyval) (children : list (string * node)).

Definition node_name (n : node) : string :=
  match n with SrcArray a => a_name a | SrcGroup name _ _ _ => name end.
Definition node_module (n : node) : string :=
  match n with SrcArray a => a_module a | SrcGroup _ m _ _ => m end.

(** ** Destination groups *)

Record darray := mk_darray {
  da_name : string;
  da_shape : pyval;
  da_dtype : pyval;
  da_kws : gmap string pyval;       (* the keyword arguments it was created with *)
  da_data : pyval;
  da_attrs : gmap string pyval
}.

Inductive dgroup :=
| DGroup (name module : string) (attrs : gmap string pyval)
    (children : list (string * (darray + dgroup))).

#[local] Set Elimination Schemes.

Definition dg_name (g : dgroup) : string := match g with DGroup n _ _ _ => n end.
Definition dg_module (g : dgroup) : string := match g with DGroup _ m _ _ => m end.
Definition dg_attrs (g : dgroup) : gmap string pyval := match g with DGroup _ _ a _ => a end.
Definition dg_children (g : dgroup) : list (string * (darray + dgroup)) :=
  match g with DGroup _ _ _ c => c end.

(** [name in dest] *)
Definition has_child (g : dgroup) (name : string) : bool :=
  existsb (λ kv, String.eqb (fst kv) name) (dg_children g).

Definition add_child (g : dgroup) (name : string) (c : darray + dgroup) : dgroup :=
  match g with DGroup n m a cs => DGroup n m a (cs ++ [(name, c)]) end.

(** The path of a child: ["/" + name] under the root, [parent + "/" + name] below. *)
Definition child_path (parent name : string) : string :=
  if String.eqb parent "/" then "/" +:+ name else parent +:+ "/" +:+ name.

(** [attrs.update(src)]: the union, the source winning. *)
Definition dg_update_attrs (src : gmap string pyval) (g : dgroup) : dgroup :=
  match g with DGroup n m a cs => DGroup n m (src ∪ a) cs end.
Definition da_update_attrs (src : gmap string pyval) (d : darray) : darray :=
  mk_darray (da_name d) (da_shape d) (da_dtype d) (da_kws d) (da_data d) (src ∪ da_attrs d).
(** [ds[:] = source] *)
Definition da_set_data (v : pyval) (d : darray) : darray :=
  mk_darray (da_name d) (da_shape d) (da_dtype d) (da_kws d) v (da_attrs d).

(** Modelled from the spec: the destination's [create_group] (the
    hierarchical container interface, [createContainer(name)]).  The class
    [Group] is not in this file; the engine does not pre-check for
    existence and lets the destination's own creation operation raise on a
    conflicting node.  [body] runs with the new group as its destination:
    what it leaves there is the group's content, also when it raises. *)
Definition in_new_group {A} (name : string) (body : Run dgroup A) : Run dgroup A :=
  λ s,
    let dest := snd s in
    if has_child dest name
    then (s, Raise (ConflictAtDestination (child_path (dg_name dest) name)))
    else
      let grp := DGroup (child_path (dg_name dest) name) (dg_module dest) ∅ [] in
      match body (fst s, grp) with
      | (w', grp', r) => ((w', add_child dest name (inr grp')), r)
      end.

(** Modelled from the spec: the destination's [create_dataset]
    ([createLeaf(name, shape, dtype, ...)]), with the same conflict policy.
    The new leaf holds no data and no attributes yet. *)
Definition in_new_dataset {A} (name : string) (shape dtype : pyval)
    (kws : gmap string pyval) (body : Run darray A) : Run dgroup A :=
  λ s,
    let dest := snd s in
    if has_child dest name
    then (s, Raise (ConflictAtDestination (child_path (dg_name dest) name)))
    else
      let ds := mk_darray (child_path (dg_name dest) name) shape dtype kws PyNone ∅ in
      match body (fst s, ds) with
      | (w', ds', r) => ((w', add_child dest name (inl ds')), r)
      end.

(** ** [copy], [_copy], [copy_all] *)

(** Lines 574-579: the name to copy to. *)
Definition resolve_name {D} (source_name : string) (name : option string) : Run D string :=
  match name with
  | Some n => mret n
  | None =>
      let n := PyStr.last_item (PyStr.split "/" source_name) in
      if PyStr.is_empty n then raise InvalidName else mret n
  end.

(** Lines 584-608: the creation keyword arguments of a leaf. *)
Definition leaf_kws {D} (a : ArrayInfo) (source_h5py dest_h5py : bool) (create_kws : nat)
    : Run D nat :=
  kws ← dict_copy create_kws;
  dict_setdefault kws "chunks" (a_chunks a);;
  (if source_h5py then
     if dest_h5py then
       dict_setdefault kws "compression" (a_compression a);;
       dict_setdefault kws "compression_opts" (a_compression_opts a);;
       dict_setdefault kws "shuffle" (a_shuffle a)
     else mret tt
   else
     if dest_h5py then
       dict_setdefault kws "compression" (PyStr "gzip");;
       dict_setdefault kws "compression_opts" (PyInt 1);;
       dict_setdefault kws "shuffle" (PyBool true)
     else dict_setdefault kws "compressor" (a_compressor a));;
  mret kws.

(** [for k in source.keys(): body(k, source[k])] *)
Definition for_items {D} (body : string → node → Run D unit)
    : list (string * node) → Run D unit :=
  fix loop items :=
    match items with
    | [] => mret tt
    | (k, child) :: items' => body k child;; loop items'
    end.

(** The parameters of [_copy] and of [create_dataset] that the calls below
    bind themselves. *)
Definition _copy_params : list string :=
  ["log"; "source"; "dest"; "name"; "root"; "shallow"; "without_attrs"].
Definition create_dataset_params : list string := ["name"; "shape"; "dtype"].

Fixpoint _copy (log : _LogWriter) (source : node) (name : option string)
    (root shallow without_attrs : bool) (create_kws : nat) {struct source}
    : Run dgroup unit :=
  dest ← get_dest;
  let source_h5py := PyStr.startswith (node_module source) "h5py." in
  let dest_h5py := PyStr.startswith (dg_module dest) "h5py." in
  name ← resolve_name (node_name source) name;
  match source with
  | SrcArray a =>
      kws ← leaf_kws a source_h5py dest_h5py create_kws;
      kw ← unpacked create_dataset_params kws;
      in_new_dataset name (a_shape a) (a_dtype a) kw (
        ds ← get_dest;
        _LogWriter_call log (PyStr.arrow (a_name a) (da_name ds));;
        modify_dest (da_set_data (a_data a));;
        if without_attrs then mret tt
        else modify_dest (da_update_attrs (a_attrs a)))
  | SrcGroup gname _ gattrs children =>
      if root || negb shallow then
        in_new_group name (
          grp ← get_dest;
          _LogWriter_call log (PyStr.arrow gname (dg_name grp));;
          (if without_attrs then mret tt
           else modify_dest (dg_update_attrs gattrs));;
          for_items (λ k child,
            kw ← kwargs_of _copy_params create_kws;
            _copy log child (Some k) false shallow without_attrs kw) children)
      else mret tt
  end.

Definition copy (source : node) (name : option string) (shallow without_attrs : bool)
    (log : log_arg) (create_kws : nat) : Run dgroup unit :=
  with_LogWriter log (λ log,
    kw ← kwargs_of _copy_params create_kws;
    _copy log source name true shallow without_attrs kw).

Definition copy_all (source : node) (shallow without_attrs : bool)
    (log : log_arg) (create_kws : nat) : Run dgroup unit :=
  with_LogWriter log (λ log,
    match source with
    | SrcGroup _ _ _ children =>
        for_items (λ k child,
          kw ← kwargs_of _copy_params create_kws;
          _copy log child (Some k) false shallow without_attrs kw) children
    | SrcArray _ => raise (AttributeError "keys")
    end).

(** ** [LazyLoader] *)

(** What the wrapped group holds under a name. *)
Inductive gitem :=
| GArray (data : pyval)
| GSubgroup.

(** Calls made on the wrapped group, as they happen. *)
Inductive access :=
| AGetItem (item : string)      (* [grp[item]] was evaluated *)
| ARead (item : string)         (* [grp[item][...]] returned the array's data *)
| ALen
| AIter
| AContains (item : string)
| AArrayKeys.

#[global] Instance access_eq_dec : EqDecision access.
Proof. solve_decision. Defined.

(** A [LazyLoader] with the group it wraps.  The group is an object shared
    with its other users: [ll_grp] is what it holds now, [ll_log] the calls
    this view has made on it. *)
Record LazyLoader := mkLazyLoader {
  ll_grp : gmap string gitem;
  ll_cache : gmap string pyval;
  ll_log : list access
}.

(** [LazyLoader.__init__] *)
Definition LazyLoader_init (grp : gmap string gitem) : LazyLoader :=
  mkLazyLoader grp ∅ [].

Definition ll_logged (a : list access) (v : LazyLoader) : LazyLoader :=
  mkLazyLoader (ll_grp v) (ll_cache v) (ll_log v ++ a).

(** [LazyLoader.__getitem__] *)
Definition LazyLoader_getitem (item : string) (v : LazyLoader) : LazyLoader * outcome pyval :=
  match ll_cache v !! item with
  | Some arr => (v, Return arr)
  | None =>
      match ll_grp v !! item with
      | Some (GArray arr) =>
          (mkLazyLoader (ll_grp v) (<[item := arr]> (ll_cache v))
             (ll_log v ++ [AGetItem item; ARead item]),
           Return arr)
      | Some GSubgroup => (ll_logged [AGetItem item] v, Raise (KeyError "Ellipsis"))
      | None => (ll_logged [AGetItem item] v, Raise (KeyError item))
      end
  end.

(** [LazyLoader.__len__] *)
Definition LazyLoader_len (v : LazyLoader) : LazyLoader * nat :=
  (ll_logged [ALen] v, size (ll_grp v)).

(** [LazyLoader.__iter__], run to its end. *)
Definition LazyLoader_iter (v : LazyLoader) : LazyLoader * list string :=
  (ll_logged [AIter] v, elements (dom (ll_grp v))).

(** [LazyLoader.__contains__] *)
Definition LazyLoader_contains (item : string) (v : LazyLoader) : LazyLoader * bool :=
  (ll_logged [AContains item] v, bool_decide (item ∈ dom (ll_grp v))).

Definition is_garray (x : gitem) : bool :=
  match x with GArray _ => true | GSubgroup => false end.

(** [', '.join(l)] *)
Fixpoint join_comma (l : list string) : string :=
  match l with
  | [] => EmptyString
  | [x] => x
  | x :: l' => x +:+ ", " +:+ join_comma l'
  end.

(** [LazyLoader.__repr__] *)
Definition LazyLoader_repr (v : LazyLoader) : LazyLoader * string :=
  (ll_logged [AArrayKeys] v,
   "<LazyLoader: "
     +:+ join_comma (merge_sort String.le (elements (dom (filter (λ kv, is_garray kv.2) (ll_grp v)))))
     +:+ ">").

(** One thing that happens to a view: a call on it, or a change another
    user makes to the wrapped group. *)
Inductive ll_op :=
| OpGet (item : string)
| OpLen
| OpIter
| OpContains (item : string)
| OpRepr
| EnvPut (item : string) (x : gitem)
| EnvDelete (item : string).

Inductive ll_result :=
| ResGet (r : outcome pyval)
| ResLen (n : nat)
| ResIter (keys : list string)
| ResContains (b : bool)
| ResRepr (s : string)
| ResEnv.

Definition ll_step (o : ll_op) (v : LazyLoader) : LazyLoader * ll_result :=
  match o with
  | OpGet item => let '(v', r) := LazyLoader_getitem item v in (v', ResGet r)
  | OpLen => let '(v', n) := LazyLoader_len v in (v', ResLen n)
  | OpIter => let '(v', l) := LazyLoader_iter v in (v', ResIter l)
  | OpContains item => let '(v', b) := LazyLoader_contains item v in (v', ResContains b)
  | OpRepr => let '(v', s) := LazyLoader_repr v in (v', ResRepr s)
  | EnvPut item x => (mkLazyLoader (<[item := x]> (ll_grp v)) (ll_cache v) (ll_log v), ResEnv)
  | EnvDelete item => (mkLazyLoader (delete item (ll_grp v)) (ll_cache v) (ll_log v), ResEnv)
  end.

Fixpoint ll_run (ops : list ll_op) (v : LazyLoader) : LazyLoader :=
  match ops with
  | [] => v
  | o :: ops' => ll_run ops' (fst (ll_step o v))
  end.

(** How many times the data of [item] was read from the wrapped group. *)
Definition reads_of (item : string) (log : list access) : nat :=
  length (filter (λ a, a = ARead item) log).

(** ** [load] *)

Inductive loaded :=
| LoadedArray (data : pyval)
| LoadedGroup (v : LazyLoader).

Section Load.
(** The store argument, the store, and the calls into [zarr.creation],
    [zarr.storage], [zarr.core] and [zarr.hierarchy]. *)
Variables store_arg store : Type.
Variable normalize_store_arg : store_arg → outcome store.
Variable contains_array contains_group : store → option string → bool.
Variable Array_read : store → option string → outcome pyval.
Variable Group_open : store → option string → outcome (gmap string gitem).

(** [load]: Python's [None] (the function falls off its end) is [None]. *)
Definition load (s : store_arg) : outcome (option loaded) :=
  match normalize_store_arg s with
  | Raise e => Raise e
  | Return store =>
      if contains_array store None then
        match Array_read store None with
        | Raise e => Raise e
        | Return data => Return (Some (LoadedArray data))
        end
      else if contains_group store None then
        match Group_open store None with
        | Raise e => Raise e
        | Return grp => Return (Some (LoadedGroup (LazyLoader_init grp)))
        end
      else Return None
  end.

End Load.

(** ** [open] *)

Section Open.
(** The store argument, the store, what [open_array] and [open_group]
    return, and the calls into [zarr.creation], [zarr.util], [zarr.storage],
    [zarr.hierarchy] and [zarr.errors]. *)
Variables store_arg store opened : Type.
Variable normalize_store_arg : store_arg → bool → outcome store.
Variable normalize_storage_path : pyval → outcome string.
Variable contains_array contains_group : store → string → bool.
Variable open_array open_group : store → string → gmap string pyval → outcome opened.
Variable err_path_not_found : string → outcome unit.

(** [open]: Python's [None] (the function falls off its end) is [None]. *)
Definition open (store_ : store_arg) (mode : string) (kwargs : gmap string pyval)
    : outcome (option opened) :=
  let path := default PyNone (kwargs !! "path") in
  match normalize_store_arg store_ (String.eqb mode "w") with
  | Raise e => Raise e
  | Return st =>
      match normalize_storage_path path with
      | Raise e => Raise e
      | Return path =>
          let opened_by (f : store → string → gmap string pyval → outcome opened) :=
            match f st mode kwargs with
            | Raise e => Raise e
            | Return o => Return (Some o)
            end in
          if bool_decide (mode ∈ ["w"; "w-"; "x"]) then
            if bool_decide (is_Some (kwargs !! "shape")) then opened_by open_array
            else opened_by open_group
          else if String.eqb mode "a" then
            if contains_array st path then opened_by open_array
            else if contains_group st path then opened_by open_group
            else if bool_decide (is_Some (kwargs !! "shape")) then opened_by open_array
            else opened_by open_group
          else
            if contains_array st path then opened_by open_array
            else if contains_group st path then opened_by open_group
            else
              match err_path_not_found path with
              | Raise e => Raise e
              | Return _ => Return None
              end
      end
  end.

End Open.

Arguments open {store_arg store opened} normalize_store_arg normalize_storage_path
  contains_array contains_group open_array open_group err_path_not_found store_ mode kwargs.

(** ** [save_array], [save_group], [save] *)

(** ['arr_{}'.format(i)] *)
Definition arr_name (i : nat) : string :=
  "arr_" +:+ NilEmpty.string_of_uint (Nat.to_uint i).

(** [try: body finally: fin]: [fin] runs on every outcome of [body]; an
    exception of [fin] replaces the outcome of [body]. *)
Definition try_finally {D A} (body : Run D A) (fin : Run D unit) : Run D A :=
  λ s, match body s with
       | (s1, r) =>
           match fin s1 with
           | (s2, Raise e) => (s2, Raise e)
           | (s2, Return _) => (s2, r)
           end
       end.

(** [for x in l: f(x)] *)
Fixpoint for_each {D A} (f : A → Run D unit) (l : list A) : Run D unit :=
  match l with
  | [] => mret tt
  | x :: l' => f x;; for_each f l'
  end.

Definition no_array_msg : string := "at least one array must be provided".

Section Save.
(** The [store] argument and what [normalize_store_arg] makes of it; whether
    the argument is a [str], and whether the store has a [close]. *)
Variables store_arg store : Type.
Variable is_str : store_arg → bool.
Variable normalize_store_arg : store_arg → bool → outcome store.
Variable has_close : store → bool.

(** Calls into [zarr.creation], [zarr.hierarchy] and on the store. *)
Inductive save_call :=
| CreateArray (data : pyval) (st : store) (overwrite : bool) (kwargs : gmap string pyval)
| CreateGroup (st : store) (overwrite : bool)
| CreateDataset (st : store) (name : string) (data : pyval) (overwrite : bool)
| Close (st : store).

(** How the callees behave: after the calls [tr], the call [c] returns
    ([None]) or raises. *)
Variable fails : list save_call → save_call → option exn.

Definition call_out (c : save_call) : Run (list save_call) unit :=
  λ s, ((fst s, snd s ++ [c]),
        match fails (snd s) c with
        | Some e => Raise e
        | None => Return tt
        end).

(** Lines 132-134 and 207-209. *)
Definition close_if_needed (may_need_closing : bool) (st : store) : Run (list save_call) unit :=
  if may_need_closing && has_close st then call_out (Close st) else mret tt.

(** [save_array]; [store] and [overwrite] are passed by keyword next to the
    unpacked [kwargs]. *)
Definition save_array (store_ : store_arg) (arr : pyval) (kwargs : gmap string pyval)
    : Run (list save_call) unit :=
  let may_need_closing := is_str store_ in
  st ← lift_outcome (normalize_store_arg store_ true);
  try_finally
    (if collides ["store"; "overwrite"] kwargs then raise (TypeError multiple_values_msg)
     else call_out (CreateArray arr st true kwargs))
    (close_if_needed may_need_closing st).

(** [save_group]; [kwargs] in the order [kwargs.items()] yields. *)
Definition save_group (store_ : store_arg) (args : list pyval) (kwargs : list (string * pyval))
    : Run (list save_call) unit :=
  if (length args =? 0) && (length kwargs =? 0) then raise (ValueError no_array_msg)
  else
    let may_need_closing := is_str store_ in
    st ← lift_outcome (normalize_store_arg store_ true);
    try_finally
      (call_out (CreateGroup st true);;
       for_each (λ ia, call_out (CreateDataset st (arr_name (fst ia)) (snd ia) true))
                (imap pair args);;
       for_each (λ ka, call_out (CreateDataset st (fst ka) (snd ka) true)) kwargs)
      (close_if_needed may_need_closing st).

(** [save] *)
Definition save (store_ : store_arg) (args : list pyval) (kwargs : list (string * pyval))
    : Run (list save_call) unit :=
  if (length args =? 0) && (length kwargs =? 0) then raise (ValueError no_array_msg)
  else if (length args =? 1) && (length kwargs =? 0)
  then save_array store_ (nth 0 args PyNone) ∅
  else save_group store_ args kwargs.

(** The calls [save_group] sets out to make, in order. *)
Definition planned_calls (st : store) (args : list pyval) (kwargs : list (string * pyval))
    : list save_call :=
  CreateGroup st true
  :: imap (λ i arr, CreateDataset st (arr_name i) arr true) args
  ++ map (λ ka, CreateDataset st (fst ka) (snd ka) true) kwargs.

Definition closing_calls (store_ : store_arg) (st : store) : list save_call :=
  if is_str store_ && has_close st then [Close st] else [].

Definition is_close (c : save_call) : bool :=
  match c with Close _ => true | _ => false end.

End Save.

Arguments CreateArray {store}.
Arguments CreateGroup {store}.
Arguments CreateDataset {store}.
Arguments Close {store}.
Arguments is_close {store}.
Arguments call_out {store} fails c.
Arguments close_if_needed {store} has_close fails may_need_closing st.
Arguments save_array {store_arg store} is_str normalize_store_arg has_close fails store_ arr kwargs.
Arguments save_group {store_arg store} is_str normalize_store_arg has_close fails store_ args kwargs.
Arguments save {store_arg store} is_str normalize_store_arg has_close fails store_ args kwargs.
Arguments planned_calls {store} st args kwargs.
Arguments closing_calls {store_arg store} is_str has_close store_ st.

(** Between the states [s] and [s'] the calls made end with the closing
    calls of this store, and no other call closes anything. *)
Definition closed_as_opened {store_arg store : Type} (is_str : store_arg → bool)
    (has_close : store → bool) (a : store_arg) (st : store)
    (s s' : World * list (save_call store)) : Prop :=
  ∃ mid, s' = (fst s, snd s ++ mid ++ closing_calls is_str has_close a st)
         ∧ Forall (λ c : save_call store, is_close c = false) mid.

(** ** Concrete collaborators for the examples *)

(** [p] occurs somewhere in [s]. *)
Fixpoint occurs_in (p s : string) : bool :=
  if PyStr.startswith s p then true
  else match s with
       | EmptyString => false
       | String _ s' => occurs_in p s'
       end.

(** Regular expressions made of ordinary characters only: such a pattern
    is found where it occurs as a substring. *)
Definition literal_re : ReModule :=
  {| re_prog := string;
     re_compile := λ p _, Some p;
     re_search := λ p key, occurs_in p key |}.

Fixpoint lstrip_sep (s : string) : string :=
  match s with
  | String c s' => if Ascii.eqb c "/" then lstrip_sep s' else s
  | EmptyString => EmptyString
  end.

(** Modelled from the spec: [normalize_storage_path] of [zarr.util], whose
    source is not at hand: "strip leading/trailing separators".  The
    theorems take the normaliser as a parameter; this one serves the
    examples. *)
Definition strip_separators (path : string) : outcome string :=
  Return (String.rev (lstrip_sep (String.rev (lstrip_sep path)))).

(** ** Notions used in the statements *)

(** Every run of [m] relates the world before to the world after by [R],
    and raises only exceptions in [E]. *)
Definition sound (R : World → World → Prop) (E : exn → Prop) {D A} (m : Run D A) : Prop :=
  ∀ s s' r, m s = (s', r) → R (fst s) (fst s') ∧ (∀ e, r = Raise e → E e).

Definition is_fs_event (e : event) : bool :=
  match e with
  | EvOpen _ _ | EvClose _ => true
  | _ => false
  end.

(** The opens and closes among the events, in order. *)
Definition fs_trace (evs : list event) : list event := List.filter is_fs_event evs.

Definition same_fs (w w' : World) : Prop := fs_trace (w_events w') = fs_trace (w_events w).
Definition dicts_kept (w w' : World) : Prop := w_dicts w ⊆ w_dicts w'.
Definition any_world (w w' : World) : Prop := True.
Definition any_exn (e : exn) : Prop := True.
Definition not_InvalidName (e : exn) : Prop := e ≠ InvalidName.

Definition with_dict (l : nat) (items : gmap string pyval) (w : World) : World :=
  set_dicts (<[l := items]>) w.

(** The defaults the leaf branch installs, by implementation pair. *)
Definition default_kws (a : ArrayInfo) (source_h5py dest_h5py : bool) : gmap string pyval :=
  {[ "chunks" := a_chunks a ]} ∪
  match source_h5py, dest_h5py with
  | true, true =>
      {[ "compression" := a_compression a ]} ∪ {[ "compression_opts" := a_compression_opts a ]}
        ∪ {[ "shuffle" := a_shuffle a ]}
  | true, false => ∅
  | false, true =>
      {[ "compression" := PyStr "gzip" ]} ∪ {[ "compression_opts" := PyInt 1 ]}
        ∪ {[ "shuffle" := PyBool true ]}
  | false, false => {[ "compressor" := a_compressor a ]}
  end.

Definition is_leaf (n : node) : bool :=
  match n with SrcArray _ => true | SrcGroup _ _ _ _ => false end.

(** A destination leaf is the copy of a source leaf. *)
Definition leaf_copied (without_attrs : bool) (src : string * node)
    (new : string * (darray + dgroup)) : Prop :=
  fst new = fst src ∧
  ∃ a ds, snd src = SrcArray a ∧ snd new = inl ds
          ∧ da_shape ds = a_shape a ∧ da_dtype ds = a_dtype a ∧ da_data ds = a_data a
          ∧ da_attrs ds = (if without_attrs then ∅ else a_attrs a).

(** [dest[name]] *)
Definition dg_lookup (g : dgroup) (name : string) : option (darray + dgroup) :=
  snd <$> List.find (λ kv, String.eqb (fst kv) name) (dg_children g).

(** The name a root call copies to. *)
Definition target_name (source : node) (name : option string) : string :=
  match name with
  | Some n => n
  | None => PyStr.last_item (PyStr.split "/" (node_name source))
  end.

(** The shallow rule in the specification's words: a container that is not
    the root "is still created" with its attributes and without its
    contents; and a shallow copy "creates zero children". *)
Definition container_still_created (grp : dgroup) (k : string) (attrs : gmap string pyval)
    : Prop :=
  ∃ sub, dg_lookup grp k = Some (inr sub) ∧ dg_attrs sub = attrs ∧ dg_children sub = [].

Definition creates_zero_children (grp : dgroup) : Prop := dg_children grp = [].

(** The h5py to h5py row in the specification's words: the compression
    parameters the leaf is created with are only those the caller supplied. *)
Definition passes_only_supplied (supplied created : gmap string pyval) : Prop :=
  ∀ k, k ∈ ["compression"; "compression_opts"; "shuffle"; "compressor"] →
       created !! k = supplied !! k.

(** The cache holds exactly the items whose data was read, each read once. *)
Definition cache_counts_reads (v : LazyLoader) : Prop :=
  ∀ item, reads_of item (ll_log v) = match ll_cache v !! item with Some _ => 1 | None => 0 end.

(** In the specification's words: the prefix of a normalised path is the
    path itself when it is empty, and else the path ended by exactly one
    separator. *)
Definition separator_terminated (path prefix : string) : Prop :=
  (path = EmptyString ∧ prefix = EmptyString)
  ∨ (path ≠ EmptyString ∧ prefix = path +:+ "/").

(** The patterns a caller gave: none, the one string, or each of the
    sequence. *)
Definition pattern_given (a : patterns_arg) (p : string) : Prop :=
  match a with
  | PatNone => False
  | PatStr s => p = s
  | PatSeq ps => p ∈ ps
  end.

(** The pattern [p], compiled with [flags], is found somewhere in [key]. *)
Definition found_in `{ReModule} (flags : Z) (p key : string) : Prop :=
  ∃ prog, re_compile p flags = Some prog ∧ re_search prog key = true.

(** In the specification's words: a key is excluded iff some exclude
    pattern matches it and no include pattern also matches it. *)
Definition filter_keeps `{ReModule} (excludes includes : patterns_arg) (flags : Z)
    (key : string) : Prop :=
  ¬ ((∃ p, pattern_given excludes p ∧ found_in flags p key)
     ∧ ¬ (∃ p, pattern_given includes p ∧ found_in flags p key)).

(** The key [K] is to be copied, and to the destination key [d]: [K]
    starts with the source prefix, the filter keeps it, and [d] is the
    destination prefix followed by [K] without the source prefix. *)
Definition copied_to `{ReModule} (source_path dest_path : string)
    (excludes includes : patterns_arg) (flags : Z) (K d : string) : Prop :=
  ∃ source_prefix dest_prefix suffix,
    separator_terminated source_path source_prefix
    ∧ separator_terminated dest_path dest_prefix
    ∧ K = source_prefix +:+ suffix
    ∧ d = dest_prefix +:+ suffix
    ∧ filter_keeps excludes includes flags K.

(** In the specification's words: the trailing path segment of a name is
    what follows its last separator, or the whole name when it has none. *)
Definition trailing_segment (name seg : string) : Prop :=
  occurs_in "/" seg = false
  ∧ (name = seg ∨ ∃ q, name = q +:+ "/" +:+ seg).

(** [sep.join(l)] *)
Fixpoint join (sep : string) (l : list string) : string :=
  match l with
  | [] => EmptyString
  | [x] => x
  | x :: l' => x +:+ sep +:+ join sep l'
  end.

(** The progress lines of [copy_store], one per copied key, in loop order. *)
Definition copied_lines `{ReModule} (source_path dest_path : string)
    (excludes includes : list re_prog) (keys : list string) : list string :=
  omap (λ K, PyStr.arrow K <$> dest_key_of source_path dest_path excludes includes K) keys.

(** What one returning call of the log writer adds to the events. *)
Definition log_events (lw : _LogWriter) (msg : string) : list event :=
  match log_file lw with
  | Some (fd, has_flush) =>
      EvWrite fd (msg +:+ String "010"%char EmptyString)
        :: (if has_flush then [EvFlush fd] else [])
  | None =>
      match log_func lw with
      | Some _ => [EvCall msg]
      | None => []
      end
  end.

(** [new] is the copy of [src] at [path] in a destination of module
    [dest_module]: the same tree of names, every leaf with the source's
    shape, dtype and data and the creation keywords of the leaf branch,
    attributes copied unless suppressed. *)
Fixpoint mirrors (without_attrs : bool) (supplied : gmap string pyval)
    (dest_module path : string) (src : node) (new : darray + dgroup) {struct src} : Prop :=
  match src, new with
  | SrcArray a, inl ds =>
      da_name ds = path ∧ da_shape ds = a_shape a ∧ da_dtype ds = a_dtype a
      ∧ da_data ds = a_data a
      ∧ da_attrs ds = (if without_attrs then ∅ else a_attrs a)
      ∧ da_kws ds = supplied ∪ default_kws a (PyStr.startswith (a_module a) "h5py.")
                                 (PyStr.startswith dest_module "h5py.")
  | SrcGroup _ _ gattrs children, inr (DGroup name module attrs new_children) =>
      name = path ∧ module = dest_module
      ∧ attrs = (if without_attrs then ∅ else gattrs)
      ∧ (fix all (cs : list (string * node)) (ns : list (string * (darray + dgroup))) : Prop :=
           match cs, ns with
           | [], [] => True
           | (k, c) :: cs', (k', n) :: ns' =>
               k' = k ∧ mirrors without_attrs supplied dest_module (child_path path k) c n
               ∧ all cs' ns'
           | _, _ => False
           end) children new_children
  | _, _ => False
  end.

Definition child_mirrors (without_attrs : bool) (supplied : gmap string pyval)
    (dest_module path : string) (kc : string * node) (kn : string * (darray + dgroup)) : Prop :=
  fst kn = fst kc
  ∧ mirrors without_attrs supplied dest_module (child_path path (fst kc)) (snd kc) (snd kn).

(** A call on the view, as opposed to a change somebody else makes to the
    wrapped group. *)
Definition is_view_op (o : ll_op) : bool :=
  match o with
  | EnvPut _ _ | EnvDelete _ => false
  | _ => true
  end.

(** Every cached item is what the group holds under that name now. *)
Definition cache_agrees (v : LazyLoader) : Prop :=
  ∀ item arr, ll_cache v !! item = Some arr → ll_grp v !! item = Some (GArray arr).

(** ** Inputs of the worked examples: a small hierarchy, an empty
    destination, a flat store *)

Definition ex_leaf : ArrayInfo :=
  mkArrayInfo "/foo/t" "zarr.core" (PyTuple [3%Z]) (PyStr "i8") (PyTuple [3%Z])
    (PyObj "Blosc") PyNone PyNone PyNone {[ "units" := PyStr "m" ]} (PyObj "t-data").

Definition ex_baz : ArrayInfo :=
  mkArrayInfo "/foo/bar/baz" "zarr.core" (PyTuple [100%Z]) (PyStr "i8") (PyTuple [50%Z])
    (PyObj "Blosc") PyNone PyNone PyNone ∅ (PyObj "baz-data").

Definition ex_bar : node :=
  SrcGroup "/foo/bar" "zarr.hierarchy" {[ "kind" := PyStr "inner" ]} [("baz", SrcArray ex_baz)].

Definition ex_foo : node :=
  SrcGroup "/foo" "zarr.hierarchy" {[ "units" := PyStr "m" ]}
    [("bar", ex_bar); ("t", SrcArray ex_leaf)].

Definition ex_dest : dgroup := DGroup "/" "zarr.hierarchy" ∅ [].

(** One dict object, number 0: the caller's creation overrides. *)
Definition ex_world : World :=
  mkWorld {[ 0 := {[ "fill_value" := PyInt 0 ]} ]} ∅ ∅ ∅ [].

(** The unnamed root of a hierarchy has the name ["/"], whose last segment
    is empty. *)
Definition ex_root : node := SrcGroup "/" "zarr.hierarchy" ∅ [("foo", ex_foo)].

(** An h5py dataset compressed with lzf, and an h5py destination. *)
Definition ex_h5_leaf : ArrayInfo :=
  mkArrayInfo "/spam" "h5py._hl.dataset" (PyTuple [100%Z]) (PyStr "i8") (PyTuple [30%Z])
    PyNone (PyStr "lzf") PyNone (PyBool false) ∅ (PyObj "spam-data").

Definition ex_h5_dest : dgroup := DGroup "/" "h5py._hl.files" ∅ [].

Definition ex_flat : gmap string (list Byte.byte) :=
  {[ "a/.meta" := [Byte.x4d]; "a/0" := [Byte.x44; Byte.x30];
     "b/.meta" := [Byte.x4d; Byte.x32] ]}.

(** Store 1 is the source, store 2 an empty destination. *)
Definition ex_flat_world : World :=
  mkWorld ∅ {[ 1 := ex_flat; 2 := ∅ ]} ∅ ∅ [].

Definition ex_flat_copy : (World * unit) * outcome unit :=
  @copy_store literal_re strip_separators 1 2 "" "x" PatNone PatNone 0 LogNone
    (ex_flat_world, tt).

(** The whole of store 1 copied into store 2, under no prefix. *)
Definition ex_mirror_copy : (World * unit) * outcome unit :=
  @copy_store literal_re strip_separators 1 2 "" "" PatNone PatNone 0 LogNone
    (ex_flat_world, tt).

(** The copy of [ex_flat_copy], run once more. *)
Definition ex_flat_copy_again : (World * unit) * outcome unit :=
  @copy_store literal_re strip_separators 1 2 "" "x" PatNone PatNone 0 LogNone
    (fst (fst ex_flat_copy), tt).

(** The same copy, logged to a file. *)
Definition ex_logged_copy : (World * unit) * outcome unit :=
  @copy_store literal_re strip_separators 1 2 "" "x" PatNone PatNone 0 (LogPath "copy.log")
    (ex_flat_world, tt).

(** A callable that raises at the line of [a/0]. *)
Definition ex_raising_log : callable :=
  λ _ msg, if String.eqb msg "a/0 -> x/a/0" then Some "boom" else None.

Definition ex_full_copy : (World * dgroup) * outcome unit :=
  copy ex_foo None false false LogNone 0 (ex_world, ex_dest).

Definition ex_copy_all : (World * dgroup) * outcome unit :=
  copy_all ex_foo false false LogNone 0 (ex_world, ex_dest).

Definition ex_leaf_copy : (World * dgroup) * outcome unit :=
  copy (SrcArray ex_leaf) None false false LogNone 0 (ex_world, ex_dest).

(** A group with one array and one subgroup, and a view of it after a few
    calls. *)
Definition ex_group : gmap string gitem :=
  {[ "a" := GArray (PyObj "a-data"); "g" := GSubgroup ]}.

Definition ex_view : LazyLoader :=
  ll_run [OpGet "a"; OpLen; OpGet "g"; OpGet "a"] (LazyLoader_init ex_group).

(** Stand-ins for the store layer in the examples of [save] and [open]: the
    store argument is a path or a store object (a number); a path opens
    store 0; every store has a [close]; store 1 holds a group at every path
    and no store holds an array; no call raises, except
    [err_path_not_found]. *)
Definition ex_is_str (a : string + nat) : bool :=
  match a with inl _ => true | inr _ => false end.

Definition ex_normalize_store_arg (a : string + nat) (clobber : bool) : outcome nat :=
  Return (match a with inl _ => 0 | inr n => n end).

Definition ex_has_close (st : nat) : bool := true.

Definition ex_never_fails (tr : list (save_call nat)) (c : save_call nat) : option exn := None.

Definition ex_normalize_path (path : pyval) : outcome string :=
  Return (match path with PyStr p => p | _ => EmptyString end).

Definition ex_contains_array (st : nat) (path : string) : bool := false.

Definition ex_contains_group (st : nat) (path : string) : bool := Nat.eqb st 1.

Definition ex_open_array (st : nat) (mode : string) (kwargs : gmap string pyval)
    : outcome string := Return "array".

Definition ex_open_group (st : nat) (mode : string) (kwargs : gmap string pyval)
    : outcome string := Return "group".

Definition ex_err_path_not_found (path : string) : outcome unit := Raise (ValueError path).

Definition ex_save_group : (World * list (save_call nat)) * outcome unit :=
  save_group ex_is_str ex_normalize_store_arg ex_has_close ex_never_fails (inl "data.zip")
    [PyObj "x"; PyObj "y"] [("z", PyObj "z")] (ex_world, []).

(** A store with keys under [a/], a key that only starts with the letters
    of the path, and a key elsewhere; store 2 is an empty destination. *)
Definition ex_prefixed : gmap string (list Byte.byte) :=
  {[ "a/.meta" := [Byte.x4d]; "a/0" := [Byte.x44; Byte.x30];
     "ab/0" := [Byte.x41; Byte.x42]; "b/.meta" := [Byte.x4d; Byte.x32] ]}.

Definition ex_prefixed_world : World :=
  mkWorld ∅ {[ 1 := ex_prefixed; 2 := ∅ ]} ∅ ∅ [].

(** Copy what is under [/a/] to [x], leaving out the keys with [meta]. *)
Definition ex_prefixed_copy : (World * unit) * outcome unit :=
  @copy_store literal_re strip_separators 1 2 "/a/" "x" (PatStr "meta") PatNone 0 LogNone
    (ex_prefixed_world, tt).




(** The caller passes a creation keyword named [root]. *)
Definition ex_root_kw_world : World :=
  mkWorld {[ 0 := {[ "root" := PyBool false ]} ]} ∅ ∅ ∅ [].

(** * Properties *)

(** ** Strings *)

Lemma append_String (c : ascii) (p t : string) : String c p +:+ t = String c (p +:+ t).
Proof. reflexivity. Qed.

Lemma startswith_app (s p : string) :
  PyStr.startswith s p = true → s = p +:+ PyStr.slice_from (String.length p) s.
Proof.
  revert s. induction p as [| c p IH]; intros s Hs.
  - reflexivity.
  - destruct s as [| d s]; simpl in Hs; [discriminate |].
    destruct (Ascii.eqb c d) eqn:Hcd; [| discriminate]. simpl.
    apply Ascii.eqb_eq in Hcd. subst d. rewrite append_String. f_equal. apply IH, Hs.
Qed.

Lemma startswith_of_app (p t : string) : PyStr.startswith (p +:+ t) p = true.
Proof.
  induction p as [| c p IH]; [reflexivity |].
  rewrite append_String. simpl. rewrite Ascii.eqb_refl. exact IH.
Qed.

Lemma slice_from_app (p t : string) : PyStr.slice_from (String.length p) (p +:+ t) = t.
Proof. induction p as [| c p IH]; [reflexivity | rewrite append_String; exact IH]. Qed.

(** ** The computation monad *)

Lemma run_bind_unfold {D A B} (m : Run D A) (k : A → Run D B) s :
  (m ≫= k) s =
  match m s with
  | (s', Return a) => k a s'
  | (s', Raise e) => (s', Raise e)
  end.
Proof. reflexivity. Qed.

Lemma run_bind_Return {D A B} (m : Run D A) (k : A → Run D B) s s' b :
  (m ≫= k) s = (s', Return b) →
  ∃ s1 a, m s = (s1, Return a) ∧ k a s1 = (s', Return b).
Proof.
  rewrite run_bind_unfold. destruct (m s) as [s1 [a | e]]; [eauto | discriminate].
Qed.

Lemma node_induction (P : node → Prop) :
  (∀ a, P (SrcArray a)) →
  (∀ name module attrs children,
      Forall (λ kv, P (snd kv)) children → P (SrcGroup name module attrs children)) →
  ∀ n, P n.
Proof.
  intros Ha Hg. fix IH 1. intros [a | name module attrs children].
  - apply Ha.
  - apply Hg. induction children as [| [k c] cs IHcs]; constructor; [apply IH | exact IHcs].
Qed.

(** ** A relation every step keeps, exceptions every step stays within *)

Section Sound.
Variable R : World → World → Prop.
Variable E : exn → Prop.
Hypothesis R_refl : ∀ w, R w w.
Hypothesis R_trans : ∀ w1 w2 w3, R w1 w2 → R w2 w3 → R w1 w3.

Ltac one_step :=
  let Hr := fresh "Hr" in
  intros ? ? ? Hr;
  cbv [mret run_mret run_ret raise get_dest get_world modify_dest modify_world] in Hr;
  injection Hr as <- <-.

Lemma sound_ret {D A} (a : A) : sound R E (mret a : Run D A).
Proof. one_step. split; [apply R_refl | discriminate]. Qed.

Lemma sound_raise {D A} (e : exn) : E e → sound R E (raise e : Run D A).
Proof. intros He. one_step. split; [apply R_refl | intros ? [= <-]; exact He]. Qed.

Lemma sound_bind {D A B} (m : Run D A) (k : A → Run D B) :
  sound R E m → (∀ a, sound R E (k a)) → sound R E (m ≫= k).
Proof.
  intros Hm Hk s s' r. rewrite run_bind_unfold.
  destruct (m s) as [s1 [a | e]] eqn:Hms; intros Hr.
  - destruct (Hm _ _ _ Hms) as [H1 _]. destruct (Hk a _ _ _ Hr) as [H2 H3].
    split; [eapply R_trans; eassumption | exact H3].
  - injection Hr as <- <-. destruct (Hm _ _ _ Hms) as [H1 H2].
    split; [exact H1 | intros e' [= <-]; apply H2; reflexivity].
Qed.

Lemma sound_get_dest {D} : sound R E (get_dest : Run D D).
Proof. one_step. split; [apply R_refl | discriminate]. Qed.

Lemma sound_get_world {D} : sound R E (get_world : Run D World).
Proof. one_step. split; [apply R_refl | discriminate]. Qed.

Lemma sound_modify_dest {D} (f : D → D) : sound R E (modify_dest f).
Proof. one_step. split; [apply R_refl | discriminate]. Qed.

Lemma sound_modify_world {D} (f : World → World) :
  (∀ w, R w (f w)) → sound R E (modify_world f : Run D unit).
Proof. intros Hf. one_step. split; [apply Hf | discriminate]. Qed.

Lemma sound_in_new_group {A} (name : string) (body : Run dgroup A) :
  (∀ p, E (ConflictAtDestination p)) → sound R E body → sound R E (in_new_group name body).
Proof.
  intros HE Hb [w dest] s' r. unfold in_new_group. simpl.
  destruct (has_child dest name).
  - intros [= <- <-]. split; [apply R_refl | intros ? [= <-]; apply HE].
  - destruct (body _) as [[w' grp'] r'] eqn:Hbody. intros [= <- <-].
    exact (Hb _ _ _ Hbody).
Qed.

Lemma sound_in_new_dataset {A} (name : string) shape dtype kws (body : Run darray A) :
  (∀ p, E (ConflictAtDestination p)) → sound R E body →
  sound R E (in_new_dataset name shape dtype kws body).
Proof.
  intros HE Hb [w dest] s' r. unfold in_new_dataset. simpl.
  destruct (has_child dest name).
  - intros [= <- <-]. split; [apply R_refl | intros ? [= <-]; apply HE].
  - destruct (body _) as [[w' ds'] r'] eqn:Hbody. intros [= <- <-].
    exact (Hb _ _ _ Hbody).
Qed.

Lemma sound_for_items {D} (body : string → node → Run D unit) (items : list (string * node)) :
  Forall (λ kv, sound R E (body (fst kv) (snd kv))) items → sound R E (for_items body items).
Proof.
  induction 1 as [| [k c] items Hkc _ IH]; simpl.
  - apply sound_ret.
  - apply sound_bind; [exact Hkc | intros _; exact IH].
Qed.

Lemma sound_finally {D A} (m : Run D A) (f : World → World) :
  (∀ w, R w (f w)) → sound R E m → sound R E (finally m f).
Proof.
  intros Hf Hm s s' r. unfold finally.
  destruct (m s) as [[w' d'] r'] eqn:Hms. intros [= <- <-].
  destruct (Hm _ _ _ Hms) as [H1 H2]. split; [| exact H2].
  eapply R_trans; [exact H1 | apply Hf].
Qed.

(** The steps of [_copy] that touch the world. *)
Hypothesis sound_log : ∀ D lw msg, sound R E (_LogWriter_call lw msg : Run D unit).
Hypothesis sound_leaf_kws : ∀ a sh dh kw, sound R E (leaf_kws a sh dh kw : Run dgroup nat).
Hypothesis sound_kwargs_of : ∀ params l, sound R E (kwargs_of params l : Run dgroup nat).
Hypothesis sound_unpacked : ∀ params l, sound R E (unpacked params l : Run dgroup _).
Hypothesis E_conflict : ∀ p, E (ConflictAtDestination p).

Lemma sound__copy (source : node) :
  ∀ log n root shallow without_attrs kw,
    sound R E (_copy log source (Some n) root shallow without_attrs kw).
Proof.
  induction source as [a | gname gmod gattrs children IH] using node_induction;
    intros log n root shallow without_attrs kw; simpl.
  - apply sound_bind; [apply sound_get_dest | intros dest].
    apply sound_bind; [apply sound_ret | intros name].
    apply sound_bind; [apply sound_leaf_kws | intros kws].
    apply sound_bind; [apply sound_unpacked | intros items].
    apply sound_in_new_dataset; [exact E_conflict |].
    apply sound_bind; [apply sound_get_dest | intros ds].
    apply sound_bind; [apply sound_log | intros _].
    apply sound_bind; [apply sound_modify_dest | intros _].
    destruct without_attrs; [apply sound_ret | apply sound_modify_dest].
  - apply sound_bind; [apply sound_get_dest | intros dest].
    apply sound_bind; [apply sound_ret | intros name].
    destruct (root || negb shallow); [| apply sound_ret].
    apply sound_in_new_group; [exact E_conflict |].
    apply sound_bind; [apply sound_get_dest | intros grp].
    apply sound_bind; [apply sound_log | intros _].
    apply sound_bind.
    { destruct without_attrs; [apply sound_ret | apply sound_modify_dest]. }
    intros _. apply sound_for_items.
    eapply Forall_impl; [exact IH |]. intros [k c] Hc; simpl in *.
    apply sound_bind; [apply sound_kwargs_of | intros kw']. apply Hc.
Qed.

End Sound.

Ltac sound_go side :=
  lazymatch goal with
  | |- sound _ _ (mbind _ _) =>
      apply sound_bind; [solve [side] | sound_go side | intros ?; sound_go side]
  | |- sound _ _ (mret _) => apply sound_ret; solve [side]
  | |- sound _ _ (raise _) => apply sound_raise; solve [side]
  | |- sound _ _ get_world => apply sound_get_world; solve [side]
  | |- sound _ _ get_dest => apply sound_get_dest; solve [side]
  | |- sound _ _ (modify_dest _) => apply sound_modify_dest; solve [side]
  | |- sound _ _ (modify_world _) => apply sound_modify_world; solve [side]
  | |- sound _ _ (match ?x with _ => _ end) => destruct x; sound_go side
  | |- sound _ _ (lift_outcome _) => intros ? ? ? [= <- <-]; split; solve [side]
  end.

(** ** File events *)

Lemma fs_trace_emit (e : event) (w : World) :
  fs_trace (w_events (emit e w)) = fs_trace (w_events w) ++ (if is_fs_event e then [e] else []).
Proof. unfold fs_trace, emit. simpl. rewrite List.filter_app. reflexivity. Qed.

(** ** Running dict operations *)

Lemma with_dict_lookup l items w : w_dicts (with_dict l items w) !! l = Some items.
Proof. unfold with_dict, set_dicts; simpl. apply lookup_insert_eq. Qed.

Lemma with_dict_twice l x y w : with_dict l x (with_dict l y w) = with_dict l x w.
Proof. unfold with_dict, set_dicts; simpl. by rewrite insert_insert_eq. Qed.

Lemma with_dict_id l items w : w_dicts w !! l = Some items → with_dict l items w = w.
Proof.
  intros Hl. destruct w as [dicts stores fds ro evs]; unfold with_dict, set_dicts; simpl in *.
  by rewrite insert_id.
Qed.

Lemma dict_items_run {D} l (w : World) (d : D) :
  dict_items l (w, d) =
  ((w, d), match w_dicts w !! l with
           | Some items => Return items
           | None => Raise (TypeError not_a_mapping_msg)
           end).
Proof.
  unfold dict_items. rewrite run_bind_unfold. simpl.
  destruct (w_dicts w !! l); reflexivity.
Qed.

Lemma dict_new_run {D} items (w : World) (d : D) :
  dict_new items (w, d) =
  ((with_dict (fresh (dom (w_dicts w))) items w, d), Return (fresh (dom (w_dicts w)))).
Proof. reflexivity. Qed.

Lemma dict_copy_run {D} l (w : World) (d : D) :
  dict_copy l (w, d) =
  match w_dicts w !! l with
  | Some items =>
      ((with_dict (fresh (dom (w_dicts w))) items w, d), Return (fresh (dom (w_dicts w))))
  | None => ((w, d), Raise (TypeError not_a_mapping_msg))
  end.
Proof.
  unfold dict_copy. rewrite run_bind_unfold, dict_items_run.
  destruct (w_dicts w !! l); reflexivity.
Qed.

Lemma unpacked_run {D} params l (w : World) (d : D) :
  unpacked params l (w, d) =
  ((w, d), match w_dicts w !! l with
           | Some items =>
               if collides params items then Raise (TypeError multiple_values_msg)
               else Return items
           | None => Raise (TypeError not_a_mapping_msg)
           end).
Proof.
  unfold unpacked. rewrite run_bind_unfold, dict_items_run.
  destruct (w_dicts w !! l) as [items |]; [| reflexivity].
  destruct (collides params items); reflexivity.
Qed.

Lemma kwargs_of_run {D} params l (w : World) (d : D) :
  kwargs_of params l (w, d) =
  match w_dicts w !! l with
  | Some items =>
      if collides params items then ((w, d), Raise (TypeError multiple_values_msg))
      else ((with_dict (fresh (dom (w_dicts w))) items w, d),
            Return (fresh (dom (w_dicts w))))
  | None => ((w, d), Raise (TypeError not_a_mapping_msg))
  end.
Proof.
  unfold kwargs_of. rewrite run_bind_unfold, unpacked_run.
  destruct (w_dicts w !! l) as [items |]; [| reflexivity].
  destruct (collides params items); reflexivity.
Qed.

Lemma union_singleton_present (items : gmap string pyval) k v :
  is_Some (items !! k) → items ∪ {[k := v]} = items.
Proof.
  intros [x Hx]. apply map_eq. intros i. rewrite lookup_union.
  destruct (decide (i = k)) as [-> | Hne].
  - rewrite Hx, lookup_singleton_eq. reflexivity.
  - rewrite lookup_singleton_ne by congruence. by destruct (items !! i).
Qed.

Lemma dict_setdefault_run {D} l k v items (w : World) (d : D) :
  w_dicts w !! l = Some items →
  dict_setdefault l k v (w, d) = ((with_dict l (items ∪ {[k := v]}) w, d), Return tt).
Proof.
  intros Hl. unfold dict_setdefault. rewrite run_bind_unfold, dict_items_run, Hl.
  destruct (items !! k) as [x |] eqn:Hk.
  - rewrite union_singleton_present by eauto. by rewrite with_dict_id.
  - rewrite <- insert_union_singleton_r by exact Hk. reflexivity.
Qed.

Lemma dict_setdefault_fresh {D} l k v items (w : World) (d : D) :
  dict_setdefault l k v (with_dict l items w, d) =
  ((with_dict l (items ∪ {[k := v]}) w, d), Return tt).
Proof.
  rewrite (dict_setdefault_run l k v items) by apply with_dict_lookup.
  by rewrite with_dict_twice.
Qed.

Lemma leaf_kws_run {D} a sh dh kw (w : World) (d : D) :
  leaf_kws a sh dh kw (w, d) =
  match w_dicts w !! kw with
  | Some items =>
      ((with_dict (fresh (dom (w_dicts w))) (items ∪ default_kws a sh dh) w, d),
       Return (fresh (dom (w_dicts w))))
  | None => ((w, d), Raise (TypeError not_a_mapping_msg))
  end.
Proof.
  unfold leaf_kws. rewrite run_bind_unfold, dict_copy_run.
  destruct (w_dicts w !! kw) as [items |]; [| reflexivity].
  rewrite run_bind_unfold, dict_setdefault_fresh.
  unfold default_kws.
  destruct sh, dh;
    repeat first [rewrite dict_setdefault_fresh | rewrite run_bind_unfold];
    cbv [mret run_mret run_ret];
    rewrite ?(assoc_L (∪)), ?(right_id_L ∅ (∪)); reflexivity.
Qed.

(** ** What every step of a node copy keeps *)

Section SoundSteps.
Variable R : World → World → Prop.
Variable E : exn → Prop.
Hypothesis R_refl : ∀ w, R w w.
Hypothesis R_trans : ∀ w1 w2 w3, R w1 w2 → R w2 w3 → R w1 w3.
(** Writing to a log target keeps [R]; so does a new dict object. *)
Hypothesis R_emit : ∀ e w, is_fs_event e = false → R w (emit e w).
Hypothesis R_alloc : ∀ w items, R w (with_dict (fresh (dom (w_dicts w))) items w).
Hypothesis E_user : ∀ tag, E (UserError tag).
Hypothesis E_conflict : ∀ p, E (ConflictAtDestination p).
Hypothesis E_mapping : E (TypeError not_a_mapping_msg).
Hypothesis E_multiple : E (TypeError multiple_values_msg).

Ltac side := first [ apply R_refl | exact R_trans | apply E_user | exact E_mapping
                   | exact E_multiple | intros; apply R_emit; reflexivity ].

Lemma sound_LogWriter_call D lw msg : sound R E (_LogWriter_call lw msg : Run D unit).
Proof.
  unfold _LogWriter_call, io_write, io_flush, call_user.
  destruct lw as [f [[fd hf] |] nc]; simpl; sound_go side.
Qed.

Lemma sound_unpacked D params l : sound R E (unpacked params l : Run D _).
Proof.
  intros [w d] s' r. rewrite unpacked_run. intros [= <- <-]. split; [apply R_refl |].
  destruct (w_dicts w !! l) as [items |]; [destruct (collides params items) |];
    intros ? [= <-]; assumption.
Qed.

Lemma sound_kwargs_of D params l : sound R E (kwargs_of params l : Run D _).
Proof.
  intros [w d] s' r. rewrite kwargs_of_run.
  destruct (w_dicts w !! l) as [items |]; [destruct (collides params items) |];
    intros [= <- <-]; simpl.
  - split; [apply R_refl | intros ? [= <-]; exact E_multiple].
  - split; [apply R_alloc | discriminate].
  - split; [apply R_refl | intros ? [= <-]; exact E_mapping].
Qed.

Lemma sound_leaf_kws D a sh dh kw : sound R E (leaf_kws a sh dh kw : Run D _).
Proof.
  intros [w d] s' r. rewrite leaf_kws_run.
  destruct (w_dicts w !! kw); intros [= <- <-]; simpl.
  - split; [apply R_alloc | discriminate].
  - split; [apply R_refl | intros ? [= <-]; exact E_mapping].
Qed.

Lemma sound_copy_named source log n root shallow without_attrs kw :
  sound R E (_copy log source (Some n) root shallow without_attrs kw).
Proof.
  apply sound__copy; auto using sound_LogWriter_call, sound_leaf_kws, sound_kwargs_of,
    sound_unpacked.
Qed.

End SoundSteps.

Lemma fs_trace_emit_other (e : event) (w : World) :
  is_fs_event e = false → fs_trace (w_events (emit e w)) = fs_trace (w_events w).
Proof. intros He. rewrite fs_trace_emit, He. apply app_nil_r. Qed.

Lemma with_dict_fresh_subseteq (w : World) items :
  w_dicts w ⊆ w_dicts (with_dict (fresh (dom (w_dicts w))) items w).
Proof.
  unfold with_dict, set_dicts; simpl. apply insert_subseteq.
  apply not_elem_of_dom, is_fresh.
Qed.

Lemma same_fs__copy source log n root shallow without_attrs kw :
  sound same_fs any_exn (_copy log source (Some n) root shallow without_attrs kw).
Proof.
  apply sound_copy_named; unfold same_fs, any_exn; try done.
  - intros; etransitivity; eassumption.
  - intros. by apply fs_trace_emit_other.
Qed.

Lemma dicts_kept__copy source log n root shallow without_attrs kw :
  sound dicts_kept any_exn (_copy log source (Some n) root shallow without_attrs kw).
Proof.
  apply sound_copy_named; unfold dicts_kept, any_exn; try done.
  - intros; etransitivity; eassumption.
  - intros. apply with_dict_fresh_subseteq.
Qed.

Lemma named_copy_not_InvalidName source log n root shallow without_attrs kw :
  sound any_world not_InvalidName (_copy log source (Some n) root shallow without_attrs kw).
Proof.
  apply sound_copy_named; unfold any_world, not_InvalidName, InvalidName; done.
Qed.

(** With [name=None] the name is the last segment of the source's own name. *)
Lemma _copy_None log source root shallow without_attrs kw (s : World * dgroup) :
  _copy log source None root shallow without_attrs kw s =
  let seg := PyStr.last_item (PyStr.split "/" (node_name source)) in
  if PyStr.is_empty seg then (s, Raise InvalidName)
  else _copy log source (Some seg) root shallow without_attrs kw s.
Proof.
  destruct source as [a | gname gmod gattrs children]; simpl;
    rewrite !run_bind_unfold; simpl; rewrite !run_bind_unfold;
    unfold resolve_name; simpl;
    match goal with |- context [PyStr.is_empty ?x] => destruct (PyStr.is_empty x) end;
    reflexivity.
Qed.

Lemma is_empty_true (s : string) : PyStr.is_empty s = true ↔ s = EmptyString.
Proof. destruct s; simpl; split; congruence. Qed.

Section SoundCalls.
Variable R : World → World → Prop.
Variable E : exn → Prop.
Hypothesis R_refl : ∀ w, R w w.
Hypothesis R_trans : ∀ w1 w2 w3, R w1 w2 → R w2 w3 → R w1 w3.
Hypothesis R_alloc : ∀ w items, R w (with_dict (fresh (dom (w_dicts w))) items w).
Hypothesis E_mapping : E (TypeError not_a_mapping_msg).
Hypothesis E_multiple : E (TypeError multiple_values_msg).
Hypothesis E_name : E InvalidName.
Hypothesis E_keys : E (AttributeError "keys").
Hypothesis sound_named : ∀ source log n root shallow without_attrs kw,
  sound R E (_copy log source (Some n) root shallow without_attrs kw).
Hypothesis sound_init : ∀ log, sound R E (_LogWriter_init log : Run dgroup _).
Hypothesis R_exit : ∀ lw w, R w (_LogWriter_exit lw w).

Lemma sound_copy_any_name source log name root shallow without_attrs kw :
  sound R E (_copy log source name root shallow without_attrs kw).
Proof.
  destruct name as [n |]; [apply sound_named |].
  intros s s' r. rewrite _copy_None. cbv zeta.
  destruct (PyStr.is_empty _); [| apply sound_named].
  intros [= <- <-]. split; [apply R_refl | intros ? [= <-]; exact E_name].
Qed.

Lemma sound_with_LogWriter {A} log (body : _LogWriter → Run dgroup A) :
  (∀ lw, sound R E (body lw)) → sound R E (with_LogWriter log body).
Proof.
  intros Hb. unfold with_LogWriter.
  apply sound_bind; [exact R_trans | apply sound_init | intros lw].
  apply sound_finally; [exact R_trans | apply R_exit | apply Hb].
Qed.

Lemma sound_copy source name shallow without_attrs log kw :
  sound R E (copy source name shallow without_attrs log kw).
Proof.
  apply sound_with_LogWriter. intros lw.
  apply sound_bind; [exact R_trans | | intros kw'; apply sound_copy_any_name].
  apply sound_kwargs_of; assumption.
Qed.

Lemma sound_copy_all source shallow without_attrs log kw :
  sound R E (copy_all source shallow without_attrs log kw).
Proof.
  apply sound_with_LogWriter. intros lw.
  destruct source as [a | gname gmod gattrs children].
  - apply sound_raise; assumption.
  - apply sound_for_items; [exact R_refl | exact R_trans |].
    apply Forall_forall. intros [k c] _. simpl.
    apply sound_bind; [exact R_trans | | intros kw'; apply sound_named].
    apply sound_kwargs_of; assumption.
Qed.

End SoundCalls.

(** [_LogWriter.__init__] touches files only. *)
Lemma _LogWriter_init_inv {D} log (w : World) (d : D) s1 r :
  _LogWriter_init log (w, d) = (s1, r) →
  snd s1 = d ∧ w_dicts (fst s1) = w_dicts w ∧ w_stores (fst s1) = w_stores w.
Proof.
  destruct log as [| f | path | fd hw hf]; simpl.
  - intros [= <- <-]; auto.
  - intros [= <- <-]; auto.
  - unfold io_open. rewrite !run_bind_unfold. simpl.
    destruct (decide (path ∈ w_readonly w)); intros [= <- <-]; auto.
  - destruct hw; intros [= <- <-]; auto.
Qed.

Lemma _LogWriter_exit_inv lw w :
  w_dicts (_LogWriter_exit lw w) = w_dicts w ∧ w_stores (_LogWriter_exit lw w) = w_stores w.
Proof.
  unfold _LogWriter_exit. destruct (log_file lw) as [[fd hf] |]; [| auto].
  destruct (needs_closing lw); auto.
Qed.

Lemma dicts_kept_init log : sound dicts_kept any_exn (_LogWriter_init log : Run dgroup _).
Proof.
  intros [w d] s1 r Hr. apply _LogWriter_init_inv in Hr as (_ & Hd & _).
  split; [| done]. unfold dicts_kept. simpl. by rewrite Hd.
Qed.

Lemma dicts_kept_copy source name shallow without_attrs log kw :
  sound dicts_kept any_exn (copy source name shallow without_attrs log kw).
Proof.
  apply sound_copy; unfold dicts_kept, any_exn; try done.
  - intros; etransitivity; eassumption.
  - intros; apply with_dict_fresh_subseteq.
  - intros; apply dicts_kept__copy.
  - apply dicts_kept_init.
  - intros lw w. by rewrite (proj1 (_LogWriter_exit_inv lw w)).
Qed.

Lemma dicts_kept_copy_all source shallow without_attrs log kw :
  sound dicts_kept any_exn (copy_all source shallow without_attrs log kw).
Proof.
  apply sound_copy_all; unfold dicts_kept, any_exn; try done.
  - intros; etransitivity; eassumption.
  - intros; apply with_dict_fresh_subseteq.
  - intros; apply dicts_kept__copy.
  - apply dicts_kept_init.
  - intros lw w. by rewrite (proj1 (_LogWriter_exit_inv lw w)).
Qed.

Lemma dicts_kept_copy_any_name source lw name root shallow without_attrs kw :
  sound dicts_kept any_exn (_copy lw source name root shallow without_attrs kw).
Proof.
  apply sound_copy_any_name; unfold dicts_kept, any_exn; try done.
  intros; apply dicts_kept__copy.
Qed.

(** C10: [copy], [copy_all] and [_copy] never mutate the keyword mapping
    they are given.  Every dict object that exists when the call starts, the
    mapping [create_kws] among them, holds exactly the entries it held
    before when the call ends, whether it returns or raises: the leaf
    branch installs its defaults in a copy. *)
Theorem copy_keeps_create_kws (source : node) (name : option string)
    (root shallow without_attrs : bool) (log : log_arg) (lw : _LogWriter)
    (create_kws : nat) (s : World * dgroup) (l : nat) (items : gmap string pyval) :
  w_dicts (fst s) !! l = Some items →
  w_dicts (fst (fst (copy source name shallow without_attrs log create_kws s))) !! l
    = Some items
  ∧ w_dicts (fst (fst (copy_all source shallow without_attrs log create_kws s))) !! l
    = Some items
  ∧ w_dicts (fst (fst (_copy lw source name root shallow without_attrs create_kws s))) !! l
    = Some items.
Proof.
  intros Hl. repeat split.
  - destruct (copy _ _ _ _ _ _ s) as [s' r] eqn:Hrun.
    apply dicts_kept_copy in Hrun as [Hsub _].
    exact (lookup_weaken _ _ _ _ Hl Hsub).
  - destruct (copy_all _ _ _ _ _ s) as [s' r] eqn:Hrun.
    apply dicts_kept_copy_all in Hrun as [Hsub _].
    exact (lookup_weaken _ _ _ _ Hl Hsub).
  - destruct (_copy _ _ _ _ _ _ _ s) as [s' r] eqn:Hrun.
    apply dicts_kept_copy_any_name in Hrun as [Hsub _].
    exact (lookup_weaken _ _ _ _ Hl Hsub).
Qed.

Lemma copy_keeps_create_kws_example :
  w_dicts (fst (fst (copy ex_foo None false false LogNone 0 (ex_world, ex_dest)))) !! 0
    = Some {[ "fill_value" := PyInt 0 ]}
  ∧ w_dicts (fst (fst (copy_all ex_foo false false LogNone 0 (ex_world, ex_dest)))) !! 0
    = Some {[ "fill_value" := PyInt 0 ]}
  ∧ w_dicts (fst (fst (_copy (mkLogWriter None None false) ex_foo None true false false 0
                         (ex_world, ex_dest)))) !! 0
    = Some {[ "fill_value" := PyInt 0 ]}.
Proof.
  apply (copy_keeps_create_kws ex_foo None true false false LogNone
           (mkLogWriter None None false) 0 (ex_world, ex_dest) 0).
  reflexivity.
Defined.

(** ** The log writer's file *)

Lemma same_fs_copy_any_name source lw name root shallow without_attrs kw :
  sound same_fs any_exn (_copy lw source name root shallow without_attrs kw).
Proof.
  apply sound_copy_any_name; unfold same_fs, any_exn; try done.
  intros; apply same_fs__copy.
Qed.

Lemma same_fs_kwargs_of params (l : nat) :
  sound same_fs any_exn (kwargs_of params l : Run dgroup nat).
Proof.
  apply sound_kwargs_of; unfold same_fs, any_exn; done.
Qed.

Lemma same_fs_copy_body source name shallow without_attrs kw lw :
  sound same_fs any_exn
    (kw' ← kwargs_of _copy_params kw; _copy lw source name true shallow without_attrs kw').
Proof.
  apply sound_bind.
  - unfold same_fs; intros; etransitivity; eassumption.
  - apply same_fs_kwargs_of.
  - intros kw'. apply same_fs_copy_any_name.
Qed.

Lemma same_fs_copy_all_body source shallow without_attrs kw lw :
  sound same_fs any_exn
    (match source with
     | SrcGroup _ _ _ children =>
         for_items (λ k child,
           kw' ← kwargs_of _copy_params kw;
           _copy lw child (Some k) false shallow without_attrs kw') children
     | SrcArray _ => raise (AttributeError "keys")
     end : Run dgroup unit).
Proof.
  assert (Htrans : ∀ w1 w2 w3, same_fs w1 w2 → same_fs w2 w3 → same_fs w1 w3).
  { unfold same_fs; intros; etransitivity; eassumption. }
  destruct source as [a | gname gmod gattrs children].
  - apply sound_raise; done.
  - apply sound_for_items; [done | exact Htrans |].
    apply Forall_forall. intros [k c] _. simpl.
    apply sound_bind; [exact Htrans | apply same_fs_kwargs_of |].
    intros kw'. apply same_fs__copy.
Qed.

(** The opens and closes one [with _LogWriter(log)] block adds. *)
Lemma with_LogWriter_fs {D A} (log : log_arg) (body : _LogWriter → Run D A) (s : World * D) :
  (∀ lw, sound same_fs any_exn (body lw)) →
  fs_trace (w_events (fst (fst (with_LogWriter log body s)))) =
  fs_trace (w_events (fst s)) ++
  match log with
  | LogPath path =>
      if decide (path ∈ w_readonly (fst s)) then []
      else [EvOpen path (fresh (w_fds (fst s))); EvClose (fresh (w_fds (fst s)))]
  | _ => []
  end.
Proof.
  intros Hbody. destruct s as [w d]. unfold with_LogWriter. rewrite run_bind_unfold.
  destruct log as [| f | path | fd hw hf]; simpl.
  - unfold finally. destruct (body _ (w, d)) as [[w' d'] r] eqn:Hb.
    apply Hbody in Hb as [Hb _]. simpl in *. rewrite app_nil_r. exact Hb.
  - unfold finally. destruct (body _ (w, d)) as [[w' d'] r] eqn:Hb.
    apply Hbody in Hb as [Hb _]. simpl in *. rewrite app_nil_r. exact Hb.
  - unfold io_open. rewrite !run_bind_unfold. simpl.
    destruct (decide (path ∈ w_readonly w)); simpl; [by rewrite app_nil_r |].
    unfold finally.
    destruct (body _ _) as [[w' d'] r] eqn:Hb.
    apply Hbody in Hb as [Hb _]. unfold same_fs in Hb. simpl in *.
    unfold fs_trace in *. rewrite List.filter_app, Hb, List.filter_app. simpl.
    by rewrite <- app_assoc.
  - destruct hw; simpl; [| by rewrite app_nil_r].
    unfold finally. destruct (body _ (w, d)) as [[w' d'] r] eqn:Hb.
    apply Hbody in Hb as [Hb _]. simpl in *. rewrite app_nil_r. exact Hb.
Qed.

(** C6: the log writer's resource discipline.  For [copy] and [copy_all],
    on every exit path (the results below do not depend on whether the call
    returned or raised): with a path string that can be opened, the call
    adds exactly one open and then exactly one close, of that same file
    object; a path that cannot be opened adds neither; a caller-supplied
    callable or file-like object, or no log at all, adds no open and no
    close, so the engine never closes what it did not open. *)
Theorem log_writer_resource_discipline (source : node) (name : option string)
    (shallow without_attrs : bool) (create_kws : nat) (s : World * dgroup) :
  let before := fs_trace (w_events (fst s)) in
  let after_copy log :=
    fs_trace (w_events (fst (fst (copy source name shallow without_attrs log create_kws s)))) in
  let after_copy_all log :=
    fs_trace (w_events (fst (fst (copy_all source shallow without_attrs log create_kws s)))) in
  (∀ path,
      let fd := fresh (w_fds (fst s)) in
      let added := if decide (path ∈ w_readonly (fst s)) then []
                   else [EvOpen path fd; EvClose fd] in
      after_copy (LogPath path) = before ++ added
      ∧ after_copy_all (LogPath path) = before ++ added)
  ∧ (∀ f, after_copy (LogCallable f) = before ∧ after_copy_all (LogCallable f) = before)
  ∧ (∀ fd has_write has_flush,
        after_copy (LogObject fd has_write has_flush) = before
        ∧ after_copy_all (LogObject fd has_write has_flush) = before)
  ∧ after_copy LogNone = before ∧ after_copy_all LogNone = before.
Proof.
  cbv zeta. unfold copy, copy_all.
  repeat split; intros;
    rewrite with_LogWriter_fs
      by (intros; first [apply same_fs_copy_body | apply same_fs_copy_all_body]);
    rewrite ?app_nil_r; reflexivity.
Qed.

(** A copy that raises partway through (the destination already holds
    [foo]) after the log file was opened: the file is closed all the same. *)
Example copy_conflict_closes_log :
  let dest := DGroup "/" "zarr.hierarchy" ∅ [("foo", inr (DGroup "/foo" "zarr.hierarchy" ∅ []))] in
  let res := copy ex_foo None false false (LogPath "copy.log") 0 (ex_world, dest) in
  snd res = Raise (ConflictAtDestination "/foo")
  ∧ w_events (fst (fst res)) = [EvOpen "copy.log" 0; EvClose 0].
Proof. vm_compute. split; reflexivity. Qed.

(** ** Name resolution *)

Lemma not_InvalidName_init log :
  sound any_world not_InvalidName (_LogWriter_init log : Run dgroup _).
Proof.
  intros [w d] s1 r. split; [done |]. intros e ->. revert H.
  destruct log as [| f | path | fd hw hf]; simpl.
  - discriminate.
  - discriminate.
  - unfold io_open. rewrite !run_bind_unfold. simpl.
    destruct (decide (path ∈ w_readonly w)); intros [= <- <-]; discriminate.
  - destruct hw; intros [= <- <-]; discriminate.
Qed.

Lemma named_copy_call_not_InvalidName source n shallow without_attrs log kw :
  sound any_world not_InvalidName (copy source (Some n) shallow without_attrs log kw).
Proof.
  apply sound_with_LogWriter; try done.
  - apply not_InvalidName_init.
  - intros lw. apply sound_bind; [done | | intros kw'].
    + apply sound_kwargs_of; done.
    + apply named_copy_not_InvalidName.
Qed.

Example copy_unnamed_root_raises :
  copy ex_root None false false LogNone 0 (ex_world, ex_dest)
  = ((with_dict 1 {[ "fill_value" := PyInt 0 ]} ex_world, ex_dest), Raise InvalidName).
Proof. vm_compute. reflexivity. Qed.

Example copy_named_segment :
  PyStr.last_item (PyStr.split "/" "/foo/bar") = "bar"
  ∧ PyStr.split "/" "/foo/bar" = [EmptyString; "foo"; "bar"]
  ∧ PyStr.split "/" "/" = [EmptyString; EmptyString].
Proof. repeat split; reflexivity. Qed.

(** ** Running a node copy *)

Lemma _LogWriter_call_dest {D} lw msg (s : World * D) :
  snd (fst (_LogWriter_call lw msg s)) = snd s.
Proof.
  destruct s as [w d]. unfold _LogWriter_call, io_write, io_flush, call_user.
  destruct lw as [f [[fd hf] |] nc]; simpl.
  - destruct hf; reflexivity.
  - destruct f as [f |]; [| reflexivity].
    rewrite !run_bind_unfold. simpl. destruct (f _ _); reflexivity.
Qed.

Lemma copy_array_run lw a n root sh wa kw (w : World) (dest : dgroup) :
  _copy lw (SrcArray a) (Some n) root sh wa kw (w, dest) =
  match w_dicts w !! kw with
  | None => ((w, dest), Raise (TypeError not_a_mapping_msg))
  | Some items =>
      let kws := items ∪ default_kws a (PyStr.startswith (a_module a) "h5py.")
                                      (PyStr.startswith (dg_module dest) "h5py.") in
      let w1 := with_dict (fresh (dom (w_dicts w))) kws w in
      if collides create_dataset_params kws
      then ((w1, dest), Raise (TypeError multiple_values_msg))
      else if has_child dest n
      then ((w1, dest), Raise (ConflictAtDestination (child_path (dg_name dest) n)))
      else
        let ds := mk_darray (child_path (dg_name dest) n) (a_shape a) (a_dtype a) kws PyNone ∅ in
        match _LogWriter_call lw (PyStr.arrow (a_name a) (da_name ds)) (w1, ds) with
        | ((w2, _), Raise e) => ((w2, add_child dest n (inl ds)), Raise e)
        | ((w2, _), Return _) =>
            ((w2, add_child dest n
                    (inl (mk_darray (da_name ds) (a_shape a) (a_dtype a) kws (a_data a)
                            (if wa then ∅ else a_attrs a ∪ ∅)))),
             Return tt)
        end
  end.
Proof.
  cbn [_copy]. rewrite run_bind_unfold. cbn [get_dest fst snd].
  rewrite run_bind_unfold. cbn [resolve_name mret run_mret run_ret node_module node_name].
  rewrite run_bind_unfold, leaf_kws_run.
  destruct (w_dicts w !! kw) as [items |]; [| reflexivity].
  rewrite run_bind_unfold, unpacked_run, with_dict_lookup.
  cbv zeta. destruct (collides create_dataset_params _); [reflexivity |].
  unfold in_new_dataset. cbn [fst snd].
  destruct (has_child dest n); [reflexivity |].
  rewrite run_bind_unfold. cbn [get_dest fst snd]. rewrite run_bind_unfold.
  cbn [da_name].
  match goal with |- context [_LogWriter_call ?l ?m ?s] =>
    pose proof (_LogWriter_call_dest l m s) as Hd;
    destruct (_LogWriter_call l m s) as [[w2 ds2] [[] | e]] end; simpl in Hd; subst ds2.
  - destruct wa; reflexivity.
  - reflexivity.
Qed.

Lemma copy_group_skipped lw gname gmod gattrs children k wa kw (s : World * dgroup) :
  _copy lw (SrcGroup gname gmod gattrs children) (Some k) false true wa kw s = (s, Return tt).
Proof. reflexivity. Qed.

Lemma copy_group_run lw gname gmod gattrs children n root sh wa kw (w : World) (dest : dgroup) :
  root || negb sh = true →
  _copy lw (SrcGroup gname gmod gattrs children) (Some n) root sh wa kw (w, dest) =
  if has_child dest n
  then ((w, dest), Raise (ConflictAtDestination (child_path (dg_name dest) n)))
  else
    let grp := DGroup (child_path (dg_name dest) n) (dg_module dest) ∅ [] in
    match _LogWriter_call lw (PyStr.arrow gname (dg_name grp)) (w, grp) with
    | ((w1, _), Raise e) => ((w1, add_child dest n (inr grp)), Raise e)
    | ((w1, _), Return _) =>
        match for_items (λ k child,
                 kw' ← kwargs_of _copy_params kw;
                 _copy lw child (Some k) false sh wa kw') children
               (w1, if wa then grp else dg_update_attrs gattrs grp) with
        | ((w2, grp'), r) => ((w2, add_child dest n (inr grp')), r)
        end
    end.
Proof.
  intros Hroot. cbn [_copy]. rewrite run_bind_unfold. cbn [get_dest fst snd].
  rewrite run_bind_unfold. cbn [resolve_name mret run_mret run_ret node_module node_name].
  rewrite Hroot. unfold in_new_group. cbn [fst snd].
  destruct (has_child dest n); [reflexivity |].
  cbv zeta. rewrite run_bind_unfold. cbn [get_dest fst snd]. rewrite run_bind_unfold.
  match goal with |- context [_LogWriter_call ?l ?m ?s] =>
    pose proof (_LogWriter_call_dest l m s) as Hd;
    destruct (_LogWriter_call l m s) as [[w2 g2] [[] | e]] end; simpl in Hd; subst g2.
  - rewrite run_bind_unfold. destruct wa; reflexivity.
  - reflexivity.
Qed.

Lemma add_child_children g k c : dg_children (add_child g k c) = dg_children g ++ [(k, c)].
Proof. by destruct g. Qed.
Lemma add_child_attrs g k c : dg_attrs (add_child g k c) = dg_attrs g.
Proof. by destruct g. Qed.

Lemma shallow_items_run lw wa kw (children : list (string * node)) :
  ∀ (w : World) (g : dgroup) w' g',
    for_items (λ k child,
        kw' ← kwargs_of _copy_params kw;
        _copy lw child (Some k) false true wa kw') children (w, g)
      = ((w', g'), Return tt) →
    dg_attrs g' = dg_attrs g
    ∧ ∃ new, dg_children g' = dg_children g ++ new
             ∧ Forall2 (leaf_copied wa) (List.filter (λ kv, is_leaf (snd kv)) children) new.
Proof.
  induction children as [| [k c] children IH]; intros w g w' g'.
  - intros [= <- <-]. split; [done |]. exists []. by rewrite app_nil_r.
  - cbn [for_items]. rewrite !run_bind_unfold, kwargs_of_run.
    destruct (w_dicts w !! kw) as [items |]; [| discriminate].
    destruct (collides _copy_params items); [discriminate |].
    destruct c as [a | gname gmod gattrs gchildren].
    + rewrite copy_array_run, with_dict_lookup. cbv zeta.
      destruct (collides create_dataset_params _); [discriminate |].
      destruct (has_child g k); [discriminate |].
      match goal with |- context [_LogWriter_call ?l ?m ?s] =>
        destruct (_LogWriter_call l m s) as [[w2 ds2] [[] | e]] end; [| discriminate].
      intros Hrest. apply IH in Hrest as (Hattrs & new & Hch & Hnew).
      rewrite add_child_attrs in Hattrs. rewrite add_child_children in Hch.
      split; [exact Hattrs |]. eexists (_ :: new). split.
      * rewrite Hch, <- app_assoc. reflexivity.
      * simpl. constructor; [| exact Hnew].
        split; [reflexivity |]. eexists _, _. simpl.
        repeat split. destruct wa; [reflexivity | apply (right_id_L ∅ (∪))].
    + rewrite copy_group_skipped. intros Hrest.
      apply IH in Hrest as (Hattrs & new & Hch & Hnew). simpl in *.
      split; [exact Hattrs |]. exists new. split; [exact Hch | exact Hnew].
Qed.

(** ** Shallow copies *)

(** C2, as the code has it: a shallow copy of a container that returns has
    created the named container, copied its attributes (unless suppressed)
    and copied exactly the leaf children of the source, in order; a
    container that is not the root of the call is skipped whole: nothing is
    created, logged or recursed into. *)
Theorem shallow_copy_of_container (gname gmod : string) (gattrs : gmap string pyval)
    (children : list (string * node)) (name : option string) (without_attrs : bool)
    (log : log_arg) (create_kws : nat) (w w' : World) (dest dest' : dgroup) :
  copy (SrcGroup gname gmod gattrs children) name true without_attrs log create_kws (w, dest)
    = ((w', dest'), Return tt) →
  (∃ grp,
      dest' = add_child dest (target_name (SrcGroup gname gmod gattrs children) name) (inr grp)
      ∧ dg_attrs grp = (if without_attrs then ∅ else gattrs)
      ∧ Forall2 (leaf_copied without_attrs)
          (List.filter (λ kv, is_leaf (snd kv)) children) (dg_children grp))
  ∧ (∀ lw k sub_name sub_module sub_attrs sub_children kw (s : World * dgroup),
        _copy lw (SrcGroup sub_name sub_module sub_attrs sub_children) (Some k)
          false true without_attrs kw s = (s, Return tt)).
Proof.
  intros Hrun. split; [| intros; apply copy_group_skipped].
  unfold copy, with_LogWriter in Hrun. rewrite run_bind_unfold in Hrun.
  destruct (_LogWriter_init log (w, dest)) as [[w1 d1] [lw | e]] eqn:Hinit; [| discriminate].
  apply _LogWriter_init_inv in Hinit as (Hd & _). simpl in Hd. subst d1.
  unfold finally in Hrun. rewrite run_bind_unfold, kwargs_of_run in Hrun.
  destruct (w_dicts w1 !! create_kws) as [items |]; [| discriminate].
  destruct (collides _copy_params items); [discriminate |].
  assert (Hnamed : ∀ n,
    match _copy lw (SrcGroup gname gmod gattrs children) (Some n) true true without_attrs
            (fresh (dom (w_dicts w1))) (with_dict (fresh (dom (w_dicts w1))) items w1, dest) with
    | (w2, d2, r) => (_LogWriter_exit lw w2, d2, r)
    end = (w', dest', Return tt) →
    ∃ grp, dest' = add_child dest n (inr grp)
           ∧ dg_attrs grp = (if without_attrs then ∅ else gattrs)
           ∧ Forall2 (leaf_copied without_attrs)
               (List.filter (λ kv, is_leaf (snd kv)) children) (dg_children grp)).
  { intros n. rewrite copy_group_run by reflexivity.
    destruct (has_child dest n); [discriminate |]. cbv zeta.
    match goal with |- context [_LogWriter_call ?l ?m ?s] =>
      destruct (_LogWriter_call l m s) as [[w2 g2] [[] | e]] end; [| discriminate].
    destruct (for_items _ children _) as [[w3 grp] r] eqn:Hloop.
    intros [= <- <- ->].
    apply shallow_items_run in Hloop as (Hattrs & new & Hch & Hnew).
    exists grp. split; [reflexivity |]. split.
    - rewrite Hattrs. destruct without_attrs; [reflexivity |]. apply (right_id_L ∅ (∪)).
    - destruct without_attrs; simpl in Hch; subst new; exact Hnew. }
  destruct name as [n |]; [exact (Hnamed n Hrun) |].
  rewrite _copy_None in Hrun. cbv zeta in Hrun.
  destruct (PyStr.is_empty _); [discriminate |]. exact (Hnamed _ Hrun).
Qed.

Lemma shallow_copy_of_container_example :
  (∃ grp,
      snd (fst (copy ex_foo None true false LogNone 0 (ex_world, ex_dest)))
        = add_child ex_dest (target_name ex_foo None) (inr grp)
      ∧ dg_attrs grp = {[ "units" := PyStr "m" ]}
      ∧ Forall2 (leaf_copied false) [("t", SrcArray ex_leaf)] (dg_children grp))
  ∧ (∀ lw k sub_name sub_module sub_attrs sub_children kw (s : World * dgroup),
        _copy lw (SrcGroup sub_name sub_module sub_attrs sub_children) (Some k)
          false true false kw s = (s, Return tt)).
Proof.
  refine (shallow_copy_of_container "/foo" "zarr.hierarchy" {[ "units" := PyStr "m" ]}
            [("bar", ex_bar); ("t", SrcArray ex_leaf)] None false LogNone 0
            ex_world _ ex_dest _ _).
  vm_compute. reflexivity.
Defined.

(** C2 as stated fails: the shallow copy of [/foo] creates [foo] with the
    leaf [t] in it (so not zero children), and creates nothing for the
    container [bar]. *)
Lemma shallow_copy_as_stated_fails :
  ∃ grp,
    dg_lookup (snd (fst (copy ex_foo None true false LogNone 0 (ex_world, ex_dest)))) "foo"
      = Some (inr grp)
    ∧ ¬ container_still_created grp "bar" {[ "kind" := PyStr "inner" ]}
    ∧ ¬ creates_zero_children grp
    ∧ dg_lookup grp "bar" = None
    ∧ List.map fst (dg_children grp) = ["t"].
Proof.
  eexists. split; [vm_compute; reflexivity |].
  split; [| split; [| split; reflexivity]].
  - intros (sub & Hsub & _). vm_compute in Hsub. discriminate.
  - unfold creates_zero_children. vm_compute. discriminate.
Qed.

(** ** Creation parameters of a leaf *)

Lemma collides_defaults supplied a sh dh :
  collides create_dataset_params (supplied ∪ default_kws a sh dh)
  = collides create_dataset_params supplied.
Proof.
  unfold collides, create_dataset_params. cbn [existsb].
  assert (Hl : ∀ p, default_kws a sh dh !! p = None →
                    (supplied ∪ default_kws a sh dh) !! p = supplied !! p).
  { intros p Hp. rewrite lookup_union, Hp. by destruct (supplied !! p). }
  rewrite !Hl; [reflexivity | | |]; unfold default_kws; destruct sh, dh; reflexivity.
Qed.

(** C3, as the code has it: the leaf is created with the caller's keyword
    arguments, and for every parameter the caller did not supply, with
    the source's chunks and: zarr to zarr, the source's compressor; h5py to
    zarr, nothing more (the destination's own defaults apply); zarr to h5py,
    gzip at level 1 with shuffle; h5py to h5py, the source's compression,
    compression_opts and shuffle.  (The caller's keywords name none of
    [name], [shape], [dtype], and the destination has no node of that
    name, so that the leaf can be created.) *)
Theorem leaf_creation_parameters (lw : _LogWriter) (a : ArrayInfo) (n : string)
    (root shallow without_attrs : bool) (create_kws : nat) (w : World) (dest : dgroup)
    (supplied : gmap string pyval) :
  w_dicts w !! create_kws = Some supplied →
  collides create_dataset_params supplied = false →
  has_child dest n = false →
  ∃ w' ds r,
    _copy lw (SrcArray a) (Some n) root shallow without_attrs create_kws (w, dest)
      = ((w', add_child dest n (inl ds)), r)
    ∧ da_shape ds = a_shape a ∧ da_dtype ds = a_dtype a
    ∧ da_kws ds =
        supplied ∪
        ({[ "chunks" := a_chunks a ]} ∪
         match PyStr.startswith (a_module a) "h5py.",
               PyStr.startswith (dg_module dest) "h5py." with
         | false, false => {[ "compressor" := a_compressor a ]}
         | true, false => ∅
         | false, true =>
             {[ "compression" := PyStr "gzip" ]} ∪ {[ "compression_opts" := PyInt 1 ]}
               ∪ {[ "shuffle" := PyBool true ]}
         | true, true =>
             {[ "compression" := a_compression a ]}
               ∪ {[ "compression_opts" := a_compression_opts a ]}
               ∪ {[ "shuffle" := a_shuffle a ]}
         end).
Proof.
  intros Hkw Hparams Hfree.
  rewrite copy_array_run, Hkw. cbv zeta. rewrite collides_defaults, Hparams, Hfree.
  match goal with |- context [_LogWriter_call ?l ?m ?s] =>
    destruct (_LogWriter_call l m s) as [[w2 ds2] [[] | e]] end;
    eexists _, _, _; (split; [reflexivity |]); simpl; repeat split;
    unfold default_kws;
    destruct (PyStr.startswith (a_module a) "h5py."),
             (PyStr.startswith (dg_module dest) "h5py."); reflexivity.
Qed.

Lemma leaf_creation_parameters_example :
  ∃ w' ds r,
    _copy (mkLogWriter None None false) (SrcArray ex_h5_leaf) (Some "spam") true false false 0
      (ex_world, ex_h5_dest)
      = ((w', add_child ex_h5_dest "spam" (inl ds)), r)
    ∧ da_shape ds = PyTuple [100%Z] ∧ da_dtype ds = PyStr "i8"
    ∧ da_kws ds =
        {[ "fill_value" := PyInt 0 ]} ∪
        ({[ "chunks" := PyTuple [30%Z] ]} ∪
         ({[ "compression" := PyStr "lzf" ]} ∪ {[ "compression_opts" := PyNone ]}
            ∪ {[ "shuffle" := PyBool false ]})).
Proof.
  apply (leaf_creation_parameters (mkLogWriter None None false) ex_h5_leaf "spam"
           true false false 0 ex_world ex_h5_dest {[ "fill_value" := PyInt 0 ]}).
  - reflexivity.
  - reflexivity.
  - reflexivity.
Defined.

(** C3 as stated fails for h5py to h5py: the caller supplied [fill_value]
    only, and the leaf is created with the source's [compression]. *)
Lemma h5py_to_h5py_as_stated_fails :
  ∃ ds,
    dg_lookup (snd (fst (_copy (mkLogWriter None None false) (SrcArray ex_h5_leaf)
                           (Some "spam") true false false 0 (ex_world, ex_h5_dest)))) "spam"
      = Some (inl ds)
    ∧ w_dicts ex_world !! 0 = Some {[ "fill_value" := PyInt 0 ]}
    ∧ da_kws ds !! "compression" = Some (PyStr "lzf")
    ∧ ¬ passes_only_supplied {[ "fill_value" := PyInt 0 ]} (da_kws ds).
Proof.
  eexists. split; [vm_compute; reflexivity |].
  split; [reflexivity |]. split; [reflexivity |].
  intros Hclaim. specialize (Hclaim "compression").
  assert (Hin : "compression" ∈ ["compression"; "compression_opts"; "shuffle"; "compressor"])
    by (apply list_elem_of_here).
  specialize (Hclaim Hin). vm_compute in Hclaim. discriminate.
Qed.

(** ** The flat copier *)

Lemma any_search_true `{ReModule} (progs : list re_prog) (key : string) :
  any_search progs key = true ↔ ∃ p, p ∈ progs ∧ re_search p key = true.
Proof.
  induction progs as [| p progs IH]; simpl.
  - split; [discriminate | intros (p & Hp & _); inversion Hp].
  - destruct (re_search p key) eqn:Hp.
    + split; [intros _; exists p; split; [left | exact Hp] | reflexivity].
    + rewrite IH. split.
      * intros (q & Hq & Hs). exists q. split; [by right | exact Hs].
      * intros (q & Hq & Hs). apply elem_of_cons in Hq as [-> | Hq]; [congruence |].
        exists q. auto.
Qed.

Lemma dest_key_of_Some `{ReModule} sp dp exs incs K d :
  dest_key_of sp dp exs incs K = Some d ↔
  PyStr.startswith K sp = true ∧ exclude_key exs incs K = false
  ∧ d = dp +:+ PyStr.slice_from (String.length sp) K.
Proof.
  unfold dest_key_of.
  destruct (PyStr.startswith K sp); [| split; [discriminate | intros (? & _); discriminate]].
  destruct (exclude_key exs incs K).
  - split; [discriminate | intros (_ & ? & _); discriminate].
  - split; [intros [= <-]; auto | intros (_ & _ & ->); reflexivity].
Qed.

Lemma dest_key_of_inj `{ReModule} sp dp exs incs K1 K2 d :
  dest_key_of sp dp exs incs K1 = Some d → dest_key_of sp dp exs incs K2 = Some d → K1 = K2.
Proof.
  intros (Hp1 & _ & Hd1)%dest_key_of_Some (Hp2 & _ & Hd2)%dest_key_of_Some.
  rewrite (startswith_app _ _ Hp1), (startswith_app _ _ Hp2). f_equal.
  rewrite Hd1 in Hd2. by apply (inj (String.app dp)) in Hd2.
Qed.

Lemma _LogWriter_call_stores {D} lw msg (s : World * D) :
  w_stores (fst (fst (_LogWriter_call lw msg s))) = w_stores (fst s).
Proof.
  destruct s as [w d]. unfold _LogWriter_call, io_write, io_flush, call_user.
  destruct lw as [f [[fd hf] |] nc]; simpl.
  - destruct hf; reflexivity.
  - destruct f as [f |]; [| reflexivity].
    rewrite !run_bind_unfold. simpl. destruct (f _ _); reflexivity.
Qed.

Lemma copy_keys_effect `{ReModule} lw source dest sp dp exs incs
    (S : gmap string (list Byte.byte)) (keys : list string) :
  source ≠ dest → NoDup keys →
  ∀ (w w' : World) (Dm : gmap string (list Byte.byte)),
    w_stores w !! source = Some S → w_stores w !! dest = Some Dm →
    copy_keys lw source dest sp dp exs incs keys (w, tt) = ((w', tt), Return tt) →
    w_stores w' !! source = Some S
    ∧ ∃ D', w_stores w' !! dest = Some D'
        ∧ (∀ K d, K ∈ keys → dest_key_of sp dp exs incs K = Some d →
                  is_Some (S !! K) ∧ D' !! d = S !! K)
        ∧ (∀ d, (∀ K, K ∈ keys → dest_key_of sp dp exs incs K ≠ Some d) → D' !! d = Dm !! d).
Proof.
  intros Hne Hnodup. induction Hnodup as [| K0 keys Hnotin Hnodup IH]; intros w w' Dm HS HD.
  - intros [= <-]. split; [exact HS |]. exists Dm. split; [exact HD |].
    split; [intros K d HK; inversion HK | reflexivity].
  - cbn [copy_keys]. destruct (dest_key_of sp dp exs incs K0) as [d0 |] eqn:Hd0.
    + rewrite run_bind_unfold.
      pose proof (_LogWriter_call_stores lw (PyStr.arrow K0 d0) (w, tt)) as Hst.
      destruct (_LogWriter_call lw (PyStr.arrow K0 d0) (w, tt)) as [[w1 []] [[] | e]];
        [| discriminate].
      simpl in Hst. rewrite run_bind_unfold. unfold store_get.
      rewrite run_bind_unfold. cbn [get_world fst snd]. rewrite Hst, HS.
      destruct (S !! K0) as [v0 |] eqn:Hv0; [| discriminate].
      cbn [mret run_mret run_ret]. rewrite run_bind_unfold. unfold store_set.
      rewrite run_bind_unfold. cbn [get_world fst snd]. rewrite Hst, HD.
      cbn [modify_world fst snd]. intros Hrest.
      apply (IH _ _ (<[d0 := v0]> Dm)) in Hrest as (HS' & D' & HD' & Hcopied & Hother).
      * split; [exact HS' |]. exists D'. split; [exact HD' |]. split.
        -- intros K d [-> | HK]%elem_of_cons HKd.
           ++ rewrite Hd0 in HKd. injection HKd as <-. rewrite Hv0. split; [eauto |].
              rewrite Hother; [apply lookup_insert_eq |].
              intros K HK HKd. apply Hnotin.
              by rewrite (dest_key_of_inj _ _ _ _ _ _ _ Hd0 HKd).
           ++ by apply Hcopied.
        -- intros d Hd. rewrite Hother.
           ++ apply lookup_insert_ne. intros <-. apply (Hd K0); [left | exact Hd0].
           ++ intros K HK. apply Hd. by right.
      * unfold set_stores; simpl. rewrite Hst. by rewrite lookup_insert_ne.
      * unfold set_stores; simpl. rewrite Hst. apply lookup_insert_eq.
    + intros Hrest. apply (IH _ _ Dm) in Hrest as (HS' & D' & HD' & Hcopied & Hother); auto.
      split; [exact HS' |]. exists D'. split; [exact HD' |]. split.
      * intros K d [-> | HK]%elem_of_cons HKd; [congruence | by apply Hcopied].
      * intros d Hd. apply Hother. intros K HK. apply Hd. by right.
Qed.

Lemma sorted_keys_elem (S : gmap string (list Byte.byte)) K : K ∈ sorted_keys S ↔ K ∈ dom S.
Proof. unfold sorted_keys. rewrite merge_sort_Permutation. apply elem_of_elements. Qed.

Lemma sorted_keys_NoDup (S : gmap string (list Byte.byte)) : NoDup (sorted_keys S).
Proof. unfold sorted_keys. rewrite merge_sort_Permutation. apply NoDup_elements. Qed.

Section CopyStoreFacts.
Context `{ReModule}.
Variable normalize_storage_path : string → outcome string.

Lemma copy_store_inv source dest sp dp excludes includes flags log (w w' : World) :
  copy_store normalize_storage_path source dest sp dp excludes includes flags log (w, tt)
    = ((w', tt), Return tt) →
  ∃ sp0 dp0 exs incs lw w1 w2 S,
    normalize_storage_path sp = Return sp0
    ∧ normalize_storage_path dp = Return dp0
    ∧ compile_all (patterns_list excludes) flags = Return exs
    ∧ compile_all (patterns_list includes) flags = Return incs
    ∧ _LogWriter_init log (w, tt) = ((w1, tt), Return lw)
    ∧ w_stores w1 !! source = Some S
    ∧ copy_keys lw source dest (with_sep sp0) (with_sep dp0) exs incs (sorted_keys S) (w1, tt)
        = ((w2, tt), Return tt)
    ∧ w' = _LogWriter_exit lw w2.
Proof.
  unfold copy_store, lift_outcome. rewrite !run_bind_unfold.
  destruct (normalize_storage_path sp) as [sp0 | e]; [| discriminate].
  rewrite !run_bind_unfold.
  destruct (normalize_storage_path dp) as [dp0 | e]; [| discriminate].
  rewrite !run_bind_unfold.
  destruct (compile_all (patterns_list excludes) flags) as [exs | e]; [| discriminate].
  rewrite !run_bind_unfold.
  destruct (compile_all (patterns_list includes) flags) as [incs | e]; [| discriminate].
  unfold with_LogWriter. rewrite run_bind_unfold.
  destruct (_LogWriter_init log (w, tt)) as [[w1 []] [lw | e]] eqn:Hinit; [| discriminate].
  unfold finally, store_keys. rewrite !run_bind_unfold. cbn [get_world fst snd].
  destruct (w_stores w1 !! source) as [S |] eqn:HS; [| discriminate].
  cbn [mret run_mret run_ret].
  destruct (copy_keys _ _ _ _ _ _ _ _ _) as [[w2 []] r] eqn:Hkeys.
  intros [= <- ->]. by eexists sp0, dp0, exs, incs, lw, w1, w2, S.
Qed.

Lemma copy_store_effect source dest sp dp excludes includes flags log (w w' : World)
    (S Dm : gmap string (list Byte.byte)) :
  w_stores w !! source = Some S → w_stores w !! dest = Some Dm → source ≠ dest →
  copy_store normalize_storage_path source dest sp dp excludes includes flags log (w, tt)
    = ((w', tt), Return tt) →
  ∃ sp0 dp0 exs incs D',
    normalize_storage_path sp = Return sp0
    ∧ normalize_storage_path dp = Return dp0
    ∧ compile_all (patterns_list excludes) flags = Return exs
    ∧ compile_all (patterns_list includes) flags = Return incs
    ∧ w_stores w' !! source = Some S
    ∧ w_stores w' !! dest = Some D'
    ∧ (∀ K d, K ∈ dom S → dest_key_of (with_sep sp0) (with_sep dp0) exs incs K = Some d →
              D' !! d = S !! K)
    ∧ (∀ d, (∀ K, K ∈ dom S → dest_key_of (with_sep sp0) (with_sep dp0) exs incs K ≠ Some d) →
            D' !! d = Dm !! d).
Proof.
  intros HS HD Hne Hrun.
  apply copy_store_inv in Hrun
    as (sp0 & dp0 & exs & incs & lw & w1 & w2 & S1 & Hsp & Hdp & Hex & Hinc & Hinit & HS1 & Hkeys & ->).
  apply _LogWriter_init_inv in Hinit as (_ & _ & Hst). simpl in Hst.
  rewrite Hst, HS in HS1. injection HS1 as <-.
  eapply (copy_keys_effect lw source dest _ _ exs incs S) in Hkeys
    as (HS2 & D' & HD2 & Hcopied & Hother);
    [| exact Hne | apply sorted_keys_NoDup | rewrite Hst; exact HS | rewrite Hst; exact HD].
  exists sp0, dp0, exs, incs, D'.
  rewrite (proj2 (_LogWriter_exit_inv lw w2)).
  repeat split; try assumption.
  - intros K d HK HKd. apply (Hcopied K d); [by apply sorted_keys_elem | exact HKd].
  - intros d Hd. apply Hother. intros K HK. apply Hd. by apply sorted_keys_elem.
Qed.

End CopyStoreFacts.

(** C4: in [copy_store]'s filter, includes override excludes.  A key that
    some exclude pattern and some include pattern both find is kept; a key
    is dropped exactly when some exclude pattern finds it and no include
    pattern does; with no patterns at all every key is kept.  A key under
    the source path is skipped by the loop exactly when the filter drops it. *)
Theorem include_overrides_exclude `{ReModule} (excludes includes : list re_prog)
    (key : string) :
  let excluded := ∃ e, e ∈ excludes ∧ re_search e key = true in
  let included := ∃ i, i ∈ includes ∧ re_search i key = true in
  (excluded ∧ included → exclude_key excludes includes key = false)
  ∧ (exclude_key excludes includes key = true ↔ excluded ∧ ¬ included)
  ∧ exclude_key [] [] key = false
  ∧ (∀ source_path dest_path,
        PyStr.startswith key source_path = true →
        (dest_key_of source_path dest_path excludes includes key = None
         ↔ exclude_key excludes includes key = true)).
Proof.
  cbv zeta.
  pose proof (any_search_true excludes key) as Hex.
  pose proof (any_search_true includes key) as Hinc.
  split; [| split; [| split]].
  - intros [_ Hi]. apply Hinc in Hi. unfold exclude_key. rewrite Hi.
    by destruct (any_search excludes key).
  - unfold exclude_key. split.
    + destruct (any_search excludes key); [| discriminate].
      destruct (any_search includes key); [discriminate |].
      intros _. split; [by apply Hex |]. intros Hi. apply Hinc in Hi. discriminate.
    + intros [He Hni]. apply Hex in He. rewrite He.
      destruct (any_search includes key) eqn:Hi; [| reflexivity].
      exfalso. apply Hni, Hinc. reflexivity.
  - reflexivity.
  - intros source_path dest_path Hpre. unfold dest_key_of. rewrite Hpre.
    destruct (exclude_key excludes includes key); split; congruence.
Qed.

Lemma separator_terminated_with_sep (path prefix : string) :
  separator_terminated path prefix ↔ prefix = with_sep path.
Proof.
  unfold separator_terminated, with_sep. destruct path as [| c path]; simpl.
  - split; [intros [[_ ->] | [? _]]; done | intros ->; by left].
  - split; [intros [[? _] | [_ ->]]; done | intros ->; by right].
Qed.

Lemma prefix_rebased (sp0 dp0 K d : string) :
  (PyStr.startswith K (with_sep sp0) = true
   ∧ d = with_sep dp0 +:+ PyStr.slice_from (String.length (with_sep sp0)) K)
  ↔ ∃ source_prefix dest_prefix suffix,
      separator_terminated sp0 source_prefix ∧ separator_terminated dp0 dest_prefix
      ∧ K = source_prefix +:+ suffix ∧ d = dest_prefix +:+ suffix.
Proof.
  split.
  - intros [Hpre ->].
    exists (with_sep sp0), (with_sep dp0), (PyStr.slice_from (String.length (with_sep sp0)) K).
    rewrite !separator_terminated_with_sep.
    repeat split; try reflexivity. by apply startswith_app.
  - intros (p & q & suffix & ->%separator_terminated_with_sep
            & ->%separator_terminated_with_sep & -> & ->).
    by rewrite startswith_of_app, slice_from_app.
Qed.

Lemma patterns_list_given (a : patterns_arg) (p : string) :
  p ∈ patterns_list a ↔ pattern_given a p.
Proof.
  destruct a as [| s | ps]; simpl.
  - apply elem_of_nil.
  - apply list_elem_of_singleton.
  - reflexivity.
Qed.

Lemma compile_all_search `{ReModule} (ps : list string) (flags : Z) (progs : list re_prog)
    (key : string) :
  compile_all ps flags = Return progs →
  (any_search progs key = true ↔ ∃ p, p ∈ ps ∧ found_in flags p key).
Proof.
  revert progs. induction ps as [| p0 ps IH]; intros progs; simpl.
  - intros [= <-]. split; [discriminate | intros (p & Hp & _); by apply elem_of_nil in Hp].
  - destruct (re_compile p0 flags) as [prog0 |] eqn:Hp0; [| discriminate].
    destruct (compile_all ps flags) as [progs' | e]; [| discriminate].
    intros [= <-]. specialize (IH progs' eq_refl). simpl.
    destruct (re_search prog0 key) eqn:Hs.
    + split; [| reflexivity]. intros _. exists p0. split; [left |]. by exists prog0.
    + rewrite IH. split.
      * intros (p & Hp & Hf). exists p. split; [by right | exact Hf].
      * intros (p & [-> | Hp]%elem_of_cons & Hf); [| eauto].
        destruct Hf as (prog & Hc & Hf). congruence.
Qed.

Lemma exclude_key_spec `{ReModule} (excludes includes : patterns_arg) (flags : Z)
    (exs incs : list re_prog) (key : string) :
  compile_all (patterns_list excludes) flags = Return exs →
  compile_all (patterns_list includes) flags = Return incs →
  (exclude_key exs incs key = false ↔ filter_keeps excludes includes flags key).
Proof.
  intros Hex Hinc. unfold filter_keeps, exclude_key.
  pose proof (compile_all_search _ flags exs key Hex) as He.
  pose proof (compile_all_search _ flags incs key Hinc) as Hi.
  setoid_rewrite patterns_list_given in He. setoid_rewrite patterns_list_given in Hi.
  rewrite <- He, <- Hi.
  destruct (any_search exs key), (any_search incs key); split; try done.
  - intros _ [_ Hn]. by apply Hn.
  - intros Hk. exfalso. apply Hk. split; [reflexivity | discriminate].
  - intros _ [? _]. discriminate.
  - intros _ [? _]. discriminate.
Qed.

Lemma dest_key_of_spec `{ReModule} (sp0 dp0 : string) (excludes includes : patterns_arg)
    (flags : Z) (exs incs : list re_prog) (K d : string) :
  compile_all (patterns_list excludes) flags = Return exs →
  compile_all (patterns_list includes) flags = Return incs →
  (dest_key_of (with_sep sp0) (with_sep dp0) exs incs K = Some d
   ↔ copied_to sp0 dp0 excludes includes flags K d).
Proof.
  intros Hex Hinc. rewrite dest_key_of_Some. unfold copied_to.
  rewrite (exclude_key_spec excludes includes flags exs incs K Hex Hinc).
  pose proof (prefix_rebased sp0 dp0 K d) as Hp. split.
  - intros (Hpre & Hkeep & Hd).
    destruct (proj1 Hp (conj Hpre Hd)) as (p & q & suffix & Hsp & Hdp & HK & HD).
    exists p, q, suffix. auto.
  - intros (p & q & suffix & Hsp & Hdp & HK & HD & Hkeep).
    destruct (proj2 Hp) as [Hpre Hd]; [by exists p, q, suffix | auto].
Qed.

(** What a pass over [keys] writes, whether or not source and destination
    are the same store. *)
Lemma copy_keys_writes `{ReModule} lw source dest sp dp exs incs (keys : list string) :
  ∀ (w w' : World) (Dm : gmap string (list Byte.byte)),
    w_stores w !! dest = Some Dm →
    copy_keys lw source dest sp dp exs incs keys (w, tt) = ((w', tt), Return tt) →
    (∀ i, i ≠ dest → w_stores w' !! i = w_stores w !! i)
    ∧ ∃ D', w_stores w' !! dest = Some D'
        ∧ (∀ d, (∀ K, K ∈ keys → dest_key_of sp dp exs incs K ≠ Some d) → D' !! d = Dm !! d)
        ∧ (∀ K d, K ∈ keys → dest_key_of sp dp exs incs K = Some d → is_Some (D' !! d)).
Proof.
  induction keys as [| K0 keys IH]; intros w w' Dm HD.
  - intros [= <-]. split; [reflexivity |]. exists Dm. split; [exact HD |].
    split; [reflexivity | intros K d HK; inversion HK].
  - cbn [copy_keys]. destruct (dest_key_of sp dp exs incs K0) as [d0 |] eqn:Hd0.
    + rewrite run_bind_unfold.
      pose proof (_LogWriter_call_stores lw (PyStr.arrow K0 d0) (w, tt)) as Hst.
      destruct (_LogWriter_call lw (PyStr.arrow K0 d0) (w, tt)) as [[w1 []] [[] | e]];
        [| discriminate].
      simpl in Hst. rewrite run_bind_unfold. unfold store_get.
      rewrite run_bind_unfold. cbn [get_world fst snd].
      destruct (w_stores w1 !! source) as [S1 |]; [| discriminate].
      destruct (S1 !! K0) as [v0 |]; [| discriminate].
      cbn [mret run_mret run_ret]. rewrite run_bind_unfold. unfold store_set.
      rewrite run_bind_unfold. cbn [get_world fst snd]. rewrite Hst, HD.
      cbn [modify_world fst snd]. intros Hrest.
      apply (IH _ _ (<[d0 := v0]> Dm)) in Hrest as (Hids & D' & HD' & Hother & Hsome).
      2:{ unfold set_stores; simpl. apply lookup_insert_eq. }
      split.
      { intros i Hi. rewrite (Hids i Hi). unfold set_stores; simpl.
        rewrite lookup_insert_ne by done. by rewrite Hst. }
      exists D'. split; [exact HD' |]. split.
      * intros d Hd. rewrite Hother.
        -- apply lookup_insert_ne. intros <-. apply (Hd K0); [left | exact Hd0].
        -- intros K HK. apply Hd. by right.
      * intros K d [-> | HK]%elem_of_cons HKd; [| by apply (Hsome K)].
        rewrite Hd0 in HKd. injection HKd as <-.
        destruct (decide (Exists (λ K, dest_key_of sp dp exs incs K = Some d0) keys))
          as [Hex | Hnone].
        -- apply Exists_exists in Hex as (K & HK & HKd). by apply (Hsome K).
        -- rewrite Hother; [rewrite lookup_insert_eq; eauto |].
           intros K HK HKd. apply Hnone, Exists_exists. eauto.
    + intros Hrest. apply (IH _ _ Dm HD) in Hrest as (Hids & D' & HD' & Hother & Hsome).
      split; [exact Hids |]. exists D'. split; [exact HD' |]. split.
      * intros d Hd. apply Hother. intros K HK. apply Hd. by right.
      * intros K d [-> | HK]%elem_of_cons HKd; [congruence | by apply (Hsome K)].
Qed.

Lemma copy_keys_app `{ReModule} {D} lw source dest sp dp exs incs (l1 l2 : list string)
    (s : World * D) :
  copy_keys lw source dest sp dp exs incs (l1 ++ l2) s =
  match copy_keys lw source dest sp dp exs incs l1 s with
  | (s1, Return _) => copy_keys lw source dest sp dp exs incs l2 s1
  | (s1, Raise e) => (s1, Raise e)
  end.
Proof.
  revert s. induction l1 as [| K l1 IH]; intros s; [reflexivity |].
  cbn [app copy_keys]. destruct (dest_key_of sp dp exs incs K) as [d |]; [| apply IH].
  rewrite !run_bind_unfold.
  destruct (_LogWriter_call lw (PyStr.arrow K d) s) as [s1 [[] | e]]; [| reflexivity].
  rewrite !run_bind_unfold.
  destruct (store_get source K s1) as [s2 [v | e]]; [| reflexivity].
  rewrite !run_bind_unfold.
  destruct (store_set dest d v s2) as [s3 [[] | e]]; [apply IH | reflexivity].
Qed.

(** The value a copied key leaves at its destination key: the one the
    source held under the key before the pass, unless an earlier key of the
    pass was written onto it in the same store. *)
Lemma copy_keys_value `{ReModule} lw source dest sp dp exs incs
    (pre post : list string) (K d : string) :
  NoDup (pre ++ K :: post) →
  dest_key_of sp dp exs incs K = Some d →
  ∀ (w w' : World) (S Dm : gmap string (list Byte.byte)),
    w_stores w !! source = Some S →
    w_stores w !! dest = Some Dm →
    source ≠ dest ∨ (∀ K', K' ∈ pre → dest_key_of sp dp exs incs K' ≠ Some K) →
    copy_keys lw source dest sp dp exs incs (pre ++ K :: post) (w, tt)
      = ((w', tt), Return tt) →
    ∃ D' v, w_stores w' !! dest = Some D' ∧ S !! K = Some v ∧ D' !! d = Some v.
Proof.
  intros Hnodup HKd w w' S Dm HS HD Hcond. rewrite copy_keys_app.
  destruct (copy_keys lw source dest sp dp exs incs pre (w, tt)) as [[w1 []] [[] | e]] eqn:Hpre;
    [| discriminate].
  destruct (copy_keys_writes _ _ _ _ _ _ _ _ _ _ _ HD Hpre) as (Hids & D1 & HD1 & Hother1 & _).
  assert (HS1 : ∃ S1, w_stores w1 !! source = Some S1 ∧ S1 !! K = S !! K).
  { destruct (decide (source = dest)) as [-> | Hne].
    - exists D1. split; [exact HD1 |]. rewrite HS in HD. injection HD as <-.
      apply Hother1. destruct Hcond as [? | Hcond]; [done | exact Hcond].
    - exists S. split; [| reflexivity]. by rewrite (Hids source Hne). }
  destruct HS1 as (S1 & HS1 & HS1K).
  cbn [copy_keys]. rewrite HKd, run_bind_unfold.
  pose proof (_LogWriter_call_stores lw (PyStr.arrow K d) (w1, tt)) as Hst.
  destruct (_LogWriter_call lw (PyStr.arrow K d) (w1, tt)) as [[w2 []] [[] | e]];
    [| discriminate].
  simpl in Hst. rewrite run_bind_unfold. unfold store_get.
  rewrite run_bind_unfold. cbn [get_world fst snd]. rewrite Hst, HS1, HS1K.
  destruct (S !! K) as [v |]; [| discriminate].
  cbn [mret run_mret run_ret]. rewrite run_bind_unfold. unfold store_set.
  rewrite run_bind_unfold. cbn [get_world fst snd]. rewrite Hst, HD1.
  cbn [modify_world fst snd]. intros Hpost.
  apply (copy_keys_writes _ _ _ _ _ _ _ _ _ _ (<[d := v]> D1)) in Hpost
    as (_ & D' & HD' & Hother & _).
  2:{ unfold set_stores; simpl. apply lookup_insert_eq. }
  exists D', v. split; [exact HD' |]. split; [reflexivity |].
  rewrite Hother; [apply lookup_insert_eq |].
  intros K' HK' HK'd. pose proof (dest_key_of_inj _ _ _ _ _ _ _ HKd HK'd) as <-.
  apply NoDup_app in Hnodup as (_ & _ & Hnd). apply NoDup_cons in Hnd as [Hnotin _]. done.
Qed.

Section CopyStoreAnyStores.
Context `{ReModule}.
Variable normalize_storage_path : string → outcome string.

(** What a returning [copy_store] has written, whether or not source and
    destination are the same store. *)
Lemma copy_store_writes source dest sp dp excludes includes flags log (w w' : World)
    (S Dm : gmap string (list Byte.byte)) :
  w_stores w !! source = Some S → w_stores w !! dest = Some Dm →
  copy_store normalize_storage_path source dest sp dp excludes includes flags log (w, tt)
    = ((w', tt), Return tt) →
  ∃ sp0 dp0 exs incs D',
    normalize_storage_path sp = Return sp0
    ∧ normalize_storage_path dp = Return dp0
    ∧ compile_all (patterns_list excludes) flags = Return exs
    ∧ compile_all (patterns_list includes) flags = Return incs
    ∧ w_stores w' !! dest = Some D'
    ∧ (source ≠ dest → w_stores w' !! source = Some S)
    ∧ (∀ K d, K ∈ dom S → copied_to sp0 dp0 excludes includes flags K d → d ∈ dom D')
    ∧ (∀ d, (∀ K, K ∈ dom S → ¬ copied_to sp0 dp0 excludes includes flags K d) →
            D' !! d = Dm !! d)
    ∧ (∀ K d v, S !! K = Some v → copied_to sp0 dp0 excludes includes flags K d →
         source ≠ dest
         ∨ (∀ K', K' ∈ dom S → K' ≠ K → ¬ copied_to sp0 dp0 excludes includes flags K' K) →
         D' !! d = Some v).
Proof.
  intros HS HD Hrun.
  apply copy_store_inv in Hrun
    as (sp0 & dp0 & exs & incs & lw & w1 & w2 & S1 & Hsp & Hdp & Hex & Hinc & Hinit & HS1
        & Hkeys & ->).
  apply _LogWriter_init_inv in Hinit as (_ & _ & Hst). simpl in Hst.
  rewrite Hst, HS in HS1. injection HS1 as <-.
  rewrite <- Hst in HS, HD.
  pose proof (λ K d, dest_key_of_spec sp0 dp0 excludes includes flags exs incs K d Hex Hinc)
    as Hspec.
  destruct (copy_keys_writes _ _ _ _ _ _ _ _ _ _ _ HD Hkeys) as (Hids & D' & HD' & Hother & Hsome).
  exists sp0, dp0, exs, incs, D'.
  rewrite (proj2 (_LogWriter_exit_inv lw w2)).
  repeat (split; [assumption |]). split; [| split; [| split]].
  - intros Hne. by rewrite (Hids source Hne).
  - intros K d HK HKd. apply elem_of_dom. apply (Hsome K d).
    + by apply sorted_keys_elem.
    + by apply Hspec.
  - intros d Hd. apply Hother. intros K HK HKd. apply (Hd K).
    + by apply sorted_keys_elem.
    + by apply Hspec.
  - intros K d v HK HKd Hcond.
    assert (HKin : K ∈ sorted_keys S). { apply sorted_keys_elem, elem_of_dom. eauto. }
    apply list_elem_of_split in HKin as (pre & post & Hsplit).
    pose proof (sorted_keys_NoDup S) as Hnodup. rewrite Hsplit in Hnodup, Hkeys.
    destruct (copy_keys_value lw source dest _ _ exs incs pre post K d Hnodup
                (proj2 (Hspec K d) HKd) w1 w2 S Dm HS HD) as (D2 & v2 & HD2 & Hv2 & HD2d).
    + destruct Hcond as [Hne | Hcond]; [by left | right].
      intros K' HK' HK'd. apply (Hcond K').
      * apply sorted_keys_elem. rewrite Hsplit. apply elem_of_app. by left.
      * intros ->. apply NoDup_app in Hnodup as (_ & Hdisj & _).
        apply (Hdisj K HK'). left.
      * by apply Hspec.
    + exact Hkeys.
    + rewrite HD' in HD2. injection HD2 as <-. congruence.
Qed.

End CopyStoreAnyStores.

(** C1: which keys [copy_store] copies, and where to.  For a call that
    returns, whether or not source and destination are the same store: a
    source key is copied exactly when it starts with the prefix of the
    normalised source path (the path ended by one separator when it is not
    empty) and the filter built from the caller's patterns keeps it, and its
    destination key is the destination prefix followed by the key without
    the source prefix.  Every key so copied is in the destination under its
    destination key; a destination key that no copied key maps to holds what
    it held before; the loop computes a destination key for a key exactly
    when the key is to be copied; and the destination key is
    [dest_prefix + key[len(source_prefix):]]. *)
Theorem copy_store_copies_kept_keys `{ReModule}
    (normalize_storage_path : string → outcome string) (source dest : nat)
    (source_path dest_path : string) (excludes includes : patterns_arg) (flags : Z)
    (log : log_arg) (w w' : World) (S Dm : gmap string (list Byte.byte)) :
  w_stores w !! source = Some S →
  w_stores w !! dest = Some Dm →
  copy_store normalize_storage_path source dest source_path dest_path excludes includes
    flags log (w, tt) = ((w', tt), Return tt) →
  ∃ sp0 dp0 exs incs D',
    normalize_storage_path source_path = Return sp0
    ∧ normalize_storage_path dest_path = Return dp0
    ∧ compile_all (patterns_list excludes) flags = Return exs
    ∧ compile_all (patterns_list includes) flags = Return incs
    ∧ w_stores w' !! dest = Some D'
    ∧ (∀ K d, K ∈ dom S → copied_to sp0 dp0 excludes includes flags K d → d ∈ dom D')
    ∧ (∀ d, (∀ K, K ∈ dom S → ¬ copied_to sp0 dp0 excludes includes flags K d) →
            D' !! d = Dm !! d)
    ∧ (∀ K d, dest_key_of (with_sep sp0) (with_sep dp0) exs incs K = Some d
              ↔ copied_to sp0 dp0 excludes includes flags K d)
    ∧ (∀ K d source_prefix dest_prefix,
         separator_terminated sp0 source_prefix →
         separator_terminated dp0 dest_prefix →
         copied_to sp0 dp0 excludes includes flags K d →
         PyStr.startswith K source_prefix = true
         ∧ d = dest_prefix +:+ PyStr.slice_from (String.length source_prefix) K).
Proof.
  intros HS HD Hrun.
  destruct (copy_store_writes _ _ _ _ _ _ _ _ _ _ _ _ _ HS HD Hrun)
    as (sp0 & dp0 & exs & incs & D' & Hsp & Hdp & Hex & Hinc & HD' & _ & Hcopied & Hother & _).
  exists sp0, dp0, exs, incs, D'. repeat (split; [assumption |]). split.
  - intros K d. by apply dest_key_of_spec.
  - intros K d p q ->%separator_terminated_with_sep ->%separator_terminated_with_sep HKd.
    apply (dest_key_of_spec sp0 dp0 excludes includes flags exs incs K d Hex Hinc) in HKd.
    apply dest_key_of_Some in HKd as (Hpre & _ & Hd). auto.
Qed.


(** A log writer without a callable cannot raise. *)
Lemma _LogWriter_call_returns {D} lw msg (s : World * D) :
  log_func lw = None → snd (_LogWriter_call lw msg s) = Return tt.
Proof.
  destruct s as [w d]. unfold _LogWriter_call, io_write, io_flush.
  destruct lw as [f [[fd hf] |] nc]; simpl; intros ->; [| reflexivity].
  destruct hf; reflexivity.
Qed.

Lemma copy_keys_returns `{ReModule} lw source dest sp dp exs incs
    (S : gmap string (list Byte.byte)) (keys : list string) :
  source ≠ dest → log_func lw = None → (∀ K, K ∈ keys → is_Some (S !! K)) →
  ∀ (w : World) (Dm : gmap string (list Byte.byte)),
    w_stores w !! source = Some S → w_stores w !! dest = Some Dm →
    ∃ w', copy_keys lw source dest sp dp exs incs keys (w, tt) = ((w', tt), Return tt).
Proof.
  intros Hne Hlog. induction keys as [| K0 keys IH]; intros Hkeys w Dm HS HD.
  - by exists w.
  - cbn [copy_keys]. destruct (dest_key_of sp dp exs incs K0) as [d0 |].
    + rewrite run_bind_unfold.
      pose proof (_LogWriter_call_stores lw (PyStr.arrow K0 d0) (w, tt)) as Hst.
      pose proof (_LogWriter_call_returns lw (PyStr.arrow K0 d0) (w, tt) Hlog) as Hret.
      destruct (_LogWriter_call lw (PyStr.arrow K0 d0) (w, tt)) as [[w1 []] r].
      simpl in Hst, Hret. subst r. rewrite run_bind_unfold. unfold store_get.
      rewrite run_bind_unfold. cbn [get_world fst snd]. rewrite Hst, HS.
      destruct (Hkeys K0) as [v0 Hv0]; [left |]. rewrite Hv0.
      cbn [mret run_mret run_ret]. rewrite run_bind_unfold. unfold store_set.
      rewrite run_bind_unfold. cbn [get_world fst snd]. rewrite Hst, HD.
      cbn [modify_world fst snd].
      apply (IH (λ K HK, Hkeys K (list_elem_of_further _ _ _ HK)) _ (<[d0 := v0]> Dm)).
      * unfold set_stores; simpl. rewrite Hst. by rewrite lookup_insert_ne.
      * unfold set_stores; simpl. rewrite Hst. apply lookup_insert_eq.
    + apply (IH (λ K HK, Hkeys K (list_elem_of_further _ _ _ HK)) _ Dm); assumption.
Qed.

Lemma _LogWriter_init_no_callable {D} log (s s1 : World * D) lw :
  (∀ f, log ≠ LogCallable f) → _LogWriter_init log s = (s1, Return lw) → log_func lw = None.
Proof.
  destruct s as [w d]. destruct log as [| f | path | fd hw hf]; simpl; intros Hf.
  - by intros [= <- <-].
  - by destruct (Hf f).
  - unfold io_open. rewrite !run_bind_unfold. simpl.
    destruct (decide (path ∈ w_readonly w)); [discriminate |]. by intros [= <- <-].
  - destruct hw; [by intros [= <- <-] | discriminate].
Qed.

(** [copy_store] returns when its collaborators do: the paths normalise,
    the patterns compile, the stores are two different stores, and the log
    target can be set up and is no callable. *)
Lemma copy_store_returns `{ReModule} (normalize_storage_path : string → outcome string)
    source dest sp dp excludes includes flags log (w : World) s1 lw sp0 dp0 exs incs
    (S Dm : gmap string (list Byte.byte)) :
  normalize_storage_path sp = Return sp0 →
  normalize_storage_path dp = Return dp0 →
  compile_all (patterns_list excludes) flags = Return exs →
  compile_all (patterns_list includes) flags = Return incs →
  w_stores w !! source = Some S → w_stores w !! dest = Some Dm → source ≠ dest →
  (∀ f, log ≠ LogCallable f) →
  _LogWriter_init log (w, tt) = (s1, Return lw) →
  ∃ w', copy_store normalize_storage_path source dest sp dp excludes includes flags log (w, tt)
        = ((w', tt), Return tt).
Proof.
  intros Hsp Hdp Hex Hinc HS HD Hne Hlog Hinit.
  unfold copy_store, lift_outcome. rewrite !run_bind_unfold, Hsp.
  rewrite !run_bind_unfold, Hdp. rewrite !run_bind_unfold, Hex.
  rewrite !run_bind_unfold, Hinc. unfold with_LogWriter. rewrite run_bind_unfold, Hinit.
  destruct s1 as [w1 []].
  pose proof (_LogWriter_init_no_callable _ _ _ _ Hlog Hinit) as Hnf.
  apply _LogWriter_init_inv in Hinit as (_ & _ & Hst). simpl in Hst.
  unfold finally, store_keys. rewrite !run_bind_unfold. cbn [get_world fst snd].
  rewrite Hst, HS. cbn [mret run_mret run_ret].
  destruct (copy_keys_returns lw source dest (with_sep sp0) (with_sep dp0) exs incs S
              (sorted_keys S) Hne Hnf) with (w := w1) (Dm := Dm) as [w2 Hw2].
  - intros K HK%sorted_keys_elem. by apply elem_of_dom.
  - by rewrite Hst.
  - by rewrite Hst.
  - rewrite Hw2. eauto.
Qed.

(** *** The scenarios of the specification *)

Example copy_store_prefix_scenario :
  snd ex_flat_copy = Return tt
  ∧ w_stores (fst (fst ex_flat_copy)) !! 2
    = Some {[ "x/a/.meta" := [Byte.x4d]; "x/a/0" := [Byte.x44; Byte.x30];
              "x/b/.meta" := [Byte.x4d; Byte.x32] ]}.
Proof. split; vm_compute; reflexivity. Qed.

Example copy_store_exclude_scenario :
  let res := @copy_store literal_re strip_separators 1 2 "" "" (PatStr "meta") PatNone 0
               (LogCallable (λ _ _, None)) (ex_flat_world, tt) in
  snd res = Return tt
  ∧ w_stores (fst (fst res)) !! 2 = Some {[ "a/0" := [Byte.x44; Byte.x30] ]}
  ∧ w_events (fst (fst res)) = [EvCall "a/0 -> a/0"].
Proof. repeat split; vm_compute; reflexivity. Qed.

Example copy_store_include_scenario :
  let res := @copy_store literal_re strip_separators 1 2 "/a/" "" (PatStr "meta")
               (PatSeq ["a/"]) 0 (LogCallable (λ _ _, None)) (ex_flat_world, tt) in
  snd res = Return tt
  ∧ w_stores (fst (fst res)) !! 2
    = Some {[ ".meta" := [Byte.x4d]; "0" := [Byte.x44; Byte.x30] ]}
  ∧ w_events (fst (fst res)) = [EvCall "a/.meta -> .meta"; EvCall "a/0 -> 0"].
Proof. repeat split; vm_compute; reflexivity. Qed.

Lemma copy_store_copies_kept_keys_example :
  ∃ sp0 dp0 exs incs D',
    strip_separators "/a/" = Return sp0
    ∧ strip_separators "x" = Return dp0
    ∧ @compile_all literal_re (patterns_list (PatStr "meta")) 0 = Return exs
    ∧ @compile_all literal_re (patterns_list PatNone) 0 = Return incs
    ∧ w_stores (fst (fst ex_prefixed_copy)) !! 2 = Some D'
    ∧ (∀ K d, K ∈ dom ex_prefixed →
              @copied_to literal_re sp0 dp0 (PatStr "meta") PatNone 0 K d → d ∈ dom D')
    ∧ (∀ d, (∀ K, K ∈ dom ex_prefixed →
                  ¬ @copied_to literal_re sp0 dp0 (PatStr "meta") PatNone 0 K d) →
            D' !! d = (∅ : gmap string (list Byte.byte)) !! d)
    ∧ (∀ K d, @dest_key_of literal_re (with_sep sp0) (with_sep dp0) exs incs K = Some d
              ↔ @copied_to literal_re sp0 dp0 (PatStr "meta") PatNone 0 K d)
    ∧ (∀ K d source_prefix dest_prefix,
         separator_terminated sp0 source_prefix →
         separator_terminated dp0 dest_prefix →
         @copied_to literal_re sp0 dp0 (PatStr "meta") PatNone 0 K d →
         PyStr.startswith K source_prefix = true
         ∧ d = dest_prefix +:+ PyStr.slice_from (String.length source_prefix) K).
Proof.
  apply (@copy_store_copies_kept_keys literal_re strip_separators 1 2 "/a/" "x"
           (PatStr "meta") PatNone 0 LogNone ex_prefixed_world (fst (fst ex_prefixed_copy))
           ex_prefixed ∅).
  - reflexivity.
  - reflexivity.
  - vm_compute. reflexivity.
Defined.

(** Of the four keys only [a/0] is copied: [a/.meta] is filtered out,
    [ab/0] and [b/.meta] are not under [a/]. *)
Example copy_store_prefixed_result :
  w_stores (fst (fst ex_prefixed_copy)) !! 2 = Some {[ "x/0" := [Byte.x44; Byte.x30] ]}
  ∧ @copied_to literal_re "a" "x" (PatStr "meta") PatNone 0 "a/0" "x/0"
  ∧ (∀ d, ¬ @copied_to literal_re "a" "x" (PatStr "meta") PatNone 0 "a/.meta" d)
  ∧ (∀ d, ¬ @copied_to literal_re "a" "x" (PatStr "meta") PatNone 0 "ab/0" d).
Proof.
  split; [vm_compute; reflexivity |].
  pose proof (λ K d, @dest_key_of_spec literal_re "a" "x" (PatStr "meta") PatNone 0
                       ["meta"] [] K d eq_refl eq_refl) as Hspec.
  split; [| split].
  - apply Hspec. reflexivity.
  - intros d Hd. apply Hspec in Hd. discriminate.
  - intros d Hd. apply Hspec in Hd. discriminate.
Qed.



(** ** The lazy loader *)

Lemma reads_of_app item (l1 l2 : list access) :
  reads_of item (l1 ++ l2) = reads_of item l1 + reads_of item l2.
Proof. unfold reads_of. by rewrite filter_app, length_app. Qed.

Lemma reads_of_getitem item item0 : reads_of item [AGetItem item0] = 0.
Proof. reflexivity. Qed.

Lemma reads_of_fetch item item0 :
  reads_of item [AGetItem item0; ARead item0] = if decide (item0 = item) then 1 else 0.
Proof.
  unfold reads_of. rewrite filter_cons, decide_False by discriminate.
  rewrite filter_cons. destruct (decide (item0 = item)) as [-> | Hne].
  - by rewrite decide_True.
  - rewrite decide_False; [reflexivity | congruence].
Qed.

Lemma cache_counts_reads_step o v :
  cache_counts_reads v → cache_counts_reads (fst (ll_step o v)).
Proof.
  intros Hv item. specialize (Hv item).
  destruct o as [item0 | | | item0 | | item0 x | item0]; simpl;
    try (rewrite reads_of_app, Hv; apply Nat.add_0_r); try exact Hv.
  unfold LazyLoader_getitem.
  destruct (ll_cache v !! item0) as [arr |] eqn:Hc; simpl; [exact Hv |].
  destruct (ll_grp v !! item0) as [[arr |] |]; simpl.
  - rewrite reads_of_app, reads_of_fetch, Hv.
    destruct (decide (item0 = item)) as [-> | Hne].
    + by rewrite Hc, lookup_insert_eq.
    + rewrite lookup_insert_ne by exact Hne. apply Nat.add_0_r.
  - rewrite reads_of_app, Hv. apply Nat.add_0_r.
  - rewrite reads_of_app, Hv. apply Nat.add_0_r.
Qed.

Lemma cache_counts_reads_run ops : ∀ v, cache_counts_reads v → cache_counts_reads (ll_run ops v).
Proof.
  induction ops as [| o ops IH]; intros v Hv; simpl; [exact Hv |].
  apply IH, cache_counts_reads_step, Hv.
Qed.

Lemma cache_kept_step o v item arr :
  ll_cache v !! item = Some arr → ll_cache (fst (ll_step o v)) !! item = Some arr.
Proof.
  intros Hc. destruct o as [item0 | | | item0 | | item0 x | item0]; simpl; try exact Hc.
  unfold LazyLoader_getitem.
  destruct (ll_cache v !! item0) as [arr0 |] eqn:Hc0; simpl; [exact Hc |].
  destruct (ll_grp v !! item0) as [[arr0 |] |]; simpl; try exact Hc.
  rewrite lookup_insert_ne; [exact Hc | congruence].
Qed.

Lemma cache_kept_run ops : ∀ v item arr,
  ll_cache v !! item = Some arr → ll_cache (ll_run ops v) !! item = Some arr.
Proof.
  induction ops as [| o ops IH]; intros v item arr Hc; simpl; [exact Hc |].
  by apply IH, cache_kept_step.
Qed.

(** C8: whatever has happened to a view since it was made (its own calls,
    and changes others made to the wrapped group): the data of each item was
    read from the group at most once; an item is in the cache exactly when
    it was read; a [get] that returns leaves the item cached; a cached item
    is served from the cache, with no call on the group, now and after any
    further operations; and length, iteration and membership are computed
    from the group as it is now, whatever the cache holds. *)
Theorem lazy_loader_reads_once (grp : gmap string gitem) (ops : list ll_op) :
  let v := ll_run ops (LazyLoader_init grp) in
  (∀ item, reads_of item (ll_log v) ≤ 1)
  ∧ (∀ item, is_Some (ll_cache v !! item) ↔ reads_of item (ll_log v) = 1)
  ∧ (∀ item arr v', LazyLoader_getitem item v = (v', Return arr) →
                    ll_cache v' !! item = Some arr)
  ∧ (∀ item arr, ll_cache v !! item = Some arr →
       ∀ ops', let v' := ll_run ops' v in LazyLoader_getitem item v' = (v', Return arr))
  ∧ (∀ cache,
       let v' := mkLazyLoader (ll_grp v) cache (ll_log v) in
       snd (LazyLoader_len v') = size (ll_grp v)
       ∧ snd (LazyLoader_iter v') = elements (dom (ll_grp v))
       ∧ (∀ item, snd (LazyLoader_contains item v') = bool_decide (item ∈ dom (ll_grp v)))
       ∧ ll_cache (fst (LazyLoader_len v')) = cache
       ∧ ll_cache (fst (LazyLoader_iter v')) = cache
       ∧ (∀ item, ll_cache (fst (LazyLoader_contains item v')) = cache)).
Proof.
  intros v.
  assert (Hinv : cache_counts_reads v).
  { apply cache_counts_reads_run. intros item. unfold LazyLoader_init; simpl.
    by rewrite lookup_empty. }
  split; [| split; [| split; [| split]]].
  - intros item. rewrite (Hinv item). destruct (ll_cache v !! item); lia.
  - intros item. rewrite (Hinv item). destruct (ll_cache v !! item); split.
    + reflexivity.
    + eauto.
    + intros [? [=]].
    + discriminate.
  - intros item arr v'. unfold LazyLoader_getitem.
    destruct (ll_cache v !! item) as [arr0 |] eqn:Hc.
    + by intros [= <- <-].
    + destruct (ll_grp v !! item) as [[arr0 |] |]; [| discriminate | discriminate].
      intros [= <- <-]. simpl. apply lookup_insert_eq.
  - intros item arr Hc ops' v'. unfold LazyLoader_getitem.
    subst v'. by rewrite (cache_kept_run ops' v item arr Hc).
  - intros cache v'. repeat split.
Qed.

(** The item [a] is read once, then dropped from the group by someone
    else: membership and length follow the group, [get] still serves the
    cached data, and the group is not asked again. *)
Example lazy_loader_frozen_data :
  let v := ll_run [OpGet "a"; EnvDelete "a"; OpGet "a"]
             (LazyLoader_init {[ "a" := GArray (PyObj "a-data") ]}) in
  LazyLoader_getitem "a" v = (v, Return (PyObj "a-data"))
  ∧ snd (LazyLoader_contains "a" v) = false
  ∧ snd (LazyLoader_len v) = 0
  ∧ ll_log v = [AGetItem "a"; ARead "a"].
Proof. repeat split; vm_compute; reflexivity. Qed.

(** A name the group does not hold is asked for again at every [get]:
    nothing was read, nothing is cached. *)
Example lazy_loader_missing_item :
  let v := ll_run [OpGet "b"; OpGet "b"] (LazyLoader_init {[ "a" := GArray (PyObj "a-data") ]}) in
  ll_log v = [AGetItem "b"; AGetItem "b"]
  ∧ snd (LazyLoader_getitem "b" v) = Raise (KeyError "b")
  ∧ reads_of "b" (ll_log v) = 0.
Proof. repeat split; vm_compute; reflexivity. Qed.

(** ** [load] *)

(** C9: [load] on a store that holds neither an array nor a group at the
    root returns [None]; and whatever [load] raises was raised by one of the
    calls it makes, never by [load] itself to report missing data. *)
Theorem load_absent_returns_None (store_arg store : Type)
    (normalize_store_arg : store_arg → outcome store)
    (contains_array contains_group : store → option string → bool)
    (Array_read : store → option string → outcome pyval)
    (Group_open : store → option string → outcome (gmap string gitem))
    (s : store_arg) :
  let result :=
    load store_arg store normalize_store_arg contains_array contains_group
      Array_read Group_open s in
  (∀ st, normalize_store_arg s = Return st →
         contains_array st None = false → contains_group st None = false →
         result = Return None)
  ∧ (∀ e, result = Raise e →
          normalize_store_arg s = Raise e
          ∨ ∃ st, normalize_store_arg s = Return st
                  ∧ ((contains_array st None = true ∧ Array_read st None = Raise e)
                     ∨ (contains_array st None = false ∧ contains_group st None = true
                        ∧ Group_open st None = Raise e))).
Proof.
  cbv zeta. unfold load. split.
  - intros st -> -> ->. reflexivity.
  - intros e. destruct (normalize_store_arg s) as [st | e0]; [| intros [= <-]; by left].
    destruct (contains_array st None) eqn:Ha.
    + destruct (Array_read st None) as [data | e0] eqn:Hr; [discriminate |].
      intros [= <-]. right. exists st. auto.
    + destruct (contains_group st None) eqn:Hg; [| discriminate].
      destruct (Group_open st None) as [g | e0] eqn:Hr; [discriminate |].
      intros [= <-]. right. exists st. auto.
Qed.

(** A flat store holds an array at the root when it has the key [.zarray],
    a group when it has [.zgroup]; an empty store has neither. *)
Example load_empty_store :
  load (gmap string (list Byte.byte)) (gmap string (list Byte.byte)) Return
    (λ st _, bool_decide (".zarray" ∈ dom st)) (λ st _, bool_decide (".zgroup" ∈ dom st))
    (λ _ _, Return (PyObj "data")) (λ _ _, Return ∅) ∅
  = Return None.
Proof. reflexivity. Qed.

(** * Further properties *)

(** ** The flat copier: whole stores, repeated runs, failures, the log *)

Lemma compile_all_nil `{ReModule} flags : compile_all [] flags = Return [].
Proof. reflexivity. Qed.

(** X1: with no prefixes and no patterns, a returning [copy_store] between
    two distinct stores leaves in the destination every key of the source
    with the source's value and every other key the destination had before;
    the source is unchanged. *)
Theorem copy_store_whole_store `{ReModule}
    (normalize_storage_path : string → outcome string) (source dest : nat) (flags : Z)
    (log : log_arg) (w w' : World) (S Dm : gmap string (list Byte.byte)) :
  normalize_storage_path "" = Return EmptyString →
  w_stores w !! source = Some S →
  w_stores w !! dest = Some Dm →
  source ≠ dest →
  copy_store normalize_storage_path source dest "" "" PatNone PatNone flags log (w, tt)
    = ((w', tt), Return tt) →
  w_stores w' !! dest = Some (S ∪ Dm) ∧ w_stores w' !! source = Some S.
Proof.
  intros Hnorm HS HD Hne Hrun.
  destruct (copy_store_effect _ _ _ _ _ _ _ _ _ _ _ _ _ HS HD Hne Hrun)
    as (sp0 & dp0 & exs & incs & D' & Hsp & Hdp & Hex & Hinc & HS' & HD' & Hcopied & Hother).
  rewrite Hnorm in Hsp, Hdp. injection Hsp as <-. injection Hdp as <-.
  simpl in Hex, Hinc. injection Hex as <-. injection Hinc as <-.
  split; [| exact HS']. rewrite HD'. f_equal. apply map_eq. intros d.
  rewrite lookup_union. destruct (S !! d) as [v |] eqn:Hd.
  - assert (HDd : D' !! d = S !! d).
    { apply Hcopied; [apply elem_of_dom; eauto | exact eq_refl]. }
    rewrite HDd, Hd. by destruct (Dm !! d).
  - assert (HDd : D' !! d = Dm !! d).
    { apply Hother. intros K HK [= Heq]. change (K = d) in Heq. subst K.
      apply elem_of_dom in HK as [? ?]. congruence. }
    rewrite HDd. by destruct (Dm !! d).
Qed.

Lemma copy_store_whole_store_example :
  w_stores (fst (fst ex_mirror_copy)) !! 2 = Some (ex_flat ∪ ∅)
  ∧ w_stores (fst (fst ex_mirror_copy)) !! 1 = Some ex_flat.
Proof.
  apply (@copy_store_whole_store literal_re strip_separators 1 2 0 LogNone ex_flat_world
           (fst (fst ex_mirror_copy)) ex_flat ∅).
  - reflexivity.
  - reflexivity.
  - reflexivity.
  - discriminate.
  - vm_compute. reflexivity.
Defined.

(** X2: between two distinct stores, running the same returning
    [copy_store] a second time changes nothing in the destination, and the
    source is still what it was. *)
Theorem copy_store_idempotent `{ReModule}
    (normalize_storage_path : string → outcome string) (source dest : nat)
    (source_path dest_path : string) (excludes includes : patterns_arg) (flags : Z)
    (log : log_arg) (w w1 w2 : World) (S Dm : gmap string (list Byte.byte)) :
  w_stores w !! source = Some S →
  w_stores w !! dest = Some Dm →
  source ≠ dest →
  copy_store normalize_storage_path source dest source_path dest_path excludes includes
    flags log (w, tt) = ((w1, tt), Return tt) →
  copy_store normalize_storage_path source dest source_path dest_path excludes includes
    flags log (w1, tt) = ((w2, tt), Return tt) →
  w_stores w2 !! dest = w_stores w1 !! dest ∧ w_stores w2 !! source = Some S.
Proof.
  intros HS HD Hne Hrun1 Hrun2.
  destruct (copy_store_effect _ _ _ _ _ _ _ _ _ _ _ _ _ HS HD Hne Hrun1)
    as (sp0 & dp0 & exs & incs & D1 & Hsp & Hdp & Hex & Hinc & HS1 & HD1 & Hcopied1 & _).
  destruct (copy_store_effect _ _ _ _ _ _ _ _ _ _ _ _ _ HS1 HD1 Hne Hrun2)
    as (sp0' & dp0' & exs' & incs' & D2 & Hsp' & Hdp' & Hex' & Hinc' & HS2 & HD2
        & Hcopied2 & Hother2).
  rewrite Hsp in Hsp'. injection Hsp' as <-. rewrite Hdp in Hdp'. injection Hdp' as <-.
  rewrite Hex in Hex'. injection Hex' as <-. rewrite Hinc in Hinc'. injection Hinc' as <-.
  split; [| exact HS2]. rewrite HD1, HD2. f_equal. apply map_eq. intros d.
  destruct (decide (Exists (λ K, dest_key_of (with_sep sp0) (with_sep dp0) exs incs K = Some d)
                      (elements (dom S)))) as [Hex1 | Hnone].
  - apply Exists_exists in Hex1 as (K & HK%elem_of_elements & HKd).
    by rewrite (Hcopied2 K d HK HKd), (Hcopied1 K d HK HKd).
  - apply Hother2. intros K HK HKd. apply Hnone, Exists_exists.
    exists K. split; [by apply elem_of_elements | exact HKd].
Qed.

Lemma copy_store_idempotent_example :
  w_stores (fst (fst ex_flat_copy_again)) !! 2 = w_stores (fst (fst ex_flat_copy)) !! 2
  ∧ w_stores (fst (fst ex_flat_copy_again)) !! 1 = Some ex_flat.
Proof.
  apply (@copy_store_idempotent literal_re strip_separators 1 2 "" "x" PatNone PatNone 0
           LogNone ex_flat_world (fst (fst ex_flat_copy)) (fst (fst ex_flat_copy_again))
           ex_flat ∅).
  - reflexivity.
  - reflexivity.
  - discriminate.
  - vm_compute. reflexivity.
  - vm_compute. reflexivity.
Defined.

Lemma compile_all_Raise `{ReModule} (ps : list string) (flags : Z) (e : exn) :
  compile_all ps flags = Raise e ↔
  ∃ pre p post, ps = pre ++ p :: post
                ∧ (∀ q, q ∈ pre → is_Some (re_compile q flags))
                ∧ re_compile p flags = None ∧ e = ReError p.
Proof.
  revert e. induction ps as [| p0 ps IH]; intros e; simpl.
  - split; [discriminate | intros (pre & p & post & Hps & _)]. by destruct pre.
  - destruct (re_compile p0 flags) as [prog |] eqn:Hp0.
    + specialize (IH e). destruct (compile_all ps flags) as [progs | e0].
      * split; [discriminate |]. intros (pre & p & post & Heq & Hpre & Hp & ->).
        destruct pre as [| q pre]; simpl in Heq; injection Heq as -> ->; [congruence |].
        assert (Habs : Return progs = Raise (ReError p)); [| discriminate].
        apply IH. exists pre, p, post. repeat split; auto.
        intros q' Hq'. apply Hpre. by right.
      * split.
        -- intros [= ->]. destruct (proj1 IH eq_refl) as (pre & p & post & -> & Hpre & Hp & ->).
           exists (p0 :: pre), p, post. repeat split; auto.
           intros q [-> | Hq]%elem_of_cons; [eauto | by apply Hpre].
        -- intros (pre & p & post & Heq & Hpre & Hp & ->).
           destruct pre as [| q pre]; simpl in Heq; injection Heq as -> ->; [congruence |].
           apply IH. exists pre, p, post. repeat split; auto.
           intros q' Hq'. apply Hpre. by right.
    + split.
      * intros [= <-]. exists [], p0, ps. repeat split; auto. intros q Hq. inversion Hq.
      * intros (pre & p & post & Heq & Hpre & Hp & ->).
        destruct pre as [| q pre]; simpl in Heq; injection Heq as -> ->; [reflexivity |].
        destruct (Hpre q) as [x Hx]; [left | congruence].
Qed.

(** X3: [copy_store] fails before it touches anything when a path does
    not normalise or a pattern does not compile: the exception is that of
    the source path, else of the destination path, else of the first
    [excludes] pattern that does not compile, else of the first [includes]
    pattern that does not; the state is unchanged, and no log target has
    been opened. *)
Theorem copy_store_setup_failure `{ReModule}
    (normalize_storage_path : string → outcome string) (source dest : nat)
    (source_path dest_path : string) (excludes includes : patterns_arg) (flags : Z)
    (log : log_arg) (s : World * unit) :
  let run := copy_store normalize_storage_path source dest source_path dest_path
               excludes includes flags log s in
  (∀ e, normalize_storage_path source_path = Raise e → run = (s, Raise e))
  ∧ (∀ sp0 e, normalize_storage_path source_path = Return sp0 →
              normalize_storage_path dest_path = Raise e → run = (s, Raise e))
  ∧ (∀ sp0 dp0 pre p post,
        normalize_storage_path source_path = Return sp0 →
        normalize_storage_path dest_path = Return dp0 →
        patterns_list excludes = pre ++ p :: post →
        (∀ q, q ∈ pre → is_Some (re_compile q flags)) →
        re_compile p flags = None →
        run = (s, Raise (ReError p)))
  ∧ (∀ sp0 dp0 exs pre p post,
        normalize_storage_path source_path = Return sp0 →
        normalize_storage_path dest_path = Return dp0 →
        compile_all (patterns_list excludes) flags = Return exs →
        patterns_list includes = pre ++ p :: post →
        (∀ q, q ∈ pre → is_Some (re_compile q flags)) →
        re_compile p flags = None →
        run = (s, Raise (ReError p))).
Proof.
  cbv zeta. unfold copy_store, lift_outcome. repeat split.
  - intros e Hsp. by rewrite run_bind_unfold, Hsp.
  - intros sp0 e Hsp Hdp. by rewrite !run_bind_unfold, Hsp, !run_bind_unfold, Hdp.
  - intros sp0 dp0 pre p post Hsp Hdp Hps Hpre Hp.
    assert (Hc : compile_all (patterns_list excludes) flags = Raise (ReError p)).
    { apply compile_all_Raise. exists pre, p, post. auto. }
    by rewrite !run_bind_unfold, Hsp, !run_bind_unfold, Hdp, !run_bind_unfold, Hc.
  - intros sp0 dp0 exs pre p post Hsp Hdp Hex Hps Hpre Hp.
    assert (Hc : compile_all (patterns_list includes) flags = Raise (ReError p)).
    { apply compile_all_Raise. exists pre, p, post. auto. }
    by rewrite !run_bind_unfold, Hsp, !run_bind_unfold, Hdp, !run_bind_unfold, Hex,
      !run_bind_unfold, Hc.
Qed.

Lemma _LogWriter_call_events {D} lw msg (s : World * D) :
  w_events (fst (fst (_LogWriter_call lw msg s))) = w_events (fst s) ++ log_events lw msg.
Proof.
  destruct s as [w d]. unfold _LogWriter_call, log_events, io_write, io_flush, call_user.
  destruct lw as [f [[fd hf] |] nc]; simpl.
  - destruct hf; simpl; [by rewrite <- app_assoc | reflexivity].
  - destruct f as [f |]; simpl; [| by rewrite app_nil_r].
    rewrite !run_bind_unfold. simpl. by destruct (f _ _).
Qed.

Lemma copied_lines_cons `{ReModule} sp dp exs incs K0 (keys : list string) :
  copied_lines sp dp exs incs (K0 :: keys) =
  match dest_key_of sp dp exs incs K0 with
  | Some d0 => PyStr.arrow K0 d0 :: copied_lines sp dp exs incs keys
  | None => copied_lines sp dp exs incs keys
  end.
Proof. unfold copied_lines. simpl. by destruct (dest_key_of sp dp exs incs K0). Qed.

Lemma copy_keys_events `{ReModule} lw source dest sp dp exs incs (keys : list string) :
  ∀ (w w' : World),
    copy_keys lw source dest sp dp exs incs keys (w, tt) = ((w', tt), Return tt) →
    w_events w' = w_events w ++ flat_map (log_events lw) (copied_lines sp dp exs incs keys).
Proof.
  induction keys as [| K0 keys IH]; intros w w'.
  - intros [= <-]. simpl. by rewrite app_nil_r.
  - cbn [copy_keys]. rewrite copied_lines_cons.
    destruct (dest_key_of sp dp exs incs K0) as [d0 |] eqn:Hd0.
    + rewrite run_bind_unfold.
      pose proof (_LogWriter_call_events lw (PyStr.arrow K0 d0) (w, tt)) as Hev.
      destruct (_LogWriter_call lw (PyStr.arrow K0 d0) (w, tt)) as [[w1 []] [[] | e]];
        [| discriminate].
      simpl in Hev. rewrite run_bind_unfold. unfold store_get.
      rewrite run_bind_unfold. cbn [get_world fst snd].
      destruct (w_stores w1 !! source) as [S |]; [| discriminate].
      destruct (S !! K0) as [v0 |]; [| discriminate].
      cbn [mret run_mret run_ret]. rewrite run_bind_unfold. unfold store_set.
      rewrite run_bind_unfold. cbn [get_world fst snd].
      destruct (w_stores w1 !! dest) as [Dm |]; [| discriminate].
      cbn [modify_world fst snd]. intros Hrest. apply IH in Hrest.
      rewrite Hrest. simpl. rewrite Hev. by rewrite <- app_assoc.
    + apply IH.
Qed.

Lemma flat_map_singleton {A B} (f : A → B) (l : list A) : flat_map (λ x, [f x]) l = map f l.
Proof. induction l as [| x l IH]; simpl; [reflexivity | by rewrite IH]. Qed.

Lemma flat_map_nil {A B} (l : list A) : flat_map (λ _, @nil B) l = [].
Proof. induction l as [| x l IH]; simpl; [reflexivity | exact IH]. Qed.

(** X4: a returning [copy_store] logs one line [key -> dest_key] per
    copied key and nothing else, in ascending key order; a callable gets
    each line, a file gets each line with a newline and a flush after it,
    and a file opened from a path is opened before the first line and closed
    after the last. *)
Theorem copy_store_progress_lines `{ReModule}
    (normalize_storage_path : string → outcome string) (source dest : nat)
    (source_path dest_path : string) (excludes includes : patterns_arg) (flags : Z)
    (log : log_arg) (w w' : World) (S : gmap string (list Byte.byte)) :
  w_stores w !! source = Some S →
  copy_store normalize_storage_path source dest source_path dest_path excludes includes
    flags log (w, tt) = ((w', tt), Return tt) →
  ∃ sp0 dp0 exs incs,
    normalize_storage_path source_path = Return sp0
    ∧ normalize_storage_path dest_path = Return dp0
    ∧ compile_all (patterns_list excludes) flags = Return exs
    ∧ compile_all (patterns_list includes) flags = Return incs
    ∧ StronglySorted String.le (sorted_keys S)
    ∧ let lines := copied_lines (with_sep sp0) (with_sep dp0) exs incs (sorted_keys S) in
      let nl := String "010"%char EmptyString in
      w_events w' = w_events w ++
        match log with
        | LogNone => []
        | LogCallable _ => map EvCall lines
        | LogPath path =>
            let fd := fresh (w_fds w) in
            [EvOpen path fd] ++ flat_map (λ l, [EvWrite fd (l +:+ nl); EvFlush fd]) lines
              ++ [EvClose fd]
        | LogObject fd _ has_flush =>
            flat_map (λ l, EvWrite fd (l +:+ nl) :: (if has_flush then [EvFlush fd] else []))
              lines
        end.
Proof.
  intros HS Hrun.
  apply copy_store_inv in Hrun
    as (sp0 & dp0 & exs & incs & lw & w1 & w2 & S1 & Hsp & Hdp & Hex & Hinc & Hinit & HS1 & Hkeys & ->).
  exists sp0, dp0, exs, incs. repeat (split; [assumption |]).
  split; [apply StronglySorted_merge_sort; apply _ |].
  apply copy_keys_events in Hkeys.
  assert (S1 = S) as ->.
  { apply _LogWriter_init_inv in Hinit as (_ & _ & Hst). simpl in Hst.
    rewrite Hst, HS in HS1. by injection HS1. }
  cbv zeta. destruct log as [| f | path | fd hw hf]; simpl in Hinit.
  - injection Hinit as <- <-. unfold _LogWriter_exit; simpl. rewrite Hkeys. unfold log_events; simpl.
    by rewrite flat_map_nil.
  - injection Hinit as <- <-. unfold _LogWriter_exit; simpl. rewrite Hkeys.
    unfold log_events; simpl. by rewrite flat_map_singleton.
  - unfold io_open in Hinit. rewrite !run_bind_unfold in Hinit. simpl in Hinit.
    destruct (decide (path ∈ w_readonly w)); [discriminate |].
    injection Hinit as <- <-. unfold _LogWriter_exit, io_close. simpl.
    rewrite Hkeys. unfold log_events; simpl. by rewrite <- !app_assoc.
  - destruct hw; [| discriminate]. injection Hinit as <- <-.
    unfold _LogWriter_exit; simpl. rewrite Hkeys. reflexivity.
Qed.

Lemma copy_store_progress_lines_example :
  ∃ sp0 dp0 exs incs,
    strip_separators "" = Return sp0
    ∧ strip_separators "x" = Return dp0
    ∧ @compile_all literal_re (patterns_list PatNone) 0 = Return exs
    ∧ @compile_all literal_re (patterns_list PatNone) 0 = Return incs
    ∧ StronglySorted String.le (sorted_keys ex_flat)
    ∧ let lines := @copied_lines literal_re (with_sep sp0) (with_sep dp0) exs incs
                     (sorted_keys ex_flat) in
      let nl := String "010"%char EmptyString in
      w_events (fst (fst ex_logged_copy)) = w_events ex_flat_world ++
        (let fd := fresh (w_fds ex_flat_world) in
         [EvOpen "copy.log" fd] ++ flat_map (λ l, [EvWrite fd (l +:+ nl); EvFlush fd]) lines
           ++ [EvClose fd]).
Proof.
  apply (@copy_store_progress_lines literal_re strip_separators 1 2 "" "x" PatNone PatNone 0
           (LogPath "copy.log") ex_flat_world (fst (fst ex_logged_copy)) ex_flat).
  - reflexivity.
  - vm_compute. reflexivity.
Defined.

Lemma copy_keys_returns_when `{ReModule} lw source dest sp dp exs incs
    (S : gmap string (list Byte.byte)) (keys : list string) :
  source ≠ dest →
  (∀ K d (s : World * unit), K ∈ keys → dest_key_of sp dp exs incs K = Some d →
            snd (_LogWriter_call lw (PyStr.arrow K d) s) = Return tt) →
  (∀ K, K ∈ keys → is_Some (S !! K)) →
  ∀ (w : World) (Dm : gmap string (list Byte.byte)),
    w_stores w !! source = Some S → w_stores w !! dest = Some Dm →
    ∃ w', copy_keys lw source dest sp dp exs incs keys (w, tt) = ((w', tt), Return tt).
Proof.
  intros Hne. induction keys as [| K0 keys IH]; intros Hlog Hkeys w Dm HS HD.
  - by exists w.
  - cbn [copy_keys]. destruct (dest_key_of sp dp exs incs K0) as [d0 |] eqn:Hd0.
    + rewrite run_bind_unfold.
      pose proof (_LogWriter_call_stores lw (PyStr.arrow K0 d0) (w, tt)) as Hst.
      pose proof (Hlog K0 d0 (w, tt) (list_elem_of_here _ _) Hd0) as Hret.
      destruct (_LogWriter_call lw (PyStr.arrow K0 d0) (w, tt)) as [[w1 []] r].
      simpl in Hst, Hret. subst r. rewrite run_bind_unfold. unfold store_get.
      rewrite run_bind_unfold. cbn [get_world fst snd]. rewrite Hst, HS.
      destruct (Hkeys K0) as [v0 Hv0]; [left |]. rewrite Hv0.
      cbn [mret run_mret run_ret]. rewrite run_bind_unfold. unfold store_set.
      rewrite run_bind_unfold. cbn [get_world fst snd]. rewrite Hst, HD.
      cbn [modify_world fst snd].
      apply (IH (λ K d s HK, Hlog K d s (list_elem_of_further _ _ _ HK))
                (λ K HK, Hkeys K (list_elem_of_further _ _ _ HK)) _ (<[d0 := v0]> Dm)).
      * unfold set_stores; simpl. rewrite Hst. by rewrite lookup_insert_ne.
      * unfold set_stores; simpl. rewrite Hst. apply lookup_insert_eq.
    + apply (IH (λ K d s HK, Hlog K d s (list_elem_of_further _ _ _ HK))
                (λ K HK, Hkeys K (list_elem_of_further _ _ _ HK)) _ Dm); assumption.
Qed.

Lemma call_user_result {D} (f : callable) msg (w : World) (d : D) :
  _LogWriter_call (mkLogWriter (Some f) None false) msg (w, d) =
  ((emit (EvCall msg) w, d),
   match f (w_events w) msg with Some tag => Raise (UserError tag) | None => Return tt end).
Proof.
  unfold _LogWriter_call, call_user. simpl. rewrite !run_bind_unfold. simpl.
  by destruct (f _ _).
Qed.

(** X5: [copy_store] logs a key before it copies it.  Between two
    distinct stores, when the callable raises at the line of the key [K],
    the call raises that exception; the kept keys before [K] have been
    copied, the destination key of [K] and everything else in the
    destination are as before, and the source is unchanged. *)
Theorem copy_store_stops_at_raising_line `{ReModule}
    (normalize_storage_path : string → outcome string) (source dest : nat)
    (source_path dest_path : string) (excludes includes : patterns_arg) (flags : Z)
    (f : callable) (w : World) (S Dm : gmap string (list Byte.byte))
    (sp0 dp0 : string) (exs incs : list re_prog) (pre post : list string) (K d tag : string) :
  w_stores w !! source = Some S →
  w_stores w !! dest = Some Dm →
  source ≠ dest →
  normalize_storage_path source_path = Return sp0 →
  normalize_storage_path dest_path = Return dp0 →
  compile_all (patterns_list excludes) flags = Return exs →
  compile_all (patterns_list includes) flags = Return incs →
  sorted_keys S = pre ++ K :: post →
  dest_key_of (with_sep sp0) (with_sep dp0) exs incs K = Some d →
  (∀ K' d' evs, K' ∈ pre →
     dest_key_of (with_sep sp0) (with_sep dp0) exs incs K' = Some d' →
     f evs (PyStr.arrow K' d') = None) →
  (∀ evs, f evs (PyStr.arrow K d) = Some tag) →
  ∃ w' D',
    copy_store normalize_storage_path source dest source_path dest_path excludes includes
      flags (LogCallable f) (w, tt) = ((w', tt), Raise (UserError tag))
    ∧ w_stores w' !! source = Some S
    ∧ w_stores w' !! dest = Some D'
    ∧ (∀ K' d', K' ∈ pre →
         dest_key_of (with_sep sp0) (with_sep dp0) exs incs K' = Some d' → D' !! d' = S !! K')
    ∧ (∀ d', (∀ K', K' ∈ pre →
                dest_key_of (with_sep sp0) (with_sep dp0) exs incs K' ≠ Some d') →
             D' !! d' = Dm !! d')
    ∧ D' !! d = Dm !! d
    ∧ w_events w' = w_events w ++
        map EvCall (copied_lines (with_sep sp0) (with_sep dp0) exs incs pre
                      ++ [PyStr.arrow K d]).
Proof.
  intros HS HD Hne Hsp Hdp Hex Hinc Hsplit HKd Hpre Hraise.
  pose proof (sorted_keys_NoDup S) as Hnodup. rewrite Hsplit in Hnodup.
  apply NoDup_app in Hnodup as (Hnd_pre & Hdisj & _).
  set (lw := mkLogWriter (Some f) None false).
  destruct (copy_keys_returns_when lw source dest (with_sep sp0) (with_sep dp0) exs incs S pre
              Hne) with (w := w) (Dm := Dm) as [w1 Hrun1]; auto.
  { intros K' d' [w0 []] HK' HK'd. unfold lw. rewrite call_user_result. simpl.
    by rewrite (Hpre K' d' _ HK' HK'd). }
  { intros K' HK'. apply elem_of_dom, sorted_keys_elem. rewrite Hsplit.
    apply elem_of_app. by left. }
  destruct (copy_keys_effect lw source dest _ _ exs incs S pre Hne Hnd_pre w w1 Dm HS HD Hrun1)
    as (HS1 & D1 & HD1 & Hcopied & Hother).
  pose proof (copy_keys_events _ _ _ _ _ _ _ _ _ _ Hrun1) as Hev1.
  exists (emit (EvCall (PyStr.arrow K d)) w1), D1.
  split; [| split; [exact HS1 | split; [exact HD1 | split; [| split; [exact Hother | split]]]]].
  - unfold copy_store, lift_outcome.
    rewrite !run_bind_unfold, Hsp, !run_bind_unfold, Hdp, !run_bind_unfold, Hex,
      !run_bind_unfold, Hinc.
    unfold with_LogWriter. rewrite run_bind_unfold. cbn [_LogWriter_init mret run_mret run_ret].
    unfold finally, store_keys. rewrite !run_bind_unfold. cbn [get_world fst snd].
    rewrite HS. cbn [mret run_mret run_ret]. rewrite Hsplit, copy_keys_app.
    fold lw. rewrite Hrun1. cbn [copy_keys]. rewrite HKd, run_bind_unfold.
    unfold lw at 1. rewrite call_user_result, Hraise. reflexivity.
  - intros K' d' HK' HK'd. by apply Hcopied.
  - apply Hother. intros K' HK' HK'd.
    rewrite (dest_key_of_inj _ _ _ _ _ _ _ HK'd HKd) in HK'.
    apply (Hdisj K HK'). left.
  - simpl. rewrite Hev1, map_app. unfold lw, log_events; simpl.
    by rewrite flat_map_singleton, <- app_assoc.
Qed.

Lemma copy_store_stops_at_raising_line_example :
  ∃ w' D',
    @copy_store literal_re strip_separators 1 2 "" "x" PatNone PatNone 0
      (LogCallable ex_raising_log) (ex_flat_world, tt) = ((w', tt), Raise (UserError "boom"))
    ∧ w_stores w' !! 1 = Some ex_flat
    ∧ w_stores w' !! 2 = Some D'
    ∧ (∀ K' d', K' ∈ ["a/.meta"] →
         @dest_key_of literal_re (with_sep "") (with_sep "x") [] [] K' = Some d' →
         D' !! d' = ex_flat !! K')
    ∧ (∀ d', (∀ K', K' ∈ ["a/.meta"] →
                @dest_key_of literal_re (with_sep "") (with_sep "x") [] [] K' ≠ Some d') →
             D' !! d' = (∅ : gmap string (list Byte.byte)) !! d')
    ∧ D' !! "x/a/0" = (∅ : gmap string (list Byte.byte)) !! "x/a/0"
    ∧ w_events w' = w_events ex_flat_world ++
        map EvCall (@copied_lines literal_re (with_sep "") (with_sep "x") [] [] ["a/.meta"]
                      ++ [PyStr.arrow "a/0" "x/a/0"]).
Proof.
  apply (@copy_store_stops_at_raising_line literal_re strip_separators 1 2 "" "x" PatNone
           PatNone 0 ex_raising_log ex_flat_world ex_flat ∅ "" "x" [] [] ["a/.meta"]
           ["b/.meta"] "a/0" "x/a/0" "boom").
  - reflexivity.
  - reflexivity.
  - discriminate.
  - reflexivity.
  - reflexivity.
  - reflexivity.
  - reflexivity.
  - vm_compute. reflexivity.
  - reflexivity.
  - intros K' d' evs HK. apply list_elem_of_singleton in HK as ->.
    vm_compute. intros [= <-]. reflexivity.
  - intros evs. reflexivity.
Defined.

(** ** Node copies: what a full copy builds *)

Lemma mirrors_group (wa : bool) (supplied : gmap string pyval) (dm path gname gmod : string)
    (gattrs : gmap string pyval) (children : list (string * node)) (g : dgroup) :
  dg_name g = path → dg_module g = dm → dg_attrs g = (if wa then ∅ else gattrs) →
  Forall2 (child_mirrors wa supplied dm path) children (dg_children g) →
  mirrors wa supplied dm path (SrcGroup gname gmod gattrs children) (inr g).
Proof.
  destruct g as [name module attrs ns]. simpl. intros -> -> -> Hall.
  repeat split. induction Hall as [| [k c] [k' n] cs ns' [Hk Hm] _ IH]; [done |].
  simpl in *. auto.
Qed.

Lemma add_child_name g k c : dg_name (add_child g k c) = dg_name g.
Proof. by destruct g. Qed.
Lemma add_child_module g k c : dg_module (add_child g k c) = dg_module g.
Proof. by destruct g. Qed.

Lemma _LogWriter_call_dicts {D} lw msg (s : World * D) :
  w_dicts (fst (fst (_LogWriter_call lw msg s))) = w_dicts (fst s).
Proof.
  destruct s as [w d]. unfold _LogWriter_call, io_write, io_flush, call_user.
  destruct lw as [f [[fd hf] |] nc]; simpl.
  - destruct hf; reflexivity.
  - destruct f as [f |]; [| reflexivity].
    rewrite !run_bind_unfold. simpl. destruct (f _ _); reflexivity.
Qed.

(** The children loop of a full copy, given that each child's copy mirrors it. *)
Lemma copy_items_mirror_when lw wa kw supplied (cs : list (string * node)) :
  ∀ (w1 w2 : World) (ga gb : dgroup),
    Forall (λ kv : string * node, ∀ lw k root wa kw (w w' : World) (g g' : dgroup) supplied,
              w_dicts w !! kw = Some supplied →
              _copy lw kv.2 (Some k) root false wa kw (w, g) = ((w', g'), Return tt) →
              ∃ new, g' = add_child g k new
                     ∧ mirrors wa supplied (dg_module g) (child_path (dg_name g) k) kv.2 new) cs →
    w_dicts w1 !! kw = Some supplied →
    for_items (λ k child, kw' ← kwargs_of _copy_params kw;
                          _copy lw child (Some k) false false wa kw') cs (w1, ga)
      = ((w2, gb), Return tt) →
    dg_name gb = dg_name ga ∧ dg_module gb = dg_module ga ∧ dg_attrs gb = dg_attrs ga
    ∧ ∃ new, dg_children gb = dg_children ga ++ new
             ∧ Forall2 (child_mirrors wa supplied (dg_module ga) (dg_name ga)) cs new.
Proof.
  induction cs as [| [k c] cs IHcs]; intros w1 w2 ga gb Hall Hkw.
  - intros [= <- <-]. repeat split. exists []. by rewrite app_nil_r.
  - apply Forall_cons in Hall as [Hc Hall]. cbn [for_items].
    rewrite !run_bind_unfold, kwargs_of_run, Hkw.
    destruct (collides _copy_params supplied); [discriminate |].
    destruct (_copy _ c _ _ _ _ _ _) as [[w3 g3] [[] | e]] eqn:Hcopy; [| discriminate].
    intros Hrest.
    pose proof (proj1 (dicts_kept__copy _ _ _ _ _ _ _ _ _ _ Hcopy)) as Hsub.
    unfold dicts_kept in Hsub. simpl in Hsub.
    apply (Hc _ _ _ _ _ _ _ _ _ supplied (with_dict_lookup _ _ _)) in Hcopy
      as (new & -> & Hnew).
    apply IHcs in Hrest as (Hn & Hm & Ha & news & Hch & Hnews); [| exact Hall |].
    + rewrite add_child_name in Hn. rewrite add_child_module in Hm.
      rewrite add_child_attrs in Ha. rewrite add_child_children in Hch.
      rewrite add_child_name, add_child_module in Hnews.
      repeat split; try assumption. exists ((k, new) :: news). split.
      * by rewrite Hch, <- app_assoc.
      * constructor; [| exact Hnews]. split; [reflexivity | exact Hnew].
    + eapply lookup_weaken; [| exact Hsub]. unfold with_dict, set_dicts; simpl.
      rewrite lookup_insert_ne; [exact Hkw |].
      intros Heq. pose proof (is_fresh (dom (w_dicts w1))) as Hfresh.
      rewrite Heq in Hfresh. apply Hfresh, elem_of_dom. eauto.
Qed.

Lemma copy_named_mirrors (c : node) :
  ∀ lw k root wa kw (w w' : World) (g g' : dgroup) supplied,
    w_dicts w !! kw = Some supplied →
    _copy lw c (Some k) root false wa kw (w, g) = ((w', g'), Return tt) →
    ∃ new, g' = add_child g k new
           ∧ mirrors wa supplied (dg_module g) (child_path (dg_name g) k) c new.
Proof.
  induction c as [a | gname gmod gattrs children IH] using node_induction;
    intros lw k root wa kw w w' g g' supplied Hkw.
  - rewrite copy_array_run, Hkw. cbv zeta.
    destruct (collides create_dataset_params _); [discriminate |].
    destruct (has_child g k); [discriminate |].
    match goal with |- context [_LogWriter_call ?l ?m ?s] =>
      destruct (_LogWriter_call l m s) as [[w2 ds2] [[] | e]] end; [| discriminate].
    intros [= <- <-]. eexists. split; [reflexivity |]. simpl.
    repeat split. destruct wa; [reflexivity | apply (right_id_L ∅ (∪))].
  - rewrite copy_group_run by apply orb_true_r.
    destruct (has_child g k); [discriminate |]. cbv zeta.
    match goal with |- context [_LogWriter_call ?l ?m ?s] =>
      pose proof (_LogWriter_call_dicts l m s) as Hdicts;
      destruct (_LogWriter_call l m s) as [[w1 g1] [[] | e]] end; [| discriminate].
    assert (Hkw1 : w_dicts w1 !! kw = Some supplied).
    { simpl in Hdicts. by rewrite Hdicts. }
    destruct (for_items _ children _) as [[w2 grp] r] eqn:Hloop.
    intros [= <- <- ->]. exists (inr grp). split; [reflexivity |].
    set (g0 := (if wa then _ else _) : dgroup) in Hloop.
    apply (copy_items_mirror_when _ _ _ supplied _ _ _ _ _ IH Hkw1) in Hloop
      as (Hn & Hm & Ha & new & Hch & Hnew).
    assert (Hch0 : dg_children g0 = []) by (unfold g0; by destruct wa).
    assert (Hm0 : dg_module g0 = dg_module g) by (unfold g0; by destruct wa).
    assert (Hn0 : dg_name g0 = child_path (dg_name g) k) by (unfold g0; by destruct wa).
    apply mirrors_group.
    + by rewrite Hn.
    + by rewrite Hm.
    + rewrite Ha. unfold g0. destruct wa; [reflexivity |]. simpl. apply (right_id_L ∅ (∪)).
    + rewrite Hch0 in Hch. simpl in Hch. rewrite Hch. by rewrite <- Hm0, <- Hn0.
Qed.

Lemma copy_items_mirror lw wa kw supplied (cs : list (string * node))
    (w1 w2 : World) (ga gb : dgroup) :
  w_dicts w1 !! kw = Some supplied →
  for_items (λ k child, kw' ← kwargs_of _copy_params kw;
                        _copy lw child (Some k) false false wa kw') cs (w1, ga)
    = ((w2, gb), Return tt) →
  dg_name gb = dg_name ga ∧ dg_module gb = dg_module ga ∧ dg_attrs gb = dg_attrs ga
  ∧ ∃ new, dg_children gb = dg_children ga ++ new
           ∧ Forall2 (child_mirrors wa supplied (dg_module ga) (dg_name ga)) cs new.
Proof.
  apply copy_items_mirror_when. apply Forall_forall. intros [k c] _. apply copy_named_mirrors.
Qed.

(** X6: a returning deep [copy] adds to the destination one child, under
    the resolved name, that mirrors the whole source tree: the same names at
    every level, in the same order; every leaf with the source's shape,
    dtype and data and the caller's keywords over the defaults; attributes
    copied at every node unless suppressed. *)
Theorem copy_mirrors_source (source : node) (name : option string) (without_attrs : bool)
    (log : log_arg) (create_kws : nat) (w w' : World) (dest dest' : dgroup)
    (supplied : gmap string pyval) :
  w_dicts w !! create_kws = Some supplied →
  copy source name false without_attrs log create_kws (w, dest) = ((w', dest'), Return tt) →
  ∃ new,
    dest' = add_child dest (target_name source name) new
    ∧ mirrors without_attrs supplied (dg_module dest)
        (child_path (dg_name dest) (target_name source name)) source new.
Proof.
  intros Hkw Hrun. unfold copy, with_LogWriter in Hrun. rewrite run_bind_unfold in Hrun.
  destruct (_LogWriter_init log (w, dest)) as [[w1 d1] [lw | e]] eqn:Hinit; [| discriminate].
  apply _LogWriter_init_inv in Hinit as (Hd & Hdicts & _). simpl in Hd, Hdicts. subst d1.
  rewrite <- Hdicts in Hkw.
  unfold finally in Hrun. rewrite run_bind_unfold, kwargs_of_run, Hkw in Hrun.
  destruct (collides _copy_params supplied); [discriminate |].
  assert (Hnamed : ∀ n,
    match _copy lw source (Some n) true false without_attrs
            (fresh (dom (w_dicts w1))) (with_dict (fresh (dom (w_dicts w1))) supplied w1, dest) with
    | (w2, d2, r) => (_LogWriter_exit lw w2, d2, r)
    end = (w', dest', Return tt) →
    ∃ new, dest' = add_child dest n new
           ∧ mirrors without_attrs supplied (dg_module dest) (child_path (dg_name dest) n)
               source new).
  { intros n. destruct (_copy lw source (Some n) _ _ _ _ _) as [[w2 d2] r] eqn:Hcopy.
    intros [= <- <- ->].
    exact (copy_named_mirrors _ _ _ _ _ _ _ _ _ _ _ (with_dict_lookup _ _ _) Hcopy). }
  destruct name as [n |]; [exact (Hnamed n Hrun) |].
  rewrite _copy_None in Hrun. cbv zeta in Hrun.
  destruct (PyStr.is_empty _); [discriminate |]. exact (Hnamed _ Hrun).
Qed.

Lemma copy_mirrors_source_example :
  ∃ new,
    snd (fst ex_full_copy) = add_child ex_dest (target_name ex_foo None) new
    ∧ mirrors false {[ "fill_value" := PyInt 0 ]} (dg_module ex_dest)
        (child_path (dg_name ex_dest) (target_name ex_foo None)) ex_foo new.
Proof.
  apply (copy_mirrors_source ex_foo None false LogNone 0 ex_world (fst (fst ex_full_copy))
           ex_dest (snd (fst ex_full_copy)) {[ "fill_value" := PyInt 0 ]}).
  - reflexivity.
  - vm_compute. reflexivity.
Defined.

(** X7: a returning [copy_all] keeps the destination's name, attributes
    and existing children, and appends one child per child of the source, in
    order: mirrors of all of them when deep, copies of the leaves only when
    shallow.  The attributes of the source group itself are not copied. *)
Theorem copy_all_copies_children (gname gmod : string) (gattrs : gmap string pyval)
    (children : list (string * node)) (shallow without_attrs : bool) (log : log_arg)
    (create_kws : nat) (w w' : World) (dest dest' : dgroup) (supplied : gmap string pyval) :
  w_dicts w !! create_kws = Some supplied →
  copy_all (SrcGroup gname gmod gattrs children) shallow without_attrs log create_kws (w, dest)
    = ((w', dest'), Return tt) →
  dg_name dest' = dg_name dest ∧ dg_attrs dest' = dg_attrs dest
  ∧ ∃ new,
      dg_children dest' = dg_children dest ++ new
      ∧ if shallow
        then Forall2 (leaf_copied without_attrs)
               (List.filter (λ kv, is_leaf (snd kv)) children) new
        else Forall2 (child_mirrors without_attrs supplied (dg_module dest) (dg_name dest))
               children new.
Proof.
  intros Hkw Hrun. unfold copy_all, with_LogWriter in Hrun. rewrite run_bind_unfold in Hrun.
  destruct (_LogWriter_init log (w, dest)) as [[w1 d1] [lw | e]] eqn:Hinit; [| discriminate].
  apply _LogWriter_init_inv in Hinit as (Hd & Hdicts & _). simpl in Hd, Hdicts. subst d1.
  unfold finally in Hrun. cbv beta iota in Hrun.
  destruct (for_items _ children _) as [[w2 d2] r] eqn:Hloop.
  injection Hrun as <- <- ->.
  destruct shallow.
  - assert (Hn : ∀ cs (wa wb : World) (ga gb : dgroup),
      for_items (λ k child, kw' ← kwargs_of _copy_params create_kws;
                            _copy lw child (Some k) false true without_attrs kw') cs (wa, ga)
        = ((wb, gb), Return tt) → dg_name gb = dg_name ga).
    { clear. induction cs as [| [k c] cs IH]; intros wa wb ga gb.
      - by intros [= <- <-].
      - cbn [for_items]. rewrite !run_bind_unfold.
        destruct (kwargs_of _ _ _) as [[w1 g1] [kw' | e]] eqn:Hk; [| discriminate].
        assert (g1 = ga) as ->.
        { rewrite kwargs_of_run in Hk. destruct (w_dicts wa !! create_kws) as [it |];
            [destruct (collides _ it) |]; by injection Hk. }
        destruct (_copy _ c _ _ _ _ _ _) as [[w3 g3] [[] | e]] eqn:Hcopy; [| discriminate].
        intros Hrest%IH. rewrite Hrest.
        destruct c as [a | gn gm ga' gc].
        + rewrite copy_array_run in Hcopy.
          destruct (w_dicts w1 !! kw') as [it |]; [| discriminate]. cbv zeta in Hcopy.
          destruct (collides create_dataset_params _); [discriminate |].
          destruct (has_child ga k); [discriminate |].
          match type of Hcopy with context [_LogWriter_call ?l ?m ?s] =>
            destruct (_LogWriter_call l m s) as [[w4 ds4] [[] | e]] end; [| discriminate].
          injection Hcopy as _ <-. apply add_child_name.
        + rewrite copy_group_skipped in Hcopy. by injection Hcopy as _ <-. }
    split; [exact (Hn _ _ _ _ _ Hloop) |].
    apply shallow_items_run in Hloop as (Ha & new & Hch & Hnew). eauto.
  - apply (copy_items_mirror _ _ _ supplied) in Hloop as (Hn & _ & Ha & new & Hch & Hnew);
      [eauto | by rewrite Hdicts].
Qed.

Lemma copy_all_copies_children_example :
  dg_name (snd (fst ex_copy_all)) = dg_name ex_dest
  ∧ dg_attrs (snd (fst ex_copy_all)) = dg_attrs ex_dest
  ∧ ∃ new,
      dg_children (snd (fst ex_copy_all)) = dg_children ex_dest ++ new
      ∧ Forall2 (child_mirrors false {[ "fill_value" := PyInt 0 ]} (dg_module ex_dest)
                   (dg_name ex_dest))
          [("bar", ex_bar); ("t", SrcArray ex_leaf)] new.
Proof.
  apply (copy_all_copies_children "/foo" "zarr.hierarchy" {[ "units" := PyStr "m" ]}
           [("bar", ex_bar); ("t", SrcArray ex_leaf)] false false LogNone 0 ex_world
           (fst (fst ex_copy_all)) ex_dest (snd (fst ex_copy_all))
           {[ "fill_value" := PyInt 0 ]}).
  - reflexivity.
  - vm_compute. reflexivity.
Defined.


Lemma split_nonempty sep s : PyStr.split sep s ≠ [].
Proof.
  destruct s as [| c s]; simpl; [discriminate |].
  destruct (Ascii.eqb c sep); [discriminate |]. by destruct (PyStr.split sep s).
Qed.

Lemma join_cons2 sep x y (l : list string) :
  join sep (x :: y :: l) = x +:+ sep +:+ join sep (y :: l).
Proof. reflexivity. Qed.

Lemma string_app_assoc (a b c : string) : (a +:+ b) +:+ c = a +:+ b +:+ c.
Proof. induction a as [| x a IH]; [reflexivity |]. rewrite !append_String. by rewrite IH. Qed.

Lemma string_app_empty_r (a : string) : a +:+ EmptyString = a.
Proof. induction a as [| x a IH]; [reflexivity |]. rewrite append_String. by rewrite IH. Qed.

Lemma join_split (sep : ascii) (s : string) :
  join (String sep EmptyString) (PyStr.split sep s) = s.
Proof.
  induction s as [| c s IH]; [reflexivity |]. simpl.
  pose proof (split_nonempty sep s) as Hne.
  destruct (Ascii.eqb c sep) eqn:Hc.
  - apply Ascii.eqb_eq in Hc as ->.
    destruct (PyStr.split sep s) as [| x r]; [done |]. rewrite join_cons2, IH. reflexivity.
  - destruct (PyStr.split sep s) as [| x r]; [done |].
    destruct r as [| y r].
    + simpl in *. by rewrite IH.
    + rewrite join_cons2 in *. rewrite append_String. by rewrite IH.
Qed.

Lemma split_pieces (sep : ascii) (s : string) :
  Forall (λ x, occurs_in (String sep EmptyString) x = false) (PyStr.split sep s).
Proof.
  induction s as [| c s IH]; simpl; [by repeat constructor |].
  pose proof (split_nonempty sep s) as Hne.
  destruct (Ascii.eqb c sep) eqn:Hc.
  - constructor; [reflexivity | exact IH].
  - destruct (PyStr.split sep s) as [| x r]; [done |].
    apply Forall_cons in IH as [Hx Hr]. constructor; [| exact Hr].
    simpl. rewrite Ascii.eqb_sym, Hc. exact Hx.
Qed.

Lemma join_last (sep : string) (l : list string) :
  l ≠ [] →
  ∃ p, join sep l = p +:+ List.last l EmptyString
       ∧ (p = EmptyString ∧ length l = 1 ∨ ∃ q, p = q +:+ sep).
Proof.
  induction l as [| x l IH]; [done |]. intros _.
  destruct l as [| y l].
  - exists EmptyString. split; [reflexivity | by left].
  - destruct IH as (p & Hp & Hcase); [done |].
    exists (x +:+ sep +:+ p). split.
    + rewrite join_cons2, Hp. change (List.last (x :: y :: l) EmptyString)
        with (List.last (y :: l) EmptyString).
      by rewrite !string_app_assoc.
    + right. destruct Hcase as [[-> _] | [q ->]].
      * exists x. by rewrite string_app_empty_r.
      * exists (x +:+ sep +:+ q). by rewrite !string_app_assoc.
Qed.

Lemma occurs_in_app_sep (sep : ascii) (q : string) :
  occurs_in (String sep EmptyString) (q +:+ String sep EmptyString) = true.
Proof.
  induction q as [| c q IH].
  - simpl. by rewrite Ascii.eqb_refl.
  - rewrite append_String. simpl. destruct (Ascii.eqb sep c); [reflexivity | exact IH].
Qed.

Lemma ends_with_sep_last (sep : ascii) (p q seg : string) :
  p +:+ seg = q +:+ String sep EmptyString →
  occurs_in (String sep EmptyString) seg = false → seg = EmptyString.
Proof.
  revert q. induction p as [| c p IH]; intros q Heq Hseg.
  - change (seg = q +:+ String sep EmptyString) in Heq. subst seg.
    by rewrite occurs_in_app_sep in Hseg.
  - destruct q as [| c' q].
    + rewrite append_String in Heq. injection Heq as _ Heq.
      destruct p; [exact Heq | discriminate].
    + rewrite !append_String in Heq. injection Heq as _ Heq. by apply (IH q).
Qed.

(** X8: the name [_copy] derives from [source.name] is the piece after
    the last [/]: joining the pieces of the split gives the name back, the
    derived name holds no [/] and is a suffix of the source name that
    follows a [/] or is the whole of it; the "no name" [TypeError] is raised
    exactly when the source name is empty or ends with [/]. *)
Theorem derived_name_is_last_segment (source_name : string) (s : World * dgroup) :
  let seg := PyStr.last_item (PyStr.split "/" source_name) in
  join "/" (PyStr.split "/" source_name) = source_name
  ∧ occurs_in "/" seg = false
  ∧ (∃ p, source_name = p +:+ seg ∧ (p = EmptyString ∨ ∃ q, p = q +:+ "/"))
  ∧ (resolve_name source_name None s = (s, Raise InvalidName)
     ↔ source_name = EmptyString ∨ ∃ q, source_name = q +:+ "/")
  ∧ (seg ≠ EmptyString → resolve_name source_name None s = (s, Return seg)).
Proof.
  intros seg.
  pose proof (join_split "/" source_name) as Hjoin.
  pose proof (split_pieces "/" source_name) as Hpieces.
  pose proof (split_nonempty "/" source_name) as Hne.
  assert (Hseg : occurs_in "/" seg = false).
  { rewrite Forall_forall in Hpieces. apply Hpieces. unfold seg, PyStr.last_item.
    apply list_elem_of_In. destruct (exists_last Hne) as (l & x & ->).
    rewrite last_last. apply in_or_app. right. by left. }
  destruct (join_last "/" _ Hne) as (p & Hp & Hcase). rewrite Hjoin in Hp.
  change (source_name = p +:+ seg) in Hp.
  assert (Hdecomp : ∃ p, source_name = p +:+ seg ∧ (p = EmptyString ∨ ∃ q, p = q +:+ "/")).
  { exists p. split; [exact Hp |]. destruct Hcase as [[-> _] | Hq]; auto. }
  assert (Hempty : seg = EmptyString ↔ source_name = EmptyString ∨ ∃ q, source_name = q +:+ "/").
  { split.
    - intros Hs. rewrite Hs, string_app_empty_r in Hp. subst p.
      destruct Hcase as [[-> _] | Hq]; auto.
    - intros [-> | [q Hq]]; [reflexivity |].
      rewrite Hq in Hp. symmetry in Hp.
      exact (ends_with_sep_last "/" p q seg Hp Hseg). }
  split; [exact Hjoin |]. split; [exact Hseg |]. split; [exact Hdecomp |].
  unfold resolve_name. fold seg. split.
  - rewrite <- Hempty, <- is_empty_true. destruct (PyStr.is_empty seg); split; try done.
  - intros Hs. destruct (PyStr.is_empty seg) eqn:He; [| reflexivity].
    by apply is_empty_true in He.
Qed.

(** *** The name to copy to *)

Lemma split_no_sep (sep : ascii) (s : string) :
  occurs_in (String sep EmptyString) s = false → PyStr.split sep s = [s].
Proof.
  induction s as [| c s IH]; [reflexivity |]. simpl.
  rewrite (Ascii.eqb_sym c sep). destruct (Ascii.eqb sep c); [discriminate |].
  intros Hs. by rewrite (IH Hs).
Qed.

Lemma split_after_sep (sep : ascii) (q seg : string) :
  ∃ front, PyStr.split sep (q +:+ String sep seg) = front ++ PyStr.split sep seg
           ∧ front ≠ [].
Proof.
  induction q as [| c q (front & IH & Hne)].
  - exists [EmptyString]. simpl. by rewrite Ascii.eqb_refl.
  - rewrite append_String. simpl. rewrite IH. destruct (Ascii.eqb c sep).
    + by exists (EmptyString :: front).
    + destruct front as [| f0 front]; [done |]. by exists (String c f0 :: front).
Qed.

Lemma last_item_app (front l : list string) :
  l ≠ [] → PyStr.last_item (front ++ l) = PyStr.last_item l.
Proof.
  intros Hl. destruct (exists_last Hl) as (l' & x & ->). unfold PyStr.last_item.
  by rewrite app_assoc, !last_last.
Qed.

Lemma trailing_segment_unique (name seg : string) :
  trailing_segment name seg → PyStr.last_item (PyStr.split "/" name) = seg.
Proof.
  intros [Hseg [-> | [q ->]]].
  - by rewrite (split_no_sep _ _ Hseg).
  - destruct (split_after_sep "/" q seg) as (front & Hsplit & _).
    change ("/" +:+ seg) with (String "/" seg). rewrite Hsplit.
    rewrite last_item_app by apply split_nonempty.
    by rewrite (split_no_sep _ _ Hseg).
Qed.

Lemma trailing_segment_last (name : string) :
  trailing_segment name (PyStr.last_item (PyStr.split "/" name)).
Proof.
  pose proof (join_split "/" name) as Hjoin.
  pose proof (split_pieces "/" name) as Hpieces.
  pose proof (split_nonempty "/" name) as Hne.
  split.
  - rewrite Forall_forall in Hpieces. apply Hpieces. unfold PyStr.last_item.
    apply list_elem_of_In. destruct (exists_last Hne) as (l & x & ->).
    rewrite last_last. apply in_or_app. right. by left.
  - destruct (join_last "/" _ Hne) as (p & Hp & Hcase). rewrite Hjoin in Hp.
    destruct Hcase as [[-> _] | [q ->]].
    + by left.
    + right. exists q. by rewrite <- string_app_assoc.
Qed.

(** C7: name resolution in [copy].  The trailing segment of the source's
    name is what follows its last [/], or the whole name when it has none;
    there is exactly one.  Once the log target has been accepted, and
    provided no creation keyword has the name of a parameter of [_copy]:
    with [name] omitted, [copy] raises the no-name [TypeError] exactly when
    the trailing segment is empty, and then the destination is as it was;
    otherwise it is the copy under the trailing segment as name.  With a
    creation keyword named like a parameter of [_copy] ([root] is the one a
    caller of [copy] can pass), the call raises the duplicate-keyword
    [TypeError] whatever the name, and the destination is as it was. *)
Theorem copy_name_resolution (source : node) (shallow without_attrs : bool)
    (log : log_arg) (create_kws : nat) (s s1 : World * dgroup) (lw : _LogWriter)
    (items : gmap string pyval) :
  _LogWriter_init log s = (s1, Return lw) →
  w_dicts (fst s) !! create_kws = Some items →
  (collides _copy_params items = true →
     ∀ name, snd (copy source name shallow without_attrs log create_kws s)
               = Raise (TypeError multiple_values_msg)
             ∧ snd (fst (copy source name shallow without_attrs log create_kws s)) = snd s)
  ∧ (collides _copy_params items = false →
     ∃ seg,
       trailing_segment (node_name source) seg
       ∧ (∀ seg', trailing_segment (node_name source) seg' → seg' = seg)
       ∧ let res := copy source None shallow without_attrs log create_kws s in
         (snd res = Raise InvalidName ↔ seg = EmptyString)
         ∧ (seg = EmptyString → snd (fst res) = snd s)
         ∧ (seg ≠ EmptyString →
              res = copy source (Some seg) shallow without_attrs log create_kws s)).
Proof.
  intros Hinit Hkw. split.
  - intros Hcollide name. unfold copy, with_LogWriter. rewrite run_bind_unfold, Hinit.
    destruct s as [w d], s1 as [w1 d1].
    apply _LogWriter_init_inv in Hinit as (Hd & Hdicts & _).
    simpl in Hd, Hdicts, Hkw. subst d1.
    unfold finally. rewrite run_bind_unfold, kwargs_of_run, Hdicts, Hkw, Hcollide.
    split; reflexivity.
  - intros Hfree. set (seg := PyStr.last_item (PyStr.split "/" (node_name source))).
    exists seg. split; [apply trailing_segment_last |].
    split; [intros seg' Hseg'; symmetry; by apply trailing_segment_unique |].
    intros res. destruct (PyStr.is_empty seg) eqn:Hseg.
    + apply is_empty_true in Hseg as Hempty.
      assert (Hres : snd res = Raise InvalidName ∧ snd (fst res) = snd s).
      { subst res. unfold copy, with_LogWriter. rewrite run_bind_unfold, Hinit.
        destruct s as [w d], s1 as [w1 d1].
        apply _LogWriter_init_inv in Hinit as (Hd & Hdicts & _).
        simpl in Hd, Hdicts, Hkw. subst d1.
        unfold finally. rewrite run_bind_unfold, kwargs_of_run, Hdicts, Hkw, Hfree.
        rewrite _copy_None. cbv zeta. fold seg. rewrite Hseg. split; reflexivity. }
      destruct Hres as [Hr Hd]. repeat split; auto. congruence.
    + assert (Hne : seg ≠ EmptyString).
      { intros Heq%is_empty_true. congruence. }
      assert (Hres : res = copy source (Some seg) shallow without_attrs log create_kws s).
      { subst res. unfold copy, with_LogWriter. rewrite !run_bind_unfold, Hinit.
        unfold finally. rewrite !run_bind_unfold.
        destruct (kwargs_of _copy_params create_kws s1) as [s2 [kw' | e]]; [| reflexivity].
        rewrite _copy_None. cbv zeta. fold seg. rewrite Hseg. reflexivity. }
      repeat split; auto; try congruence.
      intros Hraise. exfalso. rewrite Hres in Hraise.
      destruct (copy source (Some seg) _ _ _ _ s) as [s' r] eqn:Hrun.
      apply named_copy_call_not_InvalidName in Hrun as [_ Hrun].
      simpl in Hraise. exact (Hrun _ Hraise eq_refl).
Qed.

Lemma copy_name_resolution_example :
  (collides _copy_params ({[ "fill_value" := PyInt 0 ]} : gmap string pyval) = true →
     ∀ name, snd (copy ex_foo name false false LogNone 0 (ex_world, ex_dest))
               = Raise (TypeError multiple_values_msg)
             ∧ snd (fst (copy ex_foo name false false LogNone 0 (ex_world, ex_dest)))
               = snd (ex_world, ex_dest))
  ∧ (collides _copy_params ({[ "fill_value" := PyInt 0 ]} : gmap string pyval) = false →
     ∃ seg,
       trailing_segment (node_name ex_foo) seg
       ∧ (∀ seg', trailing_segment (node_name ex_foo) seg' → seg' = seg)
       ∧ let res := copy ex_foo None false false LogNone 0 (ex_world, ex_dest) in
         (snd res = Raise InvalidName ↔ seg = EmptyString)
         ∧ (seg = EmptyString → snd (fst res) = snd (ex_world, ex_dest))
         ∧ (seg ≠ EmptyString →
              res = copy ex_foo (Some seg) false false LogNone 0 (ex_world, ex_dest))).
Proof.
  apply (copy_name_resolution ex_foo false false LogNone 0 (ex_world, ex_dest)
           (ex_world, ex_dest) (mkLogWriter None None false) {[ "fill_value" := PyInt 0 ]}).
  - reflexivity.
  - reflexivity.
Defined.

(** The group [/foo] is copied under the name [foo]. *)
Example copy_foo_derives_name :
  trailing_segment (node_name ex_foo) "foo"
  ∧ copy ex_foo None false false LogNone 0 (ex_world, ex_dest)
    = copy ex_foo (Some "foo") false false LogNone 0 (ex_world, ex_dest)
  ∧ has_child (snd (fst (copy ex_foo None false false LogNone 0 (ex_world, ex_dest)))) "foo"
    = true.
Proof.
  split; [| split].
  - split; [reflexivity |]. right. by exists EmptyString.
  - vm_compute. reflexivity.
  - vm_compute. reflexivity.
Qed.

(** C7 as stated fails when the caller passes a creation keyword named
    [root]: the unnamed root has an empty trailing segment, and [copy]
    raises the duplicate-keyword [TypeError], not the no-name one; and
    [/foo], whose trailing segment [foo] is not empty, fails with that
    [TypeError] all the same. *)
Lemma copy_name_as_stated_fails :
  trailing_segment (node_name ex_root) EmptyString
  ∧ copy ex_root None false false LogNone 0 (ex_root_kw_world, ex_dest)
    = ((ex_root_kw_world, ex_dest), Raise (TypeError multiple_values_msg))
  ∧ snd (copy ex_root None false false LogNone 0 (ex_root_kw_world, ex_dest))
    ≠ Raise InvalidName
  ∧ trailing_segment (node_name ex_foo) "foo"
  ∧ copy ex_foo None false false LogNone 0 (ex_root_kw_world, ex_dest)
    = ((ex_root_kw_world, ex_dest), Raise (TypeError multiple_values_msg)).
Proof.
  split; [| split; [| split; [| split]]].
  - split; [reflexivity |]. right. by exists EmptyString.
  - vm_compute. reflexivity.
  - vm_compute. discriminate.
  - split; [reflexivity |]. right. by exists EmptyString.
  - vm_compute. reflexivity.
Qed.

(** X9: in a returning [copy] of a leaf, every keyword the caller
    supplied reaches [create_dataset] with the caller's value; [chunks]
    defaults to the source's chunks; and no keyword is passed other than the
    supplied ones and the five the leaf branch may default. *)
Theorem leaf_keywords_supplied_win (a : ArrayInfo) (name : option string)
    (shallow without_attrs : bool) (log : log_arg) (create_kws : nat) (w w' : World)
    (dest dest' : dgroup) (supplied : gmap string pyval) :
  w_dicts w !! create_kws = Some supplied →
  copy (SrcArray a) name shallow without_attrs log create_kws (w, dest)
    = ((w', dest'), Return tt) →
  ∃ ds,
    dest' = add_child dest (target_name (SrcArray a) name) (inl ds)
    ∧ (∀ k v, supplied !! k = Some v → da_kws ds !! k = Some v)
    ∧ (supplied !! "chunks" = None → da_kws ds !! "chunks" = Some (a_chunks a))
    ∧ (∀ k, supplied !! k = None →
            k ∉ ["chunks"; "compressor"; "compression"; "compression_opts"; "shuffle"] →
            da_kws ds !! k = None).
Proof.
  intros Hkw Hrun. unfold copy, with_LogWriter in Hrun. rewrite run_bind_unfold in Hrun.
  destruct (_LogWriter_init log (w, dest)) as [[w1 d1] [lw | e]] eqn:Hinit; [| discriminate].
  apply _LogWriter_init_inv in Hinit as (Hd & Hdicts & _). simpl in Hd, Hdicts. subst d1.
  rewrite <- Hdicts in Hkw.
  unfold finally in Hrun. rewrite run_bind_unfold, kwargs_of_run, Hkw in Hrun.
  destruct (collides _copy_params supplied); [discriminate |].
  assert (Hnamed : ∀ n,
    match _copy lw (SrcArray a) (Some n) true shallow without_attrs
            (fresh (dom (w_dicts w1))) (with_dict (fresh (dom (w_dicts w1))) supplied w1, dest) with
    | (w2, d2, r) => (_LogWriter_exit lw w2, d2, r)
    end = (w', dest', Return tt) →
    ∃ ds, dest' = add_child dest n (inl ds)
          ∧ da_kws ds = supplied ∪ default_kws a (PyStr.startswith (a_module a) "h5py.")
                                     (PyStr.startswith (dg_module dest) "h5py.")).
  { intros n. rewrite copy_array_run, with_dict_lookup. cbv zeta.
    destruct (collides create_dataset_params _); [discriminate |].
    destruct (has_child dest n); [discriminate |].
    match goal with |- context [_LogWriter_call ?l ?m ?s] =>
      destruct (_LogWriter_call l m s) as [[w2 ds2] [[] | e]] end; [| discriminate].
    intros [= <- <-]. eexists. split; reflexivity. }
  assert (Hds : ∃ ds, dest' = add_child dest (target_name (SrcArray a) name) (inl ds)
          ∧ da_kws ds = supplied ∪ default_kws a (PyStr.startswith (a_module a) "h5py.")
                                     (PyStr.startswith (dg_module dest) "h5py.")).
  { destruct name as [n |]; [exact (Hnamed n Hrun) |].
    rewrite _copy_None in Hrun. cbv zeta in Hrun.
    destruct (PyStr.is_empty _); [discriminate |]. exact (Hnamed _ Hrun). }
  destruct Hds as (ds & Hdest & Hkws). exists ds. split; [exact Hdest |].
  rewrite Hkws. repeat split.
  - intros k v Hk. by apply lookup_union_Some_l.
  - intros Hc. rewrite lookup_union_r by exact Hc.
    unfold default_kws. apply lookup_union_Some_l, lookup_singleton_eq.
  - intros k Hk Hnot. rewrite lookup_union_r by exact Hk.
    unfold default_kws.
    repeat (apply not_elem_of_cons in Hnot as [? Hnot]).
    destruct (PyStr.startswith (a_module a) "h5py."), (PyStr.startswith (dg_module dest) "h5py.");
      rewrite ?lookup_union_None, ?lookup_singleton_None, ?lookup_empty; repeat split; congruence.
Qed.

Lemma leaf_keywords_supplied_win_example :
  ∃ ds,
    snd (fst ex_leaf_copy) = add_child ex_dest (target_name (SrcArray ex_leaf) None) (inl ds)
    ∧ (∀ k v, ({[ "fill_value" := PyInt 0 ]} : gmap string pyval) !! k = Some v →
              da_kws ds !! k = Some v)
    ∧ (({[ "fill_value" := PyInt 0 ]} : gmap string pyval) !! "chunks" = None →
       da_kws ds !! "chunks" = Some (a_chunks ex_leaf))
    ∧ (∀ k, ({[ "fill_value" := PyInt 0 ]} : gmap string pyval) !! k = None →
            k ∉ ["chunks"; "compressor"; "compression"; "compression_opts"; "shuffle"] →
            da_kws ds !! k = None).
Proof.
  apply (leaf_keywords_supplied_win ex_leaf None false false LogNone 0 ex_world
           (fst (fst ex_leaf_copy)) ex_dest (snd (fst ex_leaf_copy))
           {[ "fill_value" := PyInt 0 ]}).
  - reflexivity.
  - vm_compute. reflexivity.
Defined.

(** X10: the log writer is constructed before anything else.  When it
    cannot be ([log] has no [write] method, or the path cannot be opened),
    [copy] and [copy_all] raise its exception and leave the world and the
    destination as they were, whatever the source, the name and the
    creation keywords. *)
Theorem copy_needs_its_log_writer (source : node) (name : option string)
    (shallow without_attrs : bool) (create_kws : nat) (s : World * dgroup) :
  (∀ fd has_flush,
      copy source name shallow without_attrs (LogObject fd false has_flush) create_kws s
        = (s, Raise (TypeError bad_log_msg))
      ∧ copy_all source shallow without_attrs (LogObject fd false has_flush) create_kws s
        = (s, Raise (TypeError bad_log_msg)))
  ∧ (∀ path, path ∈ w_readonly (fst s) →
      copy source name shallow without_attrs (LogPath path) create_kws s
        = (s, Raise (OSError path))
      ∧ copy_all source shallow without_attrs (LogPath path) create_kws s
        = (s, Raise (OSError path))).
Proof.
  split.
  - intros fd hf. split; reflexivity.
  - intros path Hro. unfold copy, copy_all, with_LogWriter.
    rewrite !run_bind_unfold. destruct s as [w d]. cbn [_LogWriter_init].
    unfold io_open. rewrite !run_bind_unfold. cbn [get_world fst snd].
    simpl in Hro. rewrite decide_True by exact Hro. split; reflexivity.
Qed.

(** X11: [_copy] creates the dataset, then logs, then copies the data.
    When the log callable raises at a leaf, the exception propagates and the
    destination is left with the new dataset, created with its shape, dtype
    and keywords but holding no data and no attributes. *)
Theorem copy_log_failure_leaves_empty_dataset (a : ArrayInfo) (n : string)
    (shallow without_attrs : bool) (f : callable) (create_kws : nat) (w : World)
    (dest : dgroup) (supplied : gmap string pyval) (tag : string) :
  w_dicts w !! create_kws = Some supplied →
  collides _copy_params supplied = false →
  collides create_dataset_params supplied = false →
  has_child dest n = false →
  f (w_events w) (PyStr.arrow (a_name a) (child_path (dg_name dest) n)) = Some tag →
  ∃ w',
    copy (SrcArray a) (Some n) shallow without_attrs (LogCallable f) create_kws (w, dest)
    = ((w', add_child dest n
               (inl (mk_darray (child_path (dg_name dest) n) (a_shape a) (a_dtype a)
                       (supplied ∪ default_kws a (PyStr.startswith (a_module a) "h5py.")
                                                 (PyStr.startswith (dg_module dest) "h5py."))
                       PyNone ∅))),
       Raise (UserError tag))
    ∧ w_events w'
      = w_events w ++ [EvCall (PyStr.arrow (a_name a) (child_path (dg_name dest) n))].
Proof.
  intros Hkw Hc1 Hc2 Hfree Hf.
  unfold copy, with_LogWriter. rewrite run_bind_unfold.
  cbn [_LogWriter_init mret run_mret run_ret]. unfold finally.
  rewrite run_bind_unfold, kwargs_of_run, Hkw, Hc1.
  rewrite copy_array_run, with_dict_lookup. cbv zeta.
  rewrite collides_defaults, Hc2, Hfree.
  rewrite call_user_result. cbn [da_name].
  replace (w_events (with_dict _ _ (with_dict _ _ w))) with (w_events w) by reflexivity.
  rewrite Hf. eexists. split; [reflexivity |]. reflexivity.
Qed.

Lemma copy_log_failure_leaves_empty_dataset_example :
  ∃ w',
    copy (SrcArray ex_leaf) (Some "t") false false (LogCallable (λ _ _, Some "boom")) 0
      (ex_world, ex_dest)
    = ((w', add_child ex_dest "t"
               (inl (mk_darray (child_path (dg_name ex_dest) "t") (a_shape ex_leaf)
                       (a_dtype ex_leaf)
                       ({[ "fill_value" := PyInt 0 ]}
                          ∪ default_kws ex_leaf (PyStr.startswith (a_module ex_leaf) "h5py.")
                              (PyStr.startswith (dg_module ex_dest) "h5py."))
                       PyNone ∅))),
       Raise (UserError "boom"))
    ∧ w_events w'
      = w_events ex_world
          ++ [EvCall (PyStr.arrow (a_name ex_leaf) (child_path (dg_name ex_dest) "t"))].
Proof.
  apply (copy_log_failure_leaves_empty_dataset ex_leaf "t" false false (λ _ _, Some "boom") 0
           ex_world ex_dest {[ "fill_value" := PyInt 0 ]} "boom"); reflexivity.
Defined.

(** ** The lazy loader on a group nobody else changes *)

Lemma view_step_grp o v : is_view_op o = true → ll_grp (fst (ll_step o v)) = ll_grp v.
Proof.
  destruct o; try discriminate; intros _; simpl; try reflexivity.
  unfold LazyLoader_getitem.
  destruct (ll_cache v !! item); [reflexivity |].
  destruct (ll_grp v !! item) as [[arr |] |]; reflexivity.
Qed.

Lemma view_step_agrees o v :
  is_view_op o = true → cache_agrees v → cache_agrees (fst (ll_step o v)).
Proof.
  destruct o; try discriminate; intros _ Hv; simpl; try exact Hv.
  unfold LazyLoader_getitem.
  destruct (ll_cache v !! item) as [arr0 |] eqn:Hc; [exact Hv |].
  destruct (ll_grp v !! item) as [[arr |] |] eqn:Hg; try exact Hv.
  intros item' arr'. simpl. destruct (decide (item' = item)) as [-> | Hne].
  - rewrite lookup_insert_eq. by intros [= <-].
  - rewrite lookup_insert_ne by done. apply Hv.
Qed.

Lemma view_run ops : ∀ v,
  forallb is_view_op ops = true → cache_agrees v →
  ll_grp (ll_run ops v) = ll_grp v ∧ cache_agrees (ll_run ops v).
Proof.
  induction ops as [| o ops IH]; intros v Hops Hv; [by split |].
  simpl in Hops. apply andb_true_iff in Hops as [Ho Hops]. simpl.
  destruct (IH (fst (ll_step o v)) Hops (view_step_agrees o v Ho Hv)) as [Hg Hc].
  split; [by rewrite Hg, view_step_grp | exact Hc].
Qed.

(** X12: as long as nobody else changes the wrapped group, a
    [LazyLoader] never changes it either, every cached item is the data the
    group holds under that name, and [get] answers as the group would: the
    array's data, or a [KeyError] for a subgroup or a missing name. *)
Theorem lazy_loader_transparent (grp : gmap string gitem) (ops : list ll_op) :
  forallb is_view_op ops = true →
  let v := ll_run ops (LazyLoader_init grp) in
  ll_grp v = grp
  ∧ (∀ item arr, ll_cache v !! item = Some arr → grp !! item = Some (GArray arr))
  ∧ (∀ item, snd (LazyLoader_getitem item v)
             = match grp !! item with
               | Some (GArray arr) => Return arr
               | Some GSubgroup => Raise (KeyError "Ellipsis")
               | None => Raise (KeyError item)
               end).
Proof.
  intros Hops v.
  destruct (view_run ops (LazyLoader_init grp) Hops) as [Hg Hc].
  { intros item arr. unfold LazyLoader_init. simpl. by rewrite lookup_empty. }
  fold v in Hg, Hc. simpl in Hg.
  split; [exact Hg |]. split.
  - intros item arr Hi. rewrite <- Hg. by apply Hc.
  - intros item. unfold LazyLoader_getitem.
    destruct (ll_cache v !! item) as [arr |] eqn:Hi.
    + apply Hc in Hi. rewrite Hg in Hi. by rewrite Hi.
    + rewrite Hg. destruct (grp !! item) as [[arr |] |]; reflexivity.
Qed.

Lemma lazy_loader_transparent_example :
  ll_grp ex_view = ex_group
  ∧ (∀ item arr, ll_cache ex_view !! item = Some arr → ex_group !! item = Some (GArray arr))
  ∧ (∀ item, snd (LazyLoader_getitem item ex_view)
             = match ex_group !! item with
               | Some (GArray arr) => Return arr
               | Some GSubgroup => Raise (KeyError "Ellipsis")
               | None => Raise (KeyError item)
               end).
Proof.
  apply (lazy_loader_transparent ex_group [OpGet "a"; OpLen; OpGet "g"; OpGet "a"]).
  reflexivity.
Defined.

(** ** [save_array], [save_group], [save] *)

Section SaveFacts.
Context {store_arg store : Type}.
Variable is_str : store_arg → bool.
Variable normalize_store_arg : store_arg → bool → outcome store.
Variable has_close : store → bool.
Variable fails : list (save_call store) → save_call store → option exn.


Lemma for_each_map {D A B} (g : A → B) (f : B → Run D unit) (l : list A) :
  for_each (λ x, f (g x)) l = for_each f (map g l).
Proof. induction l as [| x l IH]; simpl; [reflexivity | by rewrite IH]. Qed.

Lemma for_each_app {D A} (f : A → Run D unit) (l1 l2 : list A) s :
  for_each f (l1 ++ l2) s = (for_each f l1;; for_each f l2) s.
Proof.
  revert s. induction l1 as [| x l1 IH]; intros s; simpl.
  - reflexivity.
  - rewrite !run_bind_unfold. destruct (f x s) as [s1 [[] | e]]; [| reflexivity].
    rewrite IH. by rewrite run_bind_unfold.
Qed.

(** A run of calls stops at the first one that raises. *)
Lemma for_calls_run (l : list (save_call store)) : ∀ w tr s' r,
  for_each (call_out fails) l (w, tr) = (s', r) →
  ∃ done, s' = (w, tr ++ done) ∧ done `prefix_of` l
          ∧ (r = Return tt → done = l)
          ∧ (∀ e, r = Raise e → ∃ pre c, done = pre ++ [c] ∧ fails (tr ++ pre) c = Some e)
          ∧ (done ≠ l → ∃ e, r = Raise e).
Proof.
  induction l as [| c l IH]; intros w tr s' r; simpl.
  - intros [= <- <-]. exists []. rewrite app_nil_r. repeat split; try done.
  - rewrite run_bind_unfold. unfold call_out at 1. cbn [fst snd].
    destruct (fails tr c) as [e |] eqn:Hc.
    + intros [= <- <-]. exists [c]. repeat split.
      * by apply prefix_cons, prefix_nil.
      * discriminate.
      * intros e' [= <-]. exists [], c. by rewrite app_nil_r.
      * eauto.
    + intros Hrun. apply IH in Hrun as (done & -> & Hpre & Hret & Hraise & Hne).
      exists (c :: done). rewrite <- app_assoc. repeat split.
      * by apply prefix_cons.
      * intros Hr. by rewrite Hret.
      * intros e He. destruct (Hraise e He) as (pre & c' & -> & Hf).
        exists (c :: pre), c'. split; [reflexivity |]. by rewrite <- app_assoc in Hf.
      * intros Hd. apply Hne. congruence.
Qed.

Lemma planned_calls_run st args kwargs (s : World * list (save_call store)) :
  (call_out fails (CreateGroup st true);;
   for_each (λ ia, call_out fails (CreateDataset st (arr_name (fst ia)) (snd ia) true))
            (imap pair args);;
   for_each (λ ka, call_out fails (CreateDataset st (fst ka) (snd ka) true)) kwargs) s
  = for_each (call_out fails) (planned_calls st args kwargs) s.
Proof.
  unfold planned_calls. cbn [for_each]. rewrite !run_bind_unfold.
  destruct (call_out fails (CreateGroup st true) s) as [s1 [[] | e]]; [| reflexivity].
  rewrite for_each_app.
  rewrite (for_each_map (λ ia, CreateDataset st (arr_name (fst ia)) (snd ia) true)
             (call_out fails)).
  rewrite (for_each_map (λ ka, CreateDataset st (fst ka) (snd ka) true) (call_out fails)).
  by rewrite fmap_imap.
Qed.

Lemma close_if_needed_run (a : store_arg) st w tr :
  ∃ r, close_if_needed has_close fails (is_str a) st (w, tr)
       = ((w, tr ++ closing_calls is_str has_close a st), r).
Proof.
  unfold close_if_needed, closing_calls.
  destruct (is_str a && has_close st).
  - unfold call_out. simpl. eauto.
  - exists (Return tt). by rewrite app_nil_r.
Qed.

Lemma try_finally_close_run {A} (body : Run (list (save_call store)) A) a st w tr done r0 s' r :
  body (w, tr) = ((w, tr ++ done), r0) →
  try_finally body (close_if_needed has_close fails (is_str a) st) (w, tr) = (s', r) →
  s' = (w, tr ++ done ++ closing_calls is_str has_close a st)
  ∧ (r = r0 ∨ ∃ e, r = Raise e ∧ fails (tr ++ done) (Close st) = Some e).
Proof.
  intros Hbody. unfold try_finally. rewrite Hbody.
  unfold close_if_needed, closing_calls.
  destruct (is_str a && has_close st).
  - unfold call_out. cbn [fst snd].
    destruct (fails (tr ++ done) (Close st)) as [e |] eqn:Hf;
      intros [= <- <-]; rewrite <- app_assoc; split; eauto.
  - cbn [mret run_mret run_ret]. intros [= <- <-]. rewrite !app_nil_r. auto.
Qed.

Lemma planned_calls_no_close st args kwargs :
  Forall (λ c : save_call store, is_close c = false) (planned_calls st args kwargs).
Proof.
  unfold planned_calls. constructor; [reflexivity |]. apply Forall_app. split.
  - apply Forall_forall. intros c Hc. apply elem_of_lookup_imap in Hc as (i & arr & -> & _).
    reflexivity.
  - apply Forall_forall. intros c Hc. apply list_elem_of_fmap in Hc as (ka & -> & _).
    reflexivity.
Qed.

Lemma nonempty_lengths {A B} (args : list A) (kwargs : list B) :
  args ≠ [] ∨ kwargs ≠ [] → (length args =? 0) && (length kwargs =? 0) = false.
Proof. destruct args, kwargs; simpl; intros [? | ?]; done. Qed.

Lemma save_group_run a st args kwargs w tr s' r :
  normalize_store_arg a true = Return st →
  args ≠ [] ∨ kwargs ≠ [] →
  save_group is_str normalize_store_arg has_close fails a args kwargs (w, tr) = (s', r) →
  ∃ done,
    done `prefix_of` planned_calls st args kwargs
    ∧ s' = (w, tr ++ done ++ closing_calls is_str has_close a st)
    ∧ (r = Return tt → done = planned_calls st args kwargs)
    ∧ (done ≠ planned_calls st args kwargs →
       ∃ pre c e, done = pre ++ [c] ∧ fails (tr ++ pre) c = Some e).
Proof.
  intros Hnorm Hne. unfold save_group. rewrite nonempty_lengths by exact Hne.
  rewrite run_bind_unfold. unfold lift_outcome. rewrite Hnorm. intros Hrun.
  destruct (for_each (call_out fails) (planned_calls st args kwargs) (w, tr))
    as [s1 r0] eqn:Hbody.
  destruct (for_calls_run _ _ _ _ _ Hbody) as (done & -> & Hpre & Hret & Hraise & Hstop).
  eapply try_finally_close_run in Hrun as [-> Hr].
  2:{ rewrite planned_calls_run. exact Hbody. }
  exists done. split; [exact Hpre |]. split; [reflexivity |]. split.
  - intros ->. destruct Hr as [<- | (e & [=] & _)]. by apply Hret.
  - intros Hd. destruct (Hstop Hd) as [e He]. destruct (Hraise e He) as (pre & c & -> & Hf).
    eauto.
Qed.

Lemma save_array_run a st arr kwargs w tr s' r :
  normalize_store_arg a true = Return st →
  save_array is_str normalize_store_arg has_close fails a arr kwargs (w, tr) = (s', r) →
  ∃ done,
    done `prefix_of` [CreateArray arr st true kwargs]
    ∧ s' = (w, tr ++ done ++ closing_calls is_str has_close a st)
    ∧ (r = Return tt → done = [CreateArray arr st true kwargs])
    ∧ (collides ["store"; "overwrite"] kwargs = true → done = []).
Proof.
  intros Hnorm. unfold save_array. rewrite run_bind_unfold. unfold lift_outcome.
  rewrite Hnorm. intros Hrun.
  destruct (collides ["store"; "overwrite"] kwargs) eqn:Hc.
  - eapply (try_finally_close_run _ a st w tr []) in Hrun as [-> Hr].
    2:{ unfold raise. by rewrite app_nil_r. }
    exists []. split; [apply prefix_nil |]. split; [reflexivity |]. split; [| done].
    intros ->. by destruct Hr as [[=] | (e & [=] & _)].
  - eapply (try_finally_close_run _ a st w tr [CreateArray arr st true kwargs]) in Hrun
      as [-> Hr]; [| reflexivity].
    exists [CreateArray arr st true kwargs]. repeat split; done.
Qed.

(** X13: once [normalize_store_arg] has returned, [save_array],
    [save_group] and [save] end, on every outcome, with exactly one
    [close] of the store when the store was given as a string and has a
    [close], and with none otherwise; nothing is closed before that. *)
Theorem save_closes_store (a : store_arg) (st : store) :
  normalize_store_arg a true = Return st →
  (∀ arr kwargs s s' r,
      save_array is_str normalize_store_arg has_close fails a arr kwargs s = (s', r) →
      closed_as_opened is_str has_close a st s s')
  ∧ (∀ args kwargs s s' r,
      args ≠ [] ∨ kwargs ≠ [] →
      save_group is_str normalize_store_arg has_close fails a args kwargs s = (s', r) →
      closed_as_opened is_str has_close a st s s')
  ∧ (∀ args kwargs s s' r,
      args ≠ [] ∨ kwargs ≠ [] →
      save is_str normalize_store_arg has_close fails a args kwargs s = (s', r) →
      closed_as_opened is_str has_close a st s s').
Proof.
  intros Hnorm. set (closes := closed_as_opened is_str has_close a st).
  assert (Harr : ∀ arr kwargs s s' r,
      save_array is_str normalize_store_arg has_close fails a arr kwargs s = (s', r) →
      closes s s').
  { intros arr kwargs [w tr] s' r Hrun.
    destruct (save_array_run _ _ _ _ _ _ _ _ Hnorm Hrun) as (done & Hpre & -> & _).
    exists done. split; [reflexivity |].
    eapply Forall_forall. intros c Hc.
    destruct Hpre as [rest Hrest]. destruct done as [| c0 done]; [by apply elem_of_nil in Hc |].
    injection Hrest as <- Hrest. destruct done; [| discriminate].
    apply list_elem_of_singleton in Hc as ->. reflexivity. }
  assert (Hgrp : ∀ args kwargs s s' r,
      args ≠ [] ∨ kwargs ≠ [] →
      save_group is_str normalize_store_arg has_close fails a args kwargs s = (s', r) →
      closes s s').
  { intros args kwargs [w tr] s' r Hne Hrun.
    destruct (save_group_run _ _ _ _ _ _ _ _ Hnorm Hne Hrun) as (done & Hpre & -> & _).
    exists done. split; [reflexivity |].
    destruct Hpre as [rest Hrest].
    pose proof (planned_calls_no_close st args kwargs) as Hall.
    rewrite Hrest in Hall. by apply Forall_app in Hall as [Hall _]. }
  split; [exact Harr |]. split; [exact Hgrp |].
  intros args kwargs s s' r Hne. unfold save. rewrite nonempty_lengths by exact Hne.
  destruct ((length args =? 1) && (length kwargs =? 0)); [apply Harr | by apply Hgrp].
Qed.

Lemma arr_name_inj i j : arr_name i = arr_name j → i = j.
Proof.
  unfold arr_name. intros Heq. apply Unsigned.to_uint_inj.
  assert (Hs : NilEmpty.string_of_uint (Nat.to_uint i) = NilEmpty.string_of_uint (Nat.to_uint j)).
  { by simplify_eq /=. }
  apply (f_equal NilEmpty.uint_of_string) in Hs. rewrite !NilEmpty.usu in Hs. congruence.
Qed.

(** X14: [save_group] creates the group with [overwrite=True], then one
    dataset per positional array named [arr_0], [arr_1], ... and one per
    keyword, in order, and stops at the first call that raises; it returns
    only when all of them were made; the names of different positions
    differ. *)
Theorem save_group_creates_in_order (a : store_arg) (st : store) (args : list pyval)
    (kwargs : list (string * pyval)) (w : World) (tr : list (save_call store))
    (s' : World * list (save_call store)) (r : outcome unit) :
  normalize_store_arg a true = Return st →
  args ≠ [] ∨ kwargs ≠ [] →
  save_group is_str normalize_store_arg has_close fails a args kwargs (w, tr) = (s', r) →
  ∃ done,
    done `prefix_of` planned_calls st args kwargs
    ∧ s' = (w, tr ++ done ++ closing_calls is_str has_close a st)
    ∧ (r = Return tt → done = planned_calls st args kwargs)
    ∧ (done ≠ planned_calls st args kwargs →
       ∃ pre c e, done = pre ++ [c] ∧ fails (tr ++ pre) c = Some e)
    ∧ (∀ i j x y, args !! i = Some x → args !! j = Some y → i ≠ j → arr_name i ≠ arr_name j).
Proof.
  intros Hnorm Hne Hrun.
  destruct (save_group_run _ _ _ _ _ _ _ _ Hnorm Hne Hrun) as (done & H1 & H2 & H3 & H4).
  exists done. repeat split; try done.
  intros i j x y _ _ Hij Heq. by apply Hij, arr_name_inj.
Qed.

(** X15: [save] and [save_group] with no array at all raise the
    [ValueError] without calling anything, whatever the store argument is;
    and when [normalize_store_arg] raises, [save_array], [save_group] and
    [save] raise its exception with no call made and nothing to close. *)
Theorem save_rejects_before_any_call (a : store_arg) (s : World * list (save_call store)) :
  save is_str normalize_store_arg has_close fails a [] [] s = (s, Raise (ValueError no_array_msg))
  ∧ save_group is_str normalize_store_arg has_close fails a [] [] s
    = (s, Raise (ValueError no_array_msg))
  ∧ (∀ e, normalize_store_arg a true = Raise e →
       (∀ arr kwargs,
          save_array is_str normalize_store_arg has_close fails a arr kwargs s = (s, Raise e))
       ∧ (∀ args kwargs, args ≠ [] ∨ kwargs ≠ [] →
          save_group is_str normalize_store_arg has_close fails a args kwargs s = (s, Raise e)
          ∧ save is_str normalize_store_arg has_close fails a args kwargs s = (s, Raise e))).
Proof.
  split; [reflexivity |]. split; [reflexivity |]. intros e Hnorm.
  assert (Harr : ∀ arr kwargs,
    save_array is_str normalize_store_arg has_close fails a arr kwargs s = (s, Raise e)).
  { intros arr kwargs. unfold save_array. rewrite run_bind_unfold. unfold lift_outcome.
    by rewrite Hnorm. }
  assert (Hgrp : ∀ args kwargs, args ≠ [] ∨ kwargs ≠ [] →
    save_group is_str normalize_store_arg has_close fails a args kwargs s = (s, Raise e)).
  { intros args kwargs Hne. unfold save_group. rewrite nonempty_lengths by exact Hne.
    rewrite run_bind_unfold. unfold lift_outcome. by rewrite Hnorm. }
  split; [exact Harr |]. intros args kwargs Hne. split; [by apply Hgrp |].
  unfold save. rewrite nonempty_lengths by exact Hne.
  destruct ((length args =? 1) && (length kwargs =? 0)); [apply Harr | by apply Hgrp].
Qed.

End SaveFacts.

Lemma save_closes_store_example :
  (∀ arr kwargs s s' r,
      save_array ex_is_str ex_normalize_store_arg ex_has_close ex_never_fails (inl "data.zip")
        arr kwargs s = (s', r) →
      closed_as_opened ex_is_str ex_has_close (inl "data.zip") 0 s s')
  ∧ (∀ args kwargs s s' r,
      args ≠ [] ∨ kwargs ≠ [] →
      save_group ex_is_str ex_normalize_store_arg ex_has_close ex_never_fails
        (inl "data.zip") args kwargs s = (s', r) →
      closed_as_opened ex_is_str ex_has_close (inl "data.zip") 0 s s')
  ∧ (∀ args kwargs s s' r,
      args ≠ [] ∨ kwargs ≠ [] →
      save ex_is_str ex_normalize_store_arg ex_has_close ex_never_fails (inl "data.zip")
        args kwargs s = (s', r) →
      closed_as_opened ex_is_str ex_has_close (inl "data.zip") 0 s s').
Proof.
  apply (save_closes_store ex_is_str ex_normalize_store_arg ex_has_close ex_never_fails
           (inl "data.zip") 0).
  reflexivity.
Defined.

Lemma save_group_creates_in_order_example :
  ∃ done,
    done `prefix_of` planned_calls 0 [PyObj "x"; PyObj "y"] [("z", PyObj "z")]
    ∧ fst ex_save_group
      = (ex_world, [] ++ done ++ closing_calls ex_is_str ex_has_close (inl "data.zip") 0)
    ∧ (Return tt = Return tt →
       done = planned_calls 0 [PyObj "x"; PyObj "y"] [("z", PyObj "z")])
    ∧ (done ≠ planned_calls 0 [PyObj "x"; PyObj "y"] [("z", PyObj "z")] →
       ∃ pre c e, done = pre ++ [c] ∧ ex_never_fails ([] ++ pre) c = Some e)
    ∧ (∀ i j x y, [PyObj "x"; PyObj "y"] !! i = Some x → [PyObj "x"; PyObj "y"] !! j = Some y →
                  i ≠ j → arr_name i ≠ arr_name j).
Proof.
  apply (save_group_creates_in_order ex_is_str ex_normalize_store_arg ex_has_close
           ex_never_fails (inl "data.zip") 0 [PyObj "x"; PyObj "y"] [("z", PyObj "z")]
           ex_world [] (fst ex_save_group) (Return tt)).
  - reflexivity.
  - left. discriminate.
  - reflexivity.
Defined.

(** ** [open] *)

Section OpenFacts.
Context {store_arg store opened : Type}.
Variable normalize_store_arg : store_arg → bool → outcome store.
Variable normalize_storage_path : pyval → outcome string.
Variable contains_array contains_group : store → string → bool.
Variable open_array open_group : store → string → gmap string pyval → outcome opened.
Variable err_path_not_found : string → outcome unit.

(** X16: in the modes [w], [w-] and [x], [open] never looks into the
    store: its result is the same whatever the store contains, and what it
    returns comes from [open_array] when [shape] is among the keywords and
    from [open_group] otherwise. *)
Theorem open_creating_modes_ignore_contents (a : store_arg) (mode : string)
    (kwargs : gmap string pyval)
    (contains_array' contains_group' : store → string → bool)
    (err_path_not_found' : string → outcome unit) :
  mode ∈ ["w"; "w-"; "x"] →
  open normalize_store_arg normalize_storage_path contains_array contains_group
       open_array open_group err_path_not_found a mode kwargs
  = open normalize_store_arg normalize_storage_path contains_array' contains_group'
       open_array open_group err_path_not_found' a mode kwargs
  ∧ (∀ st p o,
       normalize_store_arg a (String.eqb mode "w") = Return st →
       normalize_storage_path (default PyNone (kwargs !! "path")) = Return p →
       open normalize_store_arg normalize_storage_path contains_array contains_group
            open_array open_group err_path_not_found a mode kwargs = Return o →
       ∃ x, o = Some x ∧
            (if bool_decide (is_Some (kwargs !! "shape"))
             then open_array st mode kwargs else open_group st mode kwargs) = Return x).
Proof.
  intros Hmode. unfold open. rewrite (bool_decide_eq_true_2 _ Hmode). split.
  - reflexivity.
  - intros st p o -> ->. destruct (bool_decide (is_Some (kwargs !! "shape"))).
    + destruct (open_array st mode kwargs); [intros [= <-]; eauto | discriminate].
    + destruct (open_group st mode kwargs); [intros [= <-]; eauto | discriminate].
Qed.

(** X17: in every mode other than [w], [w-], [x] and [a] (unknown modes
    too), [open] opens only what exists: what it returns comes from
    [open_array] on an existing array, else from [open_group] on an existing
    group, and with neither it calls [err_path_not_found] with the
    normalised path; the store is not clobbered. *)
Theorem open_existing_modes_never_create (a : store_arg) (mode : string)
    (kwargs : gmap string pyval) (st : store) (p : string) :
  mode ∉ ["w"; "w-"; "x"; "a"] →
  normalize_store_arg a false = Return st →
  normalize_storage_path (default PyNone (kwargs !! "path")) = Return p →
  let result := open normalize_store_arg normalize_storage_path contains_array
                  contains_group open_array open_group err_path_not_found a mode kwargs in
  (∀ x, result = Return (Some x) →
        contains_array st p = true ∧ open_array st mode kwargs = Return x
        ∨ contains_array st p = false ∧ contains_group st p = true
          ∧ open_group st mode kwargs = Return x)
  ∧ (contains_array st p = false → contains_group st p = false →
     result = match err_path_not_found p with
              | Raise e => Raise e
              | Return _ => Return None
              end).
Proof.
  intros Hmode Hst Hp result.
  rewrite !not_elem_of_cons in Hmode. destruct Hmode as (Hw & Hwm & Hx & Ha & _).
  apply String.eqb_neq in Hw as Hw', Ha as Ha'.
  assert (Hc : bool_decide (mode ∈ ["w"; "w-"; "x"]) = false).
  { apply bool_decide_eq_false_2. rewrite !not_elem_of_cons. repeat split; try done.
    apply not_elem_of_nil. }
  unfold result, open. rewrite Hw', Hst, Hp, Hc, Ha'. split.
  - intros x. destruct (contains_array st p).
    + destruct (open_array st mode kwargs); [intros [= <-]; auto | discriminate].
    + destruct (contains_group st p).
      * destruct (open_group st mode kwargs); [intros [= <-]; auto | discriminate].
      * destruct (err_path_not_found p); discriminate.
  - by intros -> ->.
Qed.

End OpenFacts.

Lemma open_creating_modes_ignore_contents_example :
  open ex_normalize_store_arg ex_normalize_path ex_contains_array ex_contains_group
       ex_open_array ex_open_group ex_err_path_not_found (inr 1) "w" ∅
  = open ex_normalize_store_arg ex_normalize_path (λ _ _, true) (λ _ _, false)
       ex_open_array ex_open_group (λ _, Return tt) (inr 1) "w" ∅
  ∧ (∀ st p o,
       ex_normalize_store_arg (inr 1) (String.eqb "w" "w") = Return st →
       ex_normalize_path (default PyNone ((∅ : gmap string pyval) !! "path")) = Return p →
       open ex_normalize_store_arg ex_normalize_path ex_contains_array ex_contains_group
            ex_open_array ex_open_group ex_err_path_not_found (inr 1) "w" ∅ = Return o →
       ∃ x, o = Some x ∧
            (if bool_decide (is_Some ((∅ : gmap string pyval) !! "shape"))
             then ex_open_array st "w" ∅ else ex_open_group st "w" ∅) = Return x).
Proof.
  apply (open_creating_modes_ignore_contents ex_normalize_store_arg ex_normalize_path
           ex_contains_array ex_contains_group ex_open_array ex_open_group
           ex_err_path_not_found (inr 1) "w" ∅ (λ _ _, true) (λ _ _, false) (λ _, Return tt)).
  apply list_elem_of_here.
Defined.

Lemma open_existing_modes_never_create_example :
  (∀ x, open ex_normalize_store_arg ex_normalize_path ex_contains_array ex_contains_group
          ex_open_array ex_open_group ex_err_path_not_found (inr 0) "r" ∅ = Return (Some x) →
        ex_contains_array 0 "" = true ∧ ex_open_array 0 "r" ∅ = Return x
        ∨ ex_contains_array 0 "" = false ∧ ex_contains_group 0 "" = true
          ∧ ex_open_group 0 "r" ∅ = Return x)
  ∧ (ex_contains_array 0 "" = false → ex_contains_group 0 "" = false →
     open ex_normalize_store_arg ex_normalize_path ex_contains_array ex_contains_group
       ex_open_array ex_open_group ex_err_path_not_found (inr 0) "r" ∅
     = match ex_err_path_not_found "" with
       | Raise e => Raise e
       | Return _ => Return None
       end).
Proof.
  apply (open_existing_modes_never_create ex_normalize_store_arg ex_normalize_path
           ex_contains_array ex_contains_group ex_open_array ex_open_group
           ex_err_path_not_found (inr 0) "r" ∅ 0 "").
  - rewrite !not_elem_of_cons. repeat split; try discriminate. apply not_elem_of_nil.
  - reflexivity.
  - reflexivity.
Defined.
